(** * task-maker: local execution worker and event queues

    A shallow embedding of

    - [cpp/executor/local_executor.cpp]: [LocalExecutor::Execute] with its
      helpers [PrepareFile], [RetrieveFile], [MaybeRequestFile] and the
      admission guard [LocalExecutor::ThreadGuard];
    - [cpp/util/file.cpp]: the pure path functions and [TempDir], and
      [File::MakeDirs], [File::Copy], [File::Move] and [File::Remove] over
      the calls of the operating system;
    - [manager/event_queue.cpp]: [EventQueue] with its writer loops.

    Calls that leave the process (file system, sandbox, the process-wide
    guard) are commands of a small free monad; a handler answers them and
    the interpreter records the trace of commands with their answers. *)

From Stdlib Require Import ZArith QArith Lia String Ascii List Bool Sorted.
From stdpp Require Import base list strings gmap.

Import ListNotations.
Local Open Scope string_scope.
Local Open Scope list_scope.
Local Open Scope Z_scope.

(* ===================================================================== *)
(** ** Exceptions *)
(* ===================================================================== *)

(** The C++ exception types the modelled code throws.  [std_terminate] is
    not an exception: as the result of a run it marks the process being
    terminated because a destructor threw. *)
Inductive exn : Type :=
| logic_error (what : string)
| runtime_error (what : string)
| system_error (code : Z) (what : string)
| too_many_executions (what : string)
| std_terminate.

(** A [std::string] read as a C string, as [what()] gives the message of
    an exception: it ends before the first NUL. *)
Fixpoint c_str (s : string) : string :=
  match s with
  | EmptyString => EmptyString
  | String c s' =>
      if Ascii.eqb c "000"%char then EmptyString else String c (c_str s')
  end.

(** [std::errc::no_such_file_or_directory]. *)
Definition ENOENT : Z := 2.

(** The test of the [catch] clause in [Execute]: a [std::system_error]
    whose code value is [ENOENT]. *)
Definition is_not_found (e : exn) : bool :=
  match e with
  | system_error code _ => code =? ENOENT
  | _ => false
  end.

(* ===================================================================== *)
(** ** util::File: path functions *)
(* ===================================================================== *)

Module File.

(** [kPathSeparators = "/"]. *)
Definition kPathSeparators : string := "/".

(** [strchr(kPathSeparators, c) != nullptr]: [c] is the separator or the
    terminating NUL of the separator string. *)
Definition is_separator (c : ascii) : bool :=
  (Ascii.eqb c "/"%char) || (Ascii.eqb c "000"%char).

(** [File::JoinPath].  For an empty [second], [second[0]] is the string's
    terminator, which [strchr] finds. *)
Definition JoinPath (first second : string) : string :=
  match second with
  | EmptyString => second
  | String c _ => if is_separator c then second else first +:+ "/" +:+ second
  end.

(** A digest in its hex projection ([SHA256_t::Hex]). *)
Definition SHA256_t : Type := string.

(** [File::PathForHash]; [flags_store] is [Flags::store_directory]. *)
Definition PathForHash (flags_store : string) (hash : SHA256_t) : string :=
  let path := hash in
  JoinPath flags_store
    (JoinPath (JoinPath (substring 0 2 path) (substring 2 2 path)) path).

(** [File::SHAToPath]. *)
Definition SHAToPath (flags_store store_directory : string) (hash : SHA256_t)
  : string :=
  JoinPath store_directory (PathForHash flags_store hash).

End File.

(* ===================================================================== *)
(** ** Protocol messages *)
(* ===================================================================== *)

Inductive FileType : Type := STDIN | STDOUT | STDERR | USER.

Definition FileType_eqb (a b : FileType) : bool :=
  match a, b with
  | STDIN, STDIN | STDOUT, STDOUT | STDERR, STDERR | USER, USER => true
  | _, _ => false
  end.

Record FileInfo : Type := mkFileInfo {
  name : string;
  type : FileType;
  hash : File.SHA256_t;
  executable : bool;
  contents : option string      (* [has_contents()] / [contents()] *)
}.

(** An input file that [PrepareFile] rejects: not the standard input, and
    its name holds a [/] or a NUL. *)
Definition illegal_input (f : FileInfo) : Prop :=
  type f <> STDIN /\
  exists c, In c (list_ascii_of_string (name f))
            /\ (c = "/"%char \/ c = "000"%char).

Inductive Status : Type :=
| SUCCESS | SIGNAL | NONZERO | TIME_LIMIT | MEMORY_LIMIT | MISSING_FILES.

Definition Status_eqb (a b : Status) : bool :=
  match a, b with
  | SUCCESS, SUCCESS | SIGNAL, SIGNAL | NONZERO, NONZERO
  | TIME_LIMIT, TIME_LIMIT | MEMORY_LIMIT, MEMORY_LIMIT
  | MISSING_FILES, MISSING_FILES => true
  | _, _ => false
  end.

(** The sandbox's report ([sandbox::ExecutionInfo]). *)
Record ExecutionInfo : Type := mkExecutionInfo {
  cpu_time_millis : Z;
  sys_time_millis : Z;
  wall_time_millis : Z;
  memory_usage_kb : Z;
  status_code : Z;
  signal : Z;
  message : string
}.

(** The arithmetic of the numeric fields whose C++ types are floating
    point: the time fields of the protocol messages, and the products that
    scale the limits.  The model is parametric in it. *)
Class Numerics : Type := {
  seconds : Type;
  (** [millis / 1000.0], stored in a time field of the response *)
  seconds_of_millis : Z -> seconds;
  (** [a + b] on time fields *)
  seconds_add : seconds -> seconds -> seconds;
  (** [a >= b] on time fields *)
  seconds_geb : seconds -> seconds -> bool;
  (** [a != 0] on a time field *)
  seconds_nonzero : seconds -> bool;
  (** [t * 1200], stored in an integer field of the sandbox options *)
  times_1200 : seconds -> Z;
  (** [m * 1.2], stored in an integer field of the sandbox options *)
  times_1_2 : Z -> Z;
  seconds_add_comm : forall a b, seconds_add a b = seconds_add b a
}.

(** Options handed to the sandbox ([sandbox::ExecutionOptions]). *)
Record ExecutionOptions : Type := mkExecutionOptions {
  root : string;
  opt_executable : string;
  args : list string;
  stdin_file : string;
  stdout_file : string;
  stderr_file : string;
  cpu_limit_millis : Z;
  wall_limit_millis : Z;
  memory_limit_kb : Z;
  max_files : Z;
  max_procs : Z;
  max_file_size_kb : Z;
  max_mlock_kb : Z;
  max_stack_kb : Z
}.

(* ===================================================================== *)
(** ** Programs over external commands *)
(* ===================================================================== *)

(** The calls of [LocalExecutor] that leave the modelled code. *)
Inductive Cmd : Type :=
| FileSize (path : string)
| FileWriteContents (path contents : string) (overwrite exist_ok : bool)
| FileWriteFetched (path : string) (hash : File.SHA256_t)
    (overwrite exist_ok : bool)
| FileMakeDirs (path : string)
| FileCopy (from to : string)
| FileMakeExecutable (path : string)
| FileHash (path : string)
| FileRemoveTree (path : string)
| OsTempDir (base : string)
| Errno
| WriteCommandFile (path text : string)
| SandboxCreate
| SandboxPrepareForExecution (path : string)
| SandboxExecute (options : ExecutionOptions)
| ThreadGuardAcquire (exclusive : bool)
| ThreadGuardRelease (exclusive : bool).

(** What a command returns when it does not throw. *)
Definition answer (c : Cmd) : Type :=
  match c with
  | FileSize _ => Z
  | FileHash _ => File.SHA256_t
  | OsTempDir _ => string
  | Errno => Z
  | SandboxPrepareForExecution _ => (bool * string)%type
  | SandboxExecute _ => (bool * ExecutionInfo * string)%type
  | _ => unit
  end.

(** A program: returns, throws, ends the process ([std::terminate]), or
    issues a command and continues with its outcome (an exception thrown by
    the callee, or its answer). *)
Inductive Prog (A : Type) : Type :=
| Ret (a : A)
| Throw (e : exn)
| Terminate
| Call (c : Cmd) (k : exn + answer c -> Prog A).

Arguments Ret {A} a.
Arguments Throw {A} e.
Arguments Terminate {A}.
Arguments Call {A} c k.

Fixpoint bind {A B : Type} (p : Prog A) (f : A -> Prog B) : Prog B :=
  match p with
  | Ret a => f a
  | Throw e => Throw e
  | Terminate => Terminate
  | Call c k => Call c (fun r => bind (k r) f)
  end.

Notation "'let*' x ':=' p 'in' q" := (bind p (fun x => q))
  (at level 10, x name, p at level 100, q at level 200).
Notation "'let*' ' pat ':=' p 'in' q" :=
  (bind p (fun x => let 'pat := x in q))
  (at level 10, pat pattern, p at level 100, q at level 200).
Notation "p ';;' q" := (bind p (fun _ => q))
  (at level 100, q at level 200, right associativity).

(** A call whose exception propagates to the caller. *)
Definition call (c : Cmd) : Prog (answer c) :=
  Call c (fun r => match r with inl e => Throw e | inr a => Ret a end).

(** [try { p } catch (e) { h e }]; a process that is terminated runs no
    handler. *)
Fixpoint try_catch {A : Type} (p : Prog A) (h : exn -> Prog A) : Prog A :=
  match p with
  | Ret a => Ret a
  | Throw e => h e
  | Terminate => Terminate
  | Call c k => Call c (fun r => try_catch (k r) h)
  end.

(** Runs the destructor [d], then continues as [q]; a destructor that
    throws terminates the process (destructors are [noexcept]), and nothing
    is run after it. *)
Fixpoint after_destructor {A : Type} (d : Prog unit) (q : Prog A) : Prog A :=
  match d with
  | Ret _ => q
  | Throw _ => Terminate
  | Terminate => Terminate
  | Call c k => Call c (fun r => after_destructor (k r) q)
  end.

(** The scope of an object with destructor [d]: [d] runs when [p] returns
    and when [p] throws; when the process is terminated inside [p], no
    destructor runs any more. *)
Fixpoint with_destructor {A : Type} (p : Prog A) (d : Prog unit) : Prog A :=
  match p with
  | Ret a => after_destructor d (Ret a)
  | Throw e => after_destructor d (Throw e)
  | Terminate => Terminate
  | Call c k => Call c (fun r => with_destructor (k r) d)
  end.

(** A range-based [for] whose body threads a state. *)
Fixpoint for_each {A S : Type} (l : list A) (body : S -> A -> Prog S) (s : S)
  : Prog S :=
  match l with
  | [] => Ret s
  | a :: l' => let* s' := body s a in for_each l' body s'
  end.

(** One command of a run, with its outcome. *)
Record event : Type := Ev { ev_cmd : Cmd; ev_outcome : exn + answer ev_cmd }.

(** The environment: answers each command from a world state. *)
Definition handler (W : Type) : Type :=
  forall c : Cmd, W -> W * (exn + answer c).

(** The run of a program against a handler: the trace of commands issued,
    the final world, and the exception raised or the value returned; the
    result of a run that ends the process is [std_terminate]. *)
Fixpoint run {W A : Type} (h : handler W) (p : Prog A) (w : W)
  : list event * W * (exn + A) :=
  match p with
  | Ret a => ([], w, inr a)
  | Throw e => ([], w, inl e)
  | Terminate => ([], w, inl std_terminate)
  | Call c k =>
      let '(w1, r) := h c w in
      let '(tr, w2, res) := run h (k r) w1 in
      (Ev c r :: tr, w2, res)
  end.

(** The run ends the process: a destructor threw. *)
Fixpoint terminated {W A : Type} (h : handler W) (p : Prog A) (w : W) : bool :=
  match p with
  | Ret _ | Throw _ => false
  | Terminate => true
  | Call c k => let '(w1, r) := h c w in terminated h (k r) w1
  end.

Definition trace_of {W A : Type} (x : list event * W * (exn + A)) : list event :=
  fst (fst x).
Definition result_of {W A : Type} (x : list event * W * (exn + A)) : exn + A :=
  snd x.

(** The command's callee threw. *)
Definition threw (ev : event) : bool :=
  match ev_outcome ev with
  | inl _ => true
  | inr _ => false
  end.

(** The command's callee threw a not-found [system_error]. *)
Definition threw_not_found (ev : event) : bool :=
  match ev_outcome ev with
  | inl e => is_not_found e
  | inr _ => false
  end.

(** A program that returns no value, whatever the commands answer. *)
Fixpoint never_returns {A : Type} (p : Prog A) : Prop :=
  match p with
  | Ret _ => False
  | Throw _ | Terminate => True
  | Call _ k => forall r, never_returns (k r)
  end.

(** A program all of whose commands satisfy [P], whatever they answer. *)
Fixpoint issues_only (P : Cmd -> bool) {A : Type} (p : Prog A) : Prop :=
  match p with
  | Ret _ | Throw _ | Terminate => True
  | Call c k => P c = true /\ forall r, issues_only P (k r)
  end.

(** A program all of whose returned values satisfy [Q]. *)
Fixpoint returns_only {A : Type} (Q : A -> Prop) (p : Prog A) : Prop :=
  match p with
  | Ret a => Q a
  | Throw _ | Terminate => True
  | Call _ k => forall r, returns_only Q (k r)
  end.

(** A program that catches nothing: after a command whose callee threw it
    returns no value. *)
Fixpoint catches_nothing {A : Type} (p : Prog A) : Prop :=
  match p with
  | Ret _ | Throw _ | Terminate => True
  | Call c k =>
      (forall e, never_returns (k (inl e))) /\ (forall a, catches_nothing (k (inr a)))
  end.

(** A program without destructors: it does not end the process, whatever
    the commands answer. *)
Fixpoint no_destructor {A : Type} (p : Prog A) : Prop :=
  match p with
  | Ret _ | Throw _ => True
  | Terminate => False
  | Call _ k => forall r, no_destructor (k r)
  end.

(** Commands that change the file system: a blob written to the store or
    fetched into it, a directory or a file created, copied or removed. *)
Definition filesystem_work (c : Cmd) : bool :=
  match c with
  | FileWriteContents _ _ _ _ | FileWriteFetched _ _ _ _ | FileMakeDirs _
  | FileCopy _ _ | FileMakeExecutable _ | FileRemoveTree _ | OsTempDir _
  | WriteCommandFile _ _ => true
  | _ => false
  end.

(** The claim of a rejection before any file-system work: the run ends in
    a runtime error and none of its commands changed the file system. *)
Definition rejected_before_filesystem_work {W A : Type}
    (r : list event * W * (exn + A)) : Prop :=
  (exists what, result_of r = inl (runtime_error what))
  /\ Forall (fun ev => filesystem_work (ev_cmd ev) = false) (trace_of r).

(** An environment in which nothing fails: no callee throws, and
    [OsTempDir] creates a directory. *)
Definition answers_all {W : Type} (h : handler W) : Prop :=
  (forall c w, exists a, snd (h c w) = inr a)
  /\ (forall base w, snd (h (OsTempDir base) w) <> inr "").

(** Commands that use the sandbox or take an admission token. *)
Definition uses_sandbox (c : Cmd) : bool :=
  match c with
  | SandboxCreate | SandboxPrepareForExecution _ | SandboxExecute _
  | ThreadGuardAcquire _ | ThreadGuardRelease _ => true
  | _ => false
  end.



(* ===================================================================== *)
(** ** util::TempDir *)
(* ===================================================================== *)

Module TempDir.

(** [File::RemoveTree]: [OsRemoveTree] is the command; its failure is the
    [system_error] the command's outcome carries. *)
Definition RemoveTree (path : string) : Prog unit := call (FileRemoveTree path).

(** [TempDir::TempDir(base)]: the path of the new directory. *)
Definition ctor (base : string) : Prog string :=
  call (FileMakeDirs base) ;;
  let* path_ := call (OsTempDir base) in
  if String.eqb path_ "" then
    let* errno := call Errno in Throw (system_error errno "mkdtemp")
  else Ret path_.

(** [TempDir::~TempDir()], for an object that was not moved from. *)
Definition dtor (path_ : string) (keep_ : bool) : Prog unit :=
  if negb keep_ then RemoveTree path_ else Ret tt.

End TempDir.

(* ===================================================================== *)
(** ** executor::LocalExecutor *)
(* ===================================================================== *)

Module LocalExecutor.

Section Model.

Context {num : Numerics}.

Record ResourceLimits : Type := mkResourceLimits {
  cpu_time : seconds;
  wall_time : seconds;
  memory : Z;
  nfiles : Z;
  processes : Z;
  fsize : Z;
  mlock : Z;
  stack : Z
}.

Record ResourceUsage : Type := mkResourceUsage {
  ru_cpu_time : seconds;
  ru_sys_time : seconds;
  ru_wall_time : seconds;
  ru_memory : Z
}.

Record Request : Type := mkRequest {
  req_executable : string;
  arg : list string;
  input : list FileInfo;
  output : list FileInfo;
  resource_limit : ResourceLimits;
  fifo_size : Z;
  exclusive : bool;
  keep_sandbox : bool
}.

Record Response : Type := mkResponse {
  resource_usage : ResourceUsage;
  status : Status;
  rsp_status_code : Z;
  rsp_signal : Z;
  error_message : string;
  rsp_output : list FileInfo
}.

Definition set_status (s : Status) (r : Response) : Response :=
  mkResponse (resource_usage r) s (rsp_status_code r) (rsp_signal r)
    (error_message r) (rsp_output r).

Definition set_error_message (m : string) (r : Response) : Response :=
  mkResponse (resource_usage r) (status r) (rsp_status_code r) (rsp_signal r)
    m (rsp_output r).

Definition add_output (f : FileInfo) (r : Response) : Response :=
  mkResponse (resource_usage r) (status r) (rsp_status_code r) (rsp_signal r)
    (error_message r) (rsp_output r ++ [f]).

(** The members of a [LocalExecutor], and [Flags::store_directory], which
    [File::PathForHash] reads. *)
Record Executor : Type := mkExecutor {
  store_directory_ : string;
  temp_directory_ : string;
  flags_store_directory : string
}.

Variable self : Executor.

(** Modelled from the spec: [kBoxDir], the name of the sandbox
    subdirectory, is declared in a header that is not among the sources; the
    spec names it [box]. *)
Definition kBoxDir : string := "box".

(** Modelled from the spec: [File::ProtoSHAToPath] is declared in a header
    that is not among the sources; it is the store path of a protocol
    digest, as [File::SHAToPath] is of a digest. *)
Definition ProtoSHAToPath (store_directory : string) (h : File.SHA256_t)
  : string :=
  File.SHAToPath (flags_store_directory self) store_directory h.

(** Modelled from the spec: [File::SetSHA] is declared in a header that is
    not among the sources; it stores the computed digest in the file's
    description. *)
Definition SetSHA (h : File.SHA256_t) (info : FileInfo) : FileInfo :=
  mkFileInfo (name info) (type info) h (executable info) (contents info).

(** [IsIllegalChar]. *)
Definition IsIllegalChar (c : ascii) : bool :=
  (Ascii.eqb c "/"%char) || (Ascii.eqb c "000"%char).

(** [std::find_if(name.begin(), name.end(), IsIllegalChar) != name.end()]. *)
Definition has_illegal_char (name : string) : bool :=
  existsb IsIllegalChar (list_ascii_of_string name).

(** [LocalExecutor::MaybeRequestFile]. *)
Definition MaybeRequestFile (info : FileInfo) : Prog unit :=
  let path := ProtoSHAToPath (store_directory_ self) (hash info) in
  let* size := call (FileSize path) in
  if 0 <=? size then Ret tt
  else
    let overwrite := false in
    let exist_ok := false in
    match contents info with
    | Some c => call (FileWriteContents path c overwrite exist_ok)
    | None => call (FileWriteFetched path (hash info) overwrite exist_ok)
    end.

Definition set_stdin_file (f : string) (o : ExecutionOptions)
  : ExecutionOptions :=
  mkExecutionOptions (root o) (opt_executable o) (args o) f (stdout_file o)
    (stderr_file o) (cpu_limit_millis o) (wall_limit_millis o)
    (memory_limit_kb o) (max_files o) (max_procs o) (max_file_size_kb o)
    (max_mlock_kb o) (max_stack_kb o).

Definition set_stdout_stderr (out err : string) (o : ExecutionOptions)
  : ExecutionOptions :=
  mkExecutionOptions (root o) (opt_executable o) (args o) (stdin_file o) out
    err (cpu_limit_millis o) (wall_limit_millis o)
    (memory_limit_kb o) (max_files o) (max_procs o) (max_file_size_kb o)
    (max_mlock_kb o) (max_stack_kb o).

(** [LocalExecutor::PrepareFile]: the options and the list of staged files
    after the call.  The message of the error is built from the name of the
    file; [what()] gives it up to the first NUL of the name. *)
Definition PrepareFile (info : FileInfo) (tmpdir : string)
    (options : ExecutionOptions) (input_files : list string)
  : Prog (ExecutionOptions * list string) :=
  let* '(name, options) :=
    (if FileType_eqb (type info) STDIN then
       Ret ("stdin", set_stdin_file (File.JoinPath tmpdir "stdin") options)
     else if has_illegal_char (name info) then
       Throw (runtime_error (c_str ("Invalid file name: " +:+ name info)))
     else Ret (File.JoinPath kBoxDir (name info), options)) in
  let source_path := ProtoSHAToPath (store_directory_ self) (hash info) in
  let target_path := File.JoinPath tmpdir name in
  call (FileCopy source_path target_path) ;;
  (if executable info then call (FileMakeExecutable target_path)
   else Ret tt) ;;
  Ret (options, input_files ++ [File.JoinPath tmpdir name]).

(** [LocalExecutor::RetrieveFile]: the response after the call. *)
Definition RetrieveFile (info : FileInfo) (tmpdir : string)
    (response : Response) : Prog Response :=
  let* name :=
    (if FileType_eqb (type info) STDOUT || FileType_eqb (type info) STDERR
     then Ret (if FileType_eqb (type info) STDOUT then "stdout" else "stderr")
     else if has_illegal_char (name info) then
       Throw (runtime_error "Invalid file name")
     else Ret (File.JoinPath kBoxDir (name info))) in
  let* hash := call (FileHash (File.JoinPath tmpdir name)) in
  let out_info := info in
  let destination_path :=
    File.SHAToPath (flags_store_directory self) (store_directory_ self) hash in
  call (FileCopy (File.JoinPath tmpdir name) destination_path) ;;
  let out_info := SetSHA hash out_info in
  Ret (add_output out_info response).

(** A default-constructed [proto::FileInfo] with its type set. *)
Definition FileInfo_of_type (t : FileType) : FileInfo :=
  mkFileInfo "" t "" false None.

(** The response of [Execute] after lines 99-112: resource usage, status
    code and signal are filled in; the status is not set yet (the value
    written here is overwritten by every branch of the classification). *)
Definition response_of_result (result : ExecutionInfo) : Response :=
  mkResponse
    (mkResourceUsage (seconds_of_millis (cpu_time_millis result))
       (seconds_of_millis (sys_time_millis result))
       (seconds_of_millis (wall_time_millis result))
       (memory_usage_kb result))
    SUCCESS (status_code result) (signal result) "" [].

(** The termination status, lines 113-136 of [Execute]. *)
Definition classify (request : Request) (result : ExecutionInfo)
    (response : Response) : Response :=
  let limit := resource_limit request in
  let usage := resource_usage response in
  if negb (memory limit =? 0) && (memory limit <=? ru_memory usage) then
    set_error_message "Memory limit exceeded"
      (set_status MEMORY_LIMIT response)
  else if seconds_nonzero (cpu_time limit) &&
          seconds_geb (seconds_add (ru_sys_time usage) (ru_cpu_time usage))
            (cpu_time limit) then
    set_error_message "CPU limit exceeded" (set_status TIME_LIMIT response)
  else if seconds_nonzero (wall_time limit) &&
          seconds_geb (ru_wall_time usage) (wall_time limit) then
    set_error_message "Wall limit exceeded" (set_status TIME_LIMIT response)
  else if negb (rsp_signal response =? 0) then
    set_error_message (message result) (set_status SIGNAL response)
  else if negb (rsp_status_code response =? 0) then
    set_error_message (message result) (set_status NONZERO response)
  else set_status SUCCESS response.

(** The body of the loop over [request.output()], lines 145-155: the
    [try] block around [RetrieveFile] and its [catch] clause. *)
Definition retrieve_declared (tmp : string) (response : Response)
    (info : FileInfo) : Prog Response :=
  try_catch (RetrieveFile info tmp response)
    (fun exc =>
       match exc with
       | system_error code _ =>
           if negb (code =? ENOENT) then Throw exc
           else if Status_eqb (status response) SUCCESS then
             Ret (set_error_message "Missing output files"
                    (set_status MISSING_FILES response))
           else Ret response
       | _ => Throw exc
       end).

(** The response after the [catch] clause has swallowed a not-found
    error. *)
Definition demoted (response : Response) : Response :=
  if Status_eqb (status response) SUCCESS then
    set_error_message "Missing output files" (set_status MISSING_FILES response)
  else response.

(** The status of a response with its error message. *)
Definition verdict (response : Response) : Status * string :=
  (status response, error_message response).

(** Output files, lines 138-157 of [Execute]. *)
Definition retrieve_outputs (request : Request) (tmp : string)
    (response : Response) : Prog Response :=
  let* response := RetrieveFile (FileInfo_of_type STDOUT) tmp response in
  let* response := RetrieveFile (FileInfo_of_type STDERR) tmp response in
  for_each (output request) (retrieve_declared tmp) response.

(** The sandbox options before the input files are staged, lines 47-62. *)
Definition initial_options (request : Request) (sandbox_dir : string)
  : ExecutionOptions :=
  let limit := resource_limit request in
  mkExecutionOptions sandbox_dir (req_executable request) (arg request)
    "" "" ""
    (times_1200 (cpu_time limit)) (times_1200 (wall_time limit))
    (times_1_2 (memory limit))
    (nfiles limit) (processes limit) (fsize limit) (mlock limit)
    (stack limit).

(** The resource limits of sandbox options, and those [Execute] derives
    from a request. *)
Definition limits_of (o : ExecutionOptions) : list Z :=
  [cpu_limit_millis o; wall_limit_millis o; memory_limit_kb o; max_files o;
   max_procs o; max_file_size_kb o; max_mlock_kb o; max_stack_kb o].

Definition requested_limits (request : Request) : list Z :=
  let limit := resource_limit request in
  [times_1200 (cpu_time limit); times_1200 (wall_time limit);
   times_1_2 (memory limit); nfiles limit; processes limit; fsize limit;
   mlock limit; stack limit].

(** A command that, if it executes the sandbox, does so with the limits
    [L]. *)
Definition executes_with (L : list Z) (c : Cmd) : bool :=
  match c with
  | SandboxExecute o => bool_decide (limits_of o = L)
  | _ => true
  end.

(** One round of the loop over [request.input()], lines 67-76; the state is
    the options, the staged files and [loaded_executable]. *)
Definition stage_input (request : Request) (tmp : string)
    (st : ExecutionOptions * list string * bool) (input : FileInfo)
  : Prog (ExecutionOptions * list string * bool) :=
  let '(exec_options, input_files, loaded_executable) := st in
  let* '(exec_options, input_files) :=
    PrepareFile input tmp exec_options input_files in
  if String.eqb (name input) (req_executable request) then
    Ret (exec_options, removelast input_files, true)
  else Ret (exec_options, input_files, loaded_executable).

(** [ThreadGuard guard(exclusive); sb->Execute(...)], lines 92-97: the
    guard is released when the block is left, also by the exception. *)
Definition guarded_execute (request : Request)
    (exec_options : ExecutionOptions) : Prog ExecutionInfo :=
  call (ThreadGuardAcquire (exclusive request)) ;;
  with_destructor
    (let* '(ok, result, error_msg) := call (SandboxExecute exec_options) in
     if ok : bool then Ret result else Throw (runtime_error error_msg))
    (call (ThreadGuardRelease (exclusive request))).

(** The command line written to [command.txt]. *)
Definition cmdline_of (request : Request) : string :=
  fold_left (fun cmdline a => cmdline +:+ " '" +:+ a +:+ "'") (arg request)
    (req_executable request).

(** [Execute] from the point where [tmp] exists to the sandbox's report,
    lines 30-97. *)
Definition execute_sandbox (request : Request) (tmp : string)
  : Prog ExecutionInfo :=
  let cmdline := cmdline_of request in
  (if keep_sandbox request then
     call (WriteCommandFile (File.JoinPath tmp "command.txt")
             (cmdline +:+ String "010"%char ""))
   else Ret tt) ;;
  let sandbox_dir := File.JoinPath tmp kBoxDir in
  call (FileMakeDirs sandbox_dir) ;;
  let exec_options := initial_options request sandbox_dir in
  let* '(exec_options, input_files, loaded_executable) :=
    for_each (input request) (stage_input request tmp)
      (exec_options, [], false) in
  let exec_options :=
    set_stdout_stderr (File.JoinPath tmp "stdout") (File.JoinPath tmp "stderr")
      exec_options in
  call SandboxCreate ;;
  (if loaded_executable : bool then
     let* '(ok, error_msg) :=
       call (SandboxPrepareForExecution
               (File.JoinPath sandbox_dir (req_executable request))) in
     if ok : bool then Ret tt else Throw (runtime_error error_msg)
   else Ret tt) ;;
  guarded_execute request exec_options.

(** [Execute] from the point where [tmp] exists, lines 30-157. *)
Definition Execute_in (request : Request) (tmp : string) : Prog Response :=
  let* result := execute_sandbox request tmp in
  let response := classify request result (response_of_result result) in
  retrieve_outputs request tmp response.

(** The input files are materialised in the store, lines 23-25. *)
Definition materialize_inputs (request : Request) : Prog unit :=
  for_each (input request) (fun _ input => MaybeRequestFile input) tt.

(** [LocalExecutor::Execute]. *)
Definition Execute (request : Request) : Prog Response :=
  if negb (fifo_size request =? 0) then
    Throw (logic_error "FIFOs are not implemented yet")
  else
    materialize_inputs request ;;
    let* tmp := TempDir.ctor (temp_directory_ self) in
    with_destructor (Execute_in request tmp)
      (TempDir.dtor tmp (keep_sandbox request)).

End Model.

End LocalExecutor.

(* ===================================================================== *)
(** ** LocalExecutor::ThreadGuard *)
(* ===================================================================== *)

Module ThreadGuard.

(** [size_t] arithmetic: 64 bits, wrapping. *)
Definition size_t_wrap (z : Z) : Z := z mod 2 ^ 64.

(** [ThreadGuard::ThreadGuard(exclusive)] under the mutex, on the static
    counters [MaxThreads()] and [CurThreads()]: the exception thrown, or the
    new value of [CurThreads()]. *)
Definition ctor (max cur : Z) (exclusive_ : bool) : exn + Z :=
  if exclusive_ then
    if negb (cur =? 0) then
      inl (too_many_executions "Exclusive execution failed: worker busy")
    else inr max
  else
    if cur =? max then
      inl (too_many_executions "Execution failed: worker busy")
    else inr (size_t_wrap (cur + 1)).

(** [ThreadGuard::~ThreadGuard()]: the new value of [CurThreads()]. *)
Definition dtor (cur : Z) (exclusive_ : bool) : Z :=
  if exclusive_ then 0 else size_t_wrap (cur - 1).

(** The guard with the tokens that are alive: a token is the [exclusive_]
    member of a constructed [ThreadGuard]. *)
Record state : Type := mkState { cur : Z; live : list bool }.

Definition initial : state := mkState 0 [].

(** A constructor call, or the destructor call of the [i]-th live token.
    A constructor that throws constructs no object, so no destructor runs
    for it. *)
Inductive op : Type :=
| Acquire (exclusive_ : bool)
| Release (i : nat).

Definition step (max : Z) (s : state) (o : op) : state :=
  match o with
  | Acquire e =>
      match ctor max (cur s) e with
      | inr c => mkState c (e :: live s)
      | inl _ => s
      end
  | Release i =>
      match live s !! i with
      | Some e => mkState (dtor (cur s) e) (delete i (live s))
      | None => s
      end
  end.

Definition steps (max : Z) (ops : list op) (s : state) : state :=
  fold_left (step max) ops s.

(** What holds of the counter and the live tokens: either no exclusive
    token is alive and the counter counts the tokens, or only exclusive
    tokens are alive and the counter is [max]. *)
Definition guard_inv (max : Z) (s : state) : Prop :=
  0 <= cur s <= max /\
  ((Forall (fun e => e = false) (live s) /\ cur s = Z.of_nat (length (live s)))
   \/ (Forall (fun e => e = true) (live s) /\ live s <> [] /\ cur s = max
       /\ (length (live s) = 1%nat \/ max = 0))).

End ThreadGuard.

(* ===================================================================== *)
(** ** manager::EventQueue *)
(* ===================================================================== *)

Module EventQueue.

Section Queue.

Context {Event : Type}.

(** The members [queue_] (front first) and [stopped_]. *)
Record state : Type := mkState {
  queue_ : list Event;
  stopped_ : bool
}.

(** A default-constructed queue. *)
Definition initial : state := mkState [] false.

(** [EventQueue::Enqueue]. *)
Definition Enqueue (event : Event) (q : state) : state :=
  mkState (queue_ q ++ [event]) (stopped_ q).

(** The condition [Dequeue] awaits: [stopped_ || !queue_.empty()]. *)
Definition cond (q : state) : bool :=
  stopped_ q || negb (match queue_ q with [] => true | _ => false end).

(** [EventQueue::Dequeue]: [None] while the call waits for its condition;
    otherwise the optional returned and the new state. *)
Definition Dequeue (q : state) : option (option Event * state) :=
  if cond q then
    match queue_ q with
    | [] => Some (None, q)
    | event :: rest => Some (Some event, mkState rest (stopped_ q))
    end
  else None.

(** [EventQueue::Stop]. *)
Definition Stop (q : state) : state := mkState (queue_ q) true.

(** [n] calls of [Dequeue] in a row: the optionals returned, in order. *)
Fixpoint Dequeue_n (n : nat) (q : state)
  : option (list (option Event) * state) :=
  match n with
  | O => Some ([], q)
  | S n' =>
      match Dequeue q with
      | Some (r, q') =>
          match Dequeue_n n' q' with
          | Some (rs, q'') => Some (r :: rs, q'')
          | None => None
          end
      | None => None
      end
  end.

End Queue.

Arguments state : clear implicits.

End EventQueue.

(* ===================================================================== *)
(** ** The classification as the specification words it *)
(* ===================================================================== *)

Module Classification.

Section Rules.

Context {num : Numerics}.

(** The first rule of the list whose condition holds decides; [default]
    when none does. *)
Fixpoint first_match {V : Type} (rules : list (bool * V)) (default : V) : V :=
  match rules with
  | [] => default
  | (cond, v) :: rules' => if cond then v else first_match rules' default
  end.

(** The rules in their order, each with the status and the error message
    it gives; the usages are those of the response, in seconds. *)
Definition rules (request : LocalExecutor.Request) (info : ExecutionInfo)
  : list (bool * (Status * string)) :=
  let limit := LocalExecutor.resource_limit request in
  let cpu := seconds_of_millis (cpu_time_millis info) in
  let sys := seconds_of_millis (sys_time_millis info) in
  let wall := seconds_of_millis (wall_time_millis info) in
  [ (negb (LocalExecutor.memory limit =? 0)
     && (memory_usage_kb info >=? LocalExecutor.memory limit),
     (MEMORY_LIMIT, "Memory limit exceeded"));
    (seconds_nonzero (LocalExecutor.cpu_time limit)
     && seconds_geb (seconds_add cpu sys) (LocalExecutor.cpu_time limit),
     (TIME_LIMIT, "CPU limit exceeded"));
    (seconds_nonzero (LocalExecutor.wall_time limit)
     && seconds_geb wall (LocalExecutor.wall_time limit),
     (TIME_LIMIT, "Wall limit exceeded"));
    (negb (signal info =? 0), (SIGNAL, message info));
    (negb (status_code info =? 0), (NONZERO, message info)) ].

Definition by_rules (request : LocalExecutor.Request) (info : ExecutionInfo)
  : Status * string :=
  first_match (rules request info) (SUCCESS, "").

End Rules.

End Classification.

(* ===================================================================== *)
(** ** An environment to run the model in *)
(* ===================================================================== *)

Module Example.

(** Exact arithmetic on rationals in place of the floating-point fields;
    conversions to integers truncate towards zero. *)
Definition truncate (q : Q) : Z := Z.quot (Qnum q) (Z.pos (Qden q)).

Lemma Qplus_comm_eq (a b : Q) : Qplus a b = Qplus b a.
Proof.
  destruct a as [an ad], b as [bn bd]. unfold Qplus. simpl.
  f_equal; [lia|apply Pos.mul_comm].
Qed.

#[export] Instance exact_numerics : Numerics := {|
  seconds := Q;
  seconds_of_millis := fun m => Qmake m 1000;
  seconds_add := Qplus;
  seconds_geb := fun a b => Qle_bool b a;
  seconds_nonzero := fun a => negb (Qeq_bool a (Qmake 0 1));
  times_1200 := fun t => truncate (Qmult t (Qmake 1200 1));
  times_1_2 := fun m => Z.quot (m * 6) 5;
  seconds_add_comm := Qplus_comm_eq
|}.

(** The files by path, and the admission counter; the worker has
    [max_threads] slots. *)
Record world : Type := mkWorld {
  files : gmap string string;
  cur_threads : Z
}.

Definition max_threads : Z := 4.

(** A toy digest: the contents themselves behind a prefix. *)
Definition digest (contents : string) : File.SHA256_t := "h" +:+ contents.

(** What the sandboxed program does: the files after the run, and the
    outcome of [Sandbox::Execute]. *)
Definition program : Type :=
  ExecutionOptions -> gmap string string ->
  gmap string string * (bool * ExecutionInfo * string).

Definition read_error (path : string) : exn :=
  system_error ENOENT ("Read " +:+ path).

(** The environment: files are a map, every directory exists, copies of
    absent files fail with not-found, the sandbox runs [prog], and the
    guard is [ThreadGuard] on the world's counter. *)
Definition env (prog : program) : handler world :=
  fun c w =>
    match c as c0 return world * (exn + answer c0) with
    | FileSize path =>
        (w, inr (match files w !! path with
                 | Some body => Z.of_nat (String.length body)
                 | None => -1
                 end))
    | FileWriteContents path body _ _ =>
        (mkWorld (<[path := body]> (files w)) (cur_threads w), inr tt)
    | FileWriteFetched path h _ _ =>
        (mkWorld (<[path := "blob " +:+ h]> (files w)) (cur_threads w), inr tt)
    | FileMakeDirs _ => (w, inr tt)
    | FileCopy from to =>
        match files w !! from with
        | Some body =>
            (mkWorld (<[to := body]> (files w)) (cur_threads w), inr tt)
        | None => (w, inl (read_error from))
        end
    | FileMakeExecutable _ => (w, inr tt)
    | FileHash path =>
        match files w !! path with
        | Some body => (w, inr (digest body))
        | None => (w, inl (read_error path))
        end
    | FileRemoveTree path =>
        (mkWorld (filter (fun kv => String.prefix path kv.1 = false) (files w))
           (cur_threads w), inr tt)
    | OsTempDir base => (w, inr (File.JoinPath base "XXXXXX"))
    | Errno => (w, inr 0)
    | WriteCommandFile path text =>
        (mkWorld (<[path := text]> (files w)) (cur_threads w), inr tt)
    | SandboxCreate => (w, inr tt)
    | SandboxPrepareForExecution _ => (w, inr (true, ""))
    | SandboxExecute options =>
        let '(fs, outcome) := prog options (files w) in
        (mkWorld fs (cur_threads w), inr outcome)
    | ThreadGuardAcquire e =>
        match ThreadGuard.ctor max_threads (cur_threads w) e with
        | inr n => (mkWorld (files w) n, inr tt)
        | inl exc => (w, inl exc)
        end
    | ThreadGuardRelease e =>
        (mkWorld (files w) (ThreadGuard.dtor (cur_threads w) e), inr tt)
    end.

(** A program that prints a line, writes nothing else and exits with 0. *)
Definition echo : program :=
  fun options fs =>
    (<[stderr_file options := ""]> (<[stdout_file options := "hello"]> fs),
     (true, mkExecutionInfo 10 5 20 1000 0 0 "", "")).

(** A program that is killed before it writes anything; not even the
    files for its standard streams exist afterwards. *)
Definition silent : program :=
  fun options fs => (fs, (true, mkExecutionInfo 10 5 20 1000 0 9 "killed", "")).

(** The environment in which every call succeeds: no file is in the
    store yet, and the sandboxed program exits with 0. *)
Definition obliging : handler unit :=
  fun c w =>
    (w, inr (match c as c0 return answer c0 with
             | FileSize _ => -1
             | FileHash _ => "00"
             | OsTempDir base => File.JoinPath base "XXXXXX"
             | Errno => 0
             | SandboxPrepareForExecution _ => (true, "")
             | SandboxExecute _ =>
                 (true, mkExecutionInfo 10 5 20 1000 0 0 "", "")
             | _ => tt
             end)).

Definition executor : LocalExecutor.Executor :=
  LocalExecutor.mkExecutor "store" "tmp" "store".

Definition no_limits : LocalExecutor.ResourceLimits :=
  LocalExecutor.mkResourceLimits (Qmake 0 1) (Qmake 0 1) 0 0 0 0 0 0.

(** An empty store, an idle worker. *)
Definition empty_world : world := mkWorld ∅ 0.

(** A request whose only input file is named [a/b] and carries its
    contents inline. *)
Definition illegal_request : LocalExecutor.Request :=
  LocalExecutor.mkRequest "bin" []
    [mkFileInfo "a/b" USER "abcd" false (Some "data")] []
    no_limits 0 false false.

(** A request that runs [bin] and declares the output [result.txt]. *)
Definition output_request : LocalExecutor.Request :=
  LocalExecutor.mkRequest "bin" ["x"]
    [mkFileInfo "bin" USER "abcd" true (Some "#!/bin/sh")]
    [mkFileInfo "result.txt" USER "" false None]
    no_limits 0 false false.

(** A request with a wall limit of one second and no other limit, and the
    report of a run that took ten seconds. *)
Definition wall_limit_request : LocalExecutor.Request :=
  LocalExecutor.mkRequest "bin" [] [] []
    (LocalExecutor.mkResourceLimits (Qmake 0 1) (Qmake 1 1) 0 0 0 0 0 0)
    0 false false.

Definition ten_seconds : ExecutionInfo :=
  mkExecutionInfo 20 10 10000 1000 0 9 "killed".

End Example.

(* ===================================================================== *)
(** ** The kinds of commands *)
(* ===================================================================== *)

(** The callee of a command, without its arguments. *)
Inductive kind : Type :=
| KFileSize | KFileWriteContents | KFileWriteFetched | KFileMakeDirs
| KFileCopy | KFileMakeExecutable | KFileHash | KFileRemoveTree | KOsTempDir
| KErrno | KWriteCommandFile | KSandboxCreate | KSandboxPrepareForExecution
| KSandboxExecute | KThreadGuardAcquire | KThreadGuardRelease.

Definition kind_of (c : Cmd) : kind :=
  match c with
  | FileSize _ => KFileSize
  | FileWriteContents _ _ _ _ => KFileWriteContents
  | FileWriteFetched _ _ _ _ => KFileWriteFetched
  | FileMakeDirs _ => KFileMakeDirs
  | FileCopy _ _ => KFileCopy
  | FileMakeExecutable _ => KFileMakeExecutable
  | FileHash _ => KFileHash
  | FileRemoveTree _ => KFileRemoveTree
  | OsTempDir _ => KOsTempDir
  | Errno => KErrno
  | WriteCommandFile _ _ => KWriteCommandFile
  | SandboxCreate => KSandboxCreate
  | SandboxPrepareForExecution _ => KSandboxPrepareForExecution
  | SandboxExecute _ => KSandboxExecute
  | ThreadGuardAcquire _ => KThreadGuardAcquire
  | ThreadGuardRelease _ => KThreadGuardRelease
  end.

Definition kind_eqb (a b : kind) : bool :=
  match a, b with
  | KFileSize, KFileSize | KFileWriteContents, KFileWriteContents
  | KFileWriteFetched, KFileWriteFetched | KFileMakeDirs, KFileMakeDirs
  | KFileCopy, KFileCopy | KFileMakeExecutable, KFileMakeExecutable
  | KFileHash, KFileHash | KFileRemoveTree, KFileRemoveTree
  | KOsTempDir, KOsTempDir | KErrno, KErrno
  | KWriteCommandFile, KWriteCommandFile | KSandboxCreate, KSandboxCreate
  | KSandboxPrepareForExecution, KSandboxPrepareForExecution
  | KSandboxExecute, KSandboxExecute
  | KThreadGuardAcquire, KThreadGuardAcquire
  | KThreadGuardRelease, KThreadGuardRelease => true
  | _, _ => false
  end.

(** The command is of one of the kinds [ks]. *)
Definition of_kinds (ks : list kind) (c : Cmd) : bool :=
  existsb (kind_eqb (kind_of c)) ks.

(** The events of a trace whose command is of one of the kinds [ks]. *)
Definition view (ks : list kind) (tr : list event) : list event :=
  List.filter (fun ev => of_kinds ks (ev_cmd ev)) tr.

(* ===================================================================== *)
(** ** What an event shows *)
(* ===================================================================== *)

(** The path an event of [OsTempDir] returned. *)
Definition created_directory (ev : event) : option string :=
  match ev_cmd ev as c return exn + answer c -> option string with
  | OsTempDir _ => fun r => match r with inr t => Some t | inl _ => None end
  | _ => fun _ => None
  end (ev_outcome ev).

(** The exception an event of [ThreadGuardAcquire] ended with, and the
    outcome of an event of [SandboxExecute]. *)
Definition refused_with (ev : event) : option exn :=
  match ev_cmd ev as c return exn + answer c -> option exn with
  | ThreadGuardAcquire _ =>
      fun r => match r with inl x => Some x | inr _ => None end
  | _ => fun _ => None
  end (ev_outcome ev).

Definition sandbox_outcome (ev : event)
  : option (exn + bool * ExecutionInfo * string) :=
  match ev_cmd ev as c
        return exn + answer c -> option (exn + bool * ExecutionInfo * string)
  with
  | SandboxExecute _ => fun r => Some r
  | _ => fun _ => None
  end (ev_outcome ev).

(** The path and the outcome of an event of [PrepareForExecution]. *)
Definition prepared (ev : event) : option (string * (exn + bool * string)) :=
  match ev_cmd ev as c
        return exn + answer c -> option (string * (exn + bool * string))
  with
  | SandboxPrepareForExecution path => fun r => Some (path, r)
  | _ => fun _ => None
  end (ev_outcome ev).

(** The options an event of [Sandbox::Execute] was called with. *)
Definition executed_with (ev : event) : option ExecutionOptions :=
  match ev_cmd ev with
  | SandboxExecute options => Some options
  | _ => None
  end.

(* ===================================================================== *)
(** ** The phases of a run of Execute *)
(* ===================================================================== *)

(** The phases of a run of [Execute]: the commands before the admission
    token is taken, and those after it is released. *)
Definition before_kinds : list kind :=
  [KFileSize; KFileWriteContents; KFileWriteFetched; KFileMakeDirs;
   KOsTempDir; KErrno; KWriteCommandFile; KFileCopy; KFileMakeExecutable;
   KSandboxCreate; KSandboxPrepareForExecution].

Definition after_kinds : list kind := [KFileHash; KFileCopy; KFileRemoveTree].

Definition guard_kinds : list kind :=
  [KThreadGuardAcquire; KSandboxExecute; KThreadGuardRelease].

(** What the guarded block of [Execute] contributes to a run, with what it
    implies for the result [res] and for the commands [after] it: nothing,
    when the run fails before the block; a refused token; or the token, the
    sandbox's run and the release.  Unless the sandbox ran and reported
    success, the run ends in an error and nothing but the removal of the
    temporary directory follows. *)
Definition guarded_shape {A : Type} (exclusive_ : bool)
    (guarded : list event) (res : exn + A) (after : list event) : Prop :=
  let only_removal :=
    Forall (fun ev => of_kinds [KFileRemoveTree] (ev_cmd ev) = true) after in
  (guarded = [] /\ (exists e, res = inl e) /\ only_removal)
  \/ (exists x,
        guarded = [Ev (ThreadGuardAcquire exclusive_) (inl x)]
        /\ (res = inl x \/ res = inl std_terminate) /\ only_removal)
  \/ (exists options r rr,
        guarded = [Ev (ThreadGuardAcquire exclusive_) (inr tt);
                   Ev (SandboxExecute options) r;
                   Ev (ThreadGuardRelease exclusive_) rr]
        /\ match rr, r with
           | inl _, _ => res = inl std_terminate /\ only_removal
           | inr _, inl x =>
               (res = inl x \/ res = inl std_terminate) /\ only_removal
           | inr _, inr (false, _, msg) =>
               (res = inl (runtime_error msg) \/ res = inl std_terminate)
               /\ only_removal
           | inr _, inr (true, _, _) => True
           end).

(** A run in three phases. *)
Definition phased {A : Type} (exclusive_ : bool) (tr : list event)
    (res : exn + A) : Prop :=
  exists before guarded after,
    tr = before ++ guarded ++ after
    /\ Forall (fun ev => of_kinds before_kinds (ev_cmd ev) = true) before
    /\ Forall (fun ev => of_kinds after_kinds (ev_cmd ev) = true) after
    /\ guarded_shape exclusive_ guarded res after.

(* ===================================================================== *)
(** ** Requests and their files *)
(* ===================================================================== *)

(** Some input file of the request has the name of its executable. *)
Definition names_executable {num : Numerics} (request : LocalExecutor.Request)
  : bool :=
  existsb (fun i => String.eqb (name i) (LocalExecutor.req_executable request))
    (LocalExecutor.input request).

(** Some input file of the request is the standard input. *)
Definition has_stdin {num : Numerics} (request : LocalExecutor.Request)
  : bool :=
  existsb (fun i => FileType_eqb (type i) STDIN) (LocalExecutor.input request).

(** Where [PrepareFile] stages an input file under the temporary
    directory: the standard input as [stdin], any other file under its name
    in the sandbox directory. *)
Definition target_of (tmp : string) (input : FileInfo) : string :=
  File.JoinPath tmp
    (if FileType_eqb (type input) STDIN then "stdin"
     else File.JoinPath LocalExecutor.kBoxDir (name input)).

(** The commands by which [PrepareFile] stages an input file: the copy of
    its blob from the store, and the change of mode for an executable
    file. *)
Definition staging_of {num : Numerics} (self : LocalExecutor.Executor)
    (tmp : string) (input : FileInfo) : list Cmd :=
  FileCopy
    (LocalExecutor.ProtoSHAToPath self (LocalExecutor.store_directory_ self)
       (hash input))
    (target_of tmp input)
  :: (if executable input then [FileMakeExecutable (target_of tmp input)]
      else []).

(** The event of writing [command.txt], in a sandbox that is kept. *)
Definition command_file {num : Numerics} (request : LocalExecutor.Request)
    (tmp : string) : list event :=
  if LocalExecutor.keep_sandbox request
  then [Ev (WriteCommandFile (File.JoinPath tmp "command.txt")
              (LocalExecutor.cmdline_of request +:+ String "010"%char ""))
          (inr tt)]
  else [].

(** The event of removing the temporary directory, unless it is kept. *)
Definition removal {num : Numerics} (request : LocalExecutor.Request)
    (tmp : string) : list event :=
  if LocalExecutor.keep_sandbox request then []
  else [Ev (FileRemoveTree tmp) (inr tt)].

(** No release of an admission token threw. *)
Definition releases_cleanly (tr : list event) : Prop :=
  Forall (fun ev => kind_of (ev_cmd ev) = KThreadGuardRelease ->
                    threw ev = false) tr.

(** How a run ends that takes the admission token [exclusive_]: either
    the release of the token threw, which ended the process with that
    command, or no release threw. *)
Definition ends_at_release (exclusive_ : bool) (tr : list event)
    (terminated_ : bool) : Prop :=
  if terminated_ then
    exists tr0 x,
      tr = tr0 ++ [Ev (ThreadGuardRelease exclusive_) (inl x)]
      /\ releases_cleanly tr0
  else releases_cleanly tr.

(** The events by which [Execute] prepares the executable in the
    temporary directory [tmp]: none unless an input has the name of the
    executable, and else the successful call of [PrepareForExecution] for
    that name, joined to the sandbox directory. *)
Definition preparation {num : Numerics} (request : LocalExecutor.Request)
    (tmp : string) (prep : list event) : Prop :=
  if names_executable request then
    exists msg,
      prep = [Ev (SandboxPrepareForExecution
                    (File.JoinPath (File.JoinPath tmp LocalExecutor.kBoxDir)
                       (LocalExecutor.req_executable request)))
                (inr (true, msg))]
  else prep = [].

(** The events of a run of [Execute] in front of [Sandbox::Execute], all
    of them successful: the materialisation of the inputs in [chunks], the
    creation of the temporary directory [tmp], the command file, the
    sandbox directory, the staging of the inputs in [staged], the creation
    of the sandbox, the preparation of the executable in [prep], and the
    acquisition of the admission token. *)
Definition before_sandbox {num : Numerics} (self : LocalExecutor.Executor)
    (request : LocalExecutor.Request) (chunks : list (list event))
    (tmp : string) (staged prep : list event) : list event :=
  concat chunks
  ++ [Ev (FileMakeDirs (LocalExecutor.temp_directory_ self)) (inr tt);
      Ev (OsTempDir (LocalExecutor.temp_directory_ self)) (inr tmp)]
  ++ command_file request tmp
  ++ [Ev (FileMakeDirs (File.JoinPath tmp LocalExecutor.kBoxDir)) (inr tt)]
  ++ staged
  ++ [Ev SandboxCreate (inr tt)] ++ prep
  ++ [Ev (ThreadGuardAcquire (LocalExecutor.exclusive request)) (inr tt)].

(** A path that [File::JoinPath] puts under its first argument: it is not
    empty and does not start with a separator. *)
Definition relative_path (path : string) : Prop :=
  match path with
  | EmptyString => False
  | String c _ => File.is_separator c = false
  end.

(** The write [MaybeRequestFile] issues for an input whose blob is not in
    the store: of its inline contents, or else of what the callback
    delivers for its digest. *)
Definition fetch_of {num : Numerics} (self : LocalExecutor.Executor)
    (input : FileInfo) : Cmd :=
  let path :=
    LocalExecutor.ProtoSHAToPath self (LocalExecutor.store_directory_ self)
      (hash input) in
  match contents input with
  | Some c => FileWriteContents path c false false
  | None => FileWriteFetched path (hash input) false false
  end.

(** The commands of one call of [MaybeRequestFile]: the size query, alone
    when it throws or finds the blob, followed by the write when the blob
    is absent. *)
Definition chunk_of {num : Numerics} (self : LocalExecutor.Executor)
    (input : FileInfo) (chunk : list event) : Prop :=
  let path :=
    LocalExecutor.ProtoSHAToPath self (LocalExecutor.store_directory_ self)
      (hash input) in
  (exists r, chunk = [Ev (FileSize path) r]
             /\ match r with inr size => 0 <= size | inl _ => True end)
  \/ (exists size r, size < 0
        /\ chunk = [Ev (FileSize path) (inr size); Ev (fetch_of self input) r]).

(** The file of the temporary directory that [RetrieveFile] reads for an
    output: [stdout], [stderr], or the declared name in the sandbox
    directory. *)
Definition source_of (tmp : string) (output : FileInfo) : string :=
  File.JoinPath tmp
    (if FileType_eqb (type output) STDOUT then "stdout"
     else if FileType_eqb (type output) STDERR then "stderr"
     else File.JoinPath LocalExecutor.kBoxDir (name output)).

(** Where [RetrieveFile] puts a file with the digest [digest]. *)
Definition stored_at (self : LocalExecutor.Executor) (digest : File.SHA256_t)
  : string :=
  File.SHAToPath (LocalExecutor.flags_store_directory self)
    (LocalExecutor.store_directory_ self) digest.

(** The events of a [RetrieveFile] that succeeds: the file of the output
    is hashed, and copied into the store under its digest. *)
Definition extraction (self : LocalExecutor.Executor) (tmp : string)
    (output : FileInfo) (digest : File.SHA256_t) : list event :=
  [Ev (FileHash (source_of tmp output)) (inr digest);
   Ev (FileCopy (source_of tmp output) (stored_at self digest)) (inr tt)].

(** The events of a [RetrieveFile] that finds no file: [File::Hash], or
    else [File::Copy], threw a not-found error. *)
Definition missing (self : LocalExecutor.Executor) (tmp : string)
    (output : FileInfo) (tr : list event) : Prop :=
  (exists e, is_not_found e = true
             /\ tr = [Ev (FileHash (source_of tmp output)) (inl e)])
  \/ (exists digest e,
        is_not_found e = true
        /\ tr = [Ev (FileHash (source_of tmp output)) (inr digest);
                 Ev (FileCopy (source_of tmp output) (stored_at self digest))
                   (inl e)]).

(** The events [tr] of the loop over the declared outputs [outs] when it
    completes, with the descriptions [found] it adds to the response: each
    output in turn is either extracted, and described with its digest, or
    missing, and left out. *)
Fixpoint retrieved (self : LocalExecutor.Executor) (tmp : string)
    (outs : list FileInfo) (tr : list event) (found : list FileInfo) : Prop :=
  match outs with
  | [] => tr = [] /\ found = []
  | output :: outs' =>
      (exists digest tr' found',
          tr = extraction self tmp output digest ++ tr'
          /\ found = LocalExecutor.SetSHA digest output :: found'
          /\ retrieved self tmp outs' tr' found')
      \/ (exists miss tr',
            missing self tmp output miss /\ tr = miss ++ tr'
            /\ retrieved self tmp outs' tr' found)
  end.

(** Every [File::Hash] of the trace is of the file of one of the outputs
    [outs], and every [File::Copy] of the trace copies the file that the
    command before it hashed, to the store path of the digest that was
    computed. *)
Definition extraction_only (self : LocalExecutor.Executor) (tmp : string)
    (outs : list FileInfo) (tr : list event) : Prop :=
  forall tr1 ev tr2,
    tr = tr1 ++ ev :: tr2 ->
    match ev_cmd ev with
    | FileHash path =>
        exists output, In output outs /\ path = source_of tmp output
    | FileCopy from to =>
        exists tr0 digest,
          tr1 = tr0 ++ [Ev (FileHash from) (inr digest)]
          /\ to = stored_at self digest
    | _ => True
    end.

(** A declared output file that [RetrieveFile] rejects: it is not one of
    the standard streams and its name holds [/] or NUL. *)
Definition illegal_output (f : FileInfo) : Prop :=
  type f <> STDOUT /\ type f <> STDERR
  /\ LocalExecutor.has_illegal_char (name f) = true.

(** The request with other declared outputs. *)
Definition with_outputs {num : Numerics} (request : LocalExecutor.Request)
    (outs : list FileInfo) : LocalExecutor.Request :=
  LocalExecutor.mkRequest (LocalExecutor.req_executable request)
    (LocalExecutor.arg request) (LocalExecutor.input request) outs
    (LocalExecutor.resource_limit request) (LocalExecutor.fifo_size request)
    (LocalExecutor.exclusive request) (LocalExecutor.keep_sandbox request).

(** The result of a run that fails with [x] where another returns. *)
Definition fails_where_returns {A : Type} (x : exn) (res : exn + A)
  : exn + A :=
  match res with
  | inl e => inl e
  | inr _ => inl x
  end.

(* ===================================================================== *)
(** ** manager::EventQueue: the writer loops *)
(* ===================================================================== *)

Module EventQueueWriter.

Section Writer.

Context {Event : Type}.

(** Where the thread that runs [BindWriter] or [BindWriterUnlocked] is:
    in [Dequeue], the loop's condition; in the loop's body with the event
    it dequeued; or after the loop. *)
Inductive pc : Type :=
| AtDequeue
| AtWrite (event : Event)
| Returned.

(** The queue, the writer thread, whether another thread holds the mutex
    that [BindWriter] is given, and what [writer->Write] has received. *)
Record system : Type := mkSystem {
  queue : EventQueue.state Event;
  writer : pc;
  mutex_held : bool;
  written : list Event
}.

Definition start : system := mkSystem EventQueue.initial AtDequeue false [].

(** One step of the writer thread.  [Dequeue] is atomic under the queue's
    mutex and waits while its condition is false; the body takes the
    writer's mutex ([BindWriter], [with_mutex]) or not
    ([BindWriterUnlocked]), hands the event to [writer->Write], whose
    result is ignored, and goes back to [Dequeue]. *)
Definition BindWriter_step (with_mutex : bool) (s : system) : system :=
  match writer s with
  | AtDequeue =>
      match EventQueue.Dequeue (queue s) with
      | None => s
      | Some (None, q) => mkSystem q Returned (mutex_held s) (written s)
      | Some (Some event, q) =>
          mkSystem q (AtWrite event) (mutex_held s) (written s)
      end
  | AtWrite event =>
      if with_mutex && mutex_held s then s
      else mkSystem (queue s) AtDequeue (mutex_held s) (written s ++ [event])
  | Returned => s
  end.

(** What the threads do, one atomic action at a time: other threads
    enqueue, stop the queue, take and release the writer's mutex; the
    writer thread takes a step. *)
Inductive action : Type :=
| DoEnqueue (event : Event)
| DoStop
| DoLock
| DoUnlock
| DoWriter.

Definition act (with_mutex : bool) (s : system) (a : action) : system :=
  match a with
  | DoEnqueue event =>
      mkSystem (EventQueue.Enqueue event (queue s)) (writer s) (mutex_held s)
        (written s)
  | DoStop =>
      mkSystem (EventQueue.Stop (queue s)) (writer s) (mutex_held s) (written s)
  | DoLock => mkSystem (queue s) (writer s) true (written s)
  | DoUnlock => mkSystem (queue s) (writer s) false (written s)
  | DoWriter => BindWriter_step with_mutex s
  end.

Definition acts (with_mutex : bool) (l : list action) (s : system) : system :=
  fold_left (act with_mutex) l s.

(** The events enqueued by a schedule, in order. *)
Definition enqueued (l : list action) : list Event :=
  omap (fun a => match a with DoEnqueue event => Some event | _ => None end) l.

(** The event the writer holds and has not written yet. *)
Definition pending (s : system) : list Event :=
  match writer s with AtWrite event => [event] | _ => [] end.

(** What holds of the system whatever the threads do: nothing enqueued
    is lost or repeated, and the writer leaves its loop only on a stopped
    queue. *)
Definition writer_inv (all : list Event) (s : system) : Prop :=
  written s ++ pending s ++ EventQueue.queue_ (queue s) = all
  /\ (writer s = Returned -> EventQueue.stopped_ (queue s) = true).

End Writer.

Arguments system : clear implicits.
Arguments action : clear implicits.
Arguments pc : clear implicits.

End EventQueueWriter.

(* ===================================================================== *)
(** ** util::File: directory and base name *)
(* ===================================================================== *)

Module FilePath.

(** [path.find_last_of(kPathSeparators)]: the index of the last [/], or
    [None] for [npos]. *)
Fixpoint find_last_of (path : string) : option nat :=
  match path with
  | EmptyString => None
  | String c rest =>
      match find_last_of rest with
      | Some i => Some (S i)
      | None => if Ascii.eqb c "/"%char then Some O else None
      end
  end.

(** [File::BaseDir]: [substr(0, npos)] is the whole string. *)
Definition BaseDir (path : string) : string :=
  match find_last_of path with
  | Some i => substring 0 i path
  | None => path
  end.

(** [File::BaseName]: [npos + 1] wraps around to 0, and [substr(0)] is the
    whole string. *)
Definition BaseName (path : string) : string :=
  match find_last_of path with
  | Some i => substring (S i) (String.length path - S i) path
  | None => path
  end.

(** A digest in hex: at least four characters, none of them [/] or NUL. *)
Definition digest_like (h : string) : Prop :=
  (4 <= String.length h)%nat /\ LocalExecutor.has_illegal_char h = false.

End FilePath.

(* ===================================================================== *)
(** ** util::File over the calls of the operating system *)
(* ===================================================================== *)

Module Os.

Definition EEXIST : Z := 17.

Definition EINTR : Z := 4.

(** The calls that [File::MakeDirs], [File::Copy], [File::Move],
    [File::Remove] and the producer of [OsRead] come down to.
    [File::HardCopy] streams the contents through [File::Read] and
    [File::Write]; it is a call here. *)
Inductive Sys : Type :=
| mkdir (path : string)
| remove (path : string)
| rename (src dst : string)
| link (src dst : string)
| lstat (path : string)
| read (fd : Z)
| close (fd : Z)
| HardCopy (from to : string) (overwrite exist_ok make_dirs : bool).

(** What a call comes back with: a system call returns -1 and sets
    [errno] ([inl], with the value of [errno]) or succeeds, [lstat] with
    [S_ISLNK(buf.st_mode)], [read] with the bytes read, none at the end of
    the file; [HardCopy] throws or returns. *)
Definition outcome (c : Sys) : Type :=
  match c with
  | lstat _ => (Z + bool)%type
  | read _ => (Z + string)%type
  | HardCopy _ _ _ _ _ => (exn + unit)%type
  | _ => (Z + unit)%type
  end.

(** [errno] after a call: set by a system call that failed. *)
Definition errno_after (c : Sys) : outcome c -> Z -> Z :=
  match c as c0 return outcome c0 -> Z -> Z with
  | HardCopy _ _ _ _ _ => fun _ errno => errno
  | lstat _ => fun r errno => match r with inl e => e | inr _ => errno end
  | read _ => fun r errno => match r with inl e => e | inr _ => errno end
  | mkdir _ | remove _ | rename _ _ | link _ _ | close _ =>
      fun r errno => match r with inl e => e | inr _ => errno end
  end.

(** Programs over these calls; [Errno] reads [errno]. *)
Inductive prog (A : Type) : Type :=
| Ret (a : A)
| Throw (e : exn)
| Do (c : Sys) (k : outcome c -> prog A)
| Errno (k : Z -> prog A).

Arguments Ret {A} a.
Arguments Throw {A} e.
Arguments Do {A} c k.
Arguments Errno {A} k.

Fixpoint bind {A B : Type} (p : prog A) (f : A -> prog B) : prog B :=
  match p with
  | Ret a => f a
  | Throw e => Throw e
  | Do c k => Do c (fun r => bind (k r) f)
  | Errno k => Errno (fun e => bind (k e) f)
  end.

Declare Scope os_scope.
Delimit Scope os_scope with os.

Notation "'let*' x ':=' p 'in' q" := (bind p (fun x => q)) : os_scope.
Notation "p ';;' q" := (bind p (fun _ => q)) : os_scope.

Local Open Scope os_scope.

Definition sys (c : Sys) : prog (outcome c) := Do c Ret.
Definition errno : prog Z := Errno Ret.

(** One call of a run, with what it came back with. *)
Record event : Type := Ev { ev_cmd : Sys; ev_outcome : outcome ev_cmd }.

(** The operating system: answers each call from its state. *)
Definition handler (W : Type) : Type :=
  forall c : Sys, W -> W * outcome c.

(** The run of a program from a state of the system and a value of
    [errno]: the calls, the final state and [errno], and the exception
    raised or the value returned. *)
Fixpoint run {W A : Type} (h : handler W) (p : prog A) (w : W) (e : Z)
  : list event * (W * Z) * (exn + A) :=
  match p with
  | Ret a => ([], (w, e), inr a)
  | Throw x => ([], (w, e), inl x)
  | Do c k =>
      let '(w1, r) := h c w in
      let '(tr, s, res) := run h (k r) w1 (errno_after c r e) in
      (Ev c r :: tr, s, res)
  | Errno k => run h (k e) w e
  end.

(** A system call returned -1. *)
Definition failed {A : Type} (r : Z + A) : bool :=
  match r with inl _ => true | inr _ => false end.

(** [MkDir]. *)
Definition MkDir (dir : string) : prog bool :=
  let* r := sys (mkdir dir) in
  if negb (failed r) then Ret true
  else let* e := errno in Ret (e =? EEXIST).

(** [OsRemove]. *)
Definition OsRemove (path : string) : prog bool :=
  let* r := sys (remove path) in Ret (negb (failed r)).

(** [OsAtomicMove]: [errno], or 0 on success. *)
Definition OsAtomicMove (src dst : string) (overwrite exist_ok : bool)
  : prog Z :=
  if overwrite then
    let* r := sys (rename src dst) in
    if failed r then errno else Ret 0
  else
    let* r := sys (link src dst) in
    if failed r then
      let* differs :=
        (if negb exist_ok then Ret true
         else let* e := errno in Ret (negb (e =? EEXIST))) in
      if differs : bool then errno else Ret 0
    else
      let* r := sys (remove src) in
      if failed r then
        let* e := errno in
        if negb (e =? ENOENT) then errno else Ret 0
      else Ret 0.

(** [OsIsLink]. *)
Definition OsIsLink (path : string) : prog bool :=
  let* r := sys (lstat path) in
  match r with
  | inl _ => Ret false
  | inr is_link => Ret is_link
  end.

(** [OsAtomicCopy]: [errno], or 0 on success. *)
Definition OsAtomicCopy (src dst : string) (overwrite exist_ok : bool)
  : prog Z :=
  let* r := sys (link src dst) in
  if failed r then
    let* e := errno in
    if negb (e =? EEXIST) then errno
    else if exist_ok then Ret 0
    else if negb overwrite then errno
    else
      let* removed := OsRemove dst in
      if negb removed then errno
      else
        let* r := sys (link src dst) in
        if failed r then errno else Ret 0
  else Ret 0.

(** [path.find_first_of(kPathSeparators, pos)]: the index of the first
    [/] at or after [pos], or [None] for [npos]. *)
Fixpoint find_first_of (path : string) (pos : nat) : option nat :=
  match path with
  | EmptyString => None
  | String c rest =>
      match pos with
      | O =>
          if Ascii.eqb c "/"%char then Some O
          else option_map S (find_first_of rest O)
      | S pos' => option_map S (find_first_of rest pos')
      end
  end.

(** [path.substr(0, pos)]. *)
Definition substr0 (path : string) (pos : option nat) : string :=
  match pos with
  | Some n => substring 0 n path
  | None => path
  end.

(** The loop of [File::MakeDirs], from the value [pos] of its variable;
    [None] is [npos].  Every round moves [pos] forward, so the length of
    the path and one more bound the rounds: [fuel] counts them, and the
    loop that runs out of it raises an exception the code does not
    have. *)
Fixpoint MakeDirs_loop (fuel : nat) (path : string) (pos : nat) : prog unit :=
  match fuel with
  | O => Throw (logic_error "MakeDirs_loop: fuel")
  | S fuel' =>
      let pos' := find_first_of path (pos + 1) in
      let* made := MkDir (substr0 path pos') in
      if negb made then
        let* e := errno in Throw (system_error e "mkdir")
      else
        match pos' with
        | Some p => MakeDirs_loop fuel' path p
        | None => Ret tt
        end
  end.

(** [File::MakeDirs]. *)
Definition MakeDirs (path : string) : prog unit :=
  MakeDirs_loop (S (String.length path)) path 0.

(** [File::Remove]. *)
Definition Remove (path : string) : prog unit :=
  let* removed := OsRemove path in
  if negb removed then
    let* e := errno in Throw (system_error e "remove")
  else Ret tt.

(** The call of [File::HardCopy]. *)
Definition HardCopy_call (from to : string)
    (overwrite exist_ok make_dirs : bool) : prog unit :=
  let* r := sys (HardCopy from to overwrite exist_ok make_dirs) in
  match r with
  | inl x => Throw x
  | inr _ => Ret tt
  end.

(** [File::Copy]. *)
Definition Copy (from to : string) (overwrite exist_ok : bool) : prog unit :=
  MakeDirs (FilePath.BaseDir to) ;;
  let* hard :=
    (let* is_link := OsIsLink from in
     if is_link : bool then Ret true
     else
       let* rc := OsAtomicCopy from to overwrite exist_ok in
       Ret (negb (rc =? 0))) in
  if hard : bool then HardCopy_call from to overwrite exist_ok false
  else Ret tt.

(** [File::Move]. *)
Definition Move (from to : string) (overwrite exist_ok : bool) : prog unit :=
  let* again :=
    (let* is_link := OsIsLink from in
     if is_link : bool then Ret true
     else
       let* rc := OsAtomicMove from to overwrite exist_ok in
       Ret (rc =? 0)) in
  if again : bool then
    Copy from to overwrite exist_ok ;;
    Remove from
  else Ret tt.

(** The directories [File::MakeDirs] is to make for [rest] behind the
    prefix [acc]: at every [/] that is not the first character of the
    path, what comes before it; at the end, the path. *)
Fixpoint dirs_from (acc rest : string) : list string :=
  match rest with
  | EmptyString => [acc]
  | String c rest' =>
      (if Ascii.eqb c "/"%char && negb (String.eqb acc "") then [acc] else [])
      ++ dirs_from (acc +:+ String c "") rest'
  end.

Definition dirs (path : string) : list string := dirs_from "" path.

(** [mkdir] of each of [ds], in order, up to the first that fails
    otherwise than by [EEXIST], with the exception of [File::MakeDirs]. *)
Fixpoint mkdirs (ds : list string) : prog unit :=
  match ds with
  | [] => Ret tt
  | d :: ds' =>
      let* made := MkDir d in
      if negb made then
        let* e := errno in Throw (system_error e "mkdir")
      else mkdirs ds'
  end.

Definition trace_of {W A : Type} (x : list event * (W * Z) * (exn + A))
  : list event := fst (fst x).
Definition result_of {W A : Type} (x : list event * (W * Z) * (exn + A))
  : exn + A := snd x.

(** The value of [errno] with which the system call of an event failed. *)
Definition failure (ev : event) : option Z :=
  match ev_cmd ev as c return outcome c -> option Z with
  | HardCopy _ _ _ _ _ => fun _ => None
  | lstat _ => fun r => match r with inl e => Some e | inr _ => None end
  | read _ => fun r => match r with inl e => Some e | inr _ => None end
  | mkdir _ | remove _ | rename _ _ | link _ _ | close _ =>
      fun r => match r with inl e => Some e | inr _ => None end
  end (ev_outcome ev).

(** The directory exists after the [mkdir] of the event. *)
Definition made (ev : event) : Prop :=
  failure ev = None \/ failure ev = Some EEXIST.

(** The loop of the producer of [OsRead]: [None] when it is left by
    [break], [read] having failed otherwise than by [EINTR]; else the bytes
    read, none at the end of the file.  A [read] that is interrupted is
    repeated; [fuel] bounds the repetitions, and the loop that runs out of
    it raises an exception the code does not have. *)
Fixpoint read_loop (fuel : nat) (fd : Z) : prog (option string) :=
  match fuel with
  | O => Throw (logic_error "read_loop: fuel")
  | S fuel' =>
      let* r := sys (read fd) in
      match r with
      | inl _ =>
          let* e := errno in
          if e =? EINTR then read_loop fuel' fd else Ret None
      | inr data => Ret (Some data)
      end
  end.

(** One call of the producer [OsRead] returns, for the value [fd] of its
    captured descriptor: the new value of the descriptor, and the
    exception thrown or the chunk returned.  The exception is a value
    here, beside the descriptor the closure keeps; the system calls of the
    [try] block throw nothing. *)
Definition producer (fuel : nat) (path : string) (fd : Z)
  : prog (Z * (exn + string)) :=
  if fd =? -1 then Ret (fd, inr "")
  else
    let* amount := read_loop fuel fd in
    match amount with
    | None =>
        let fd' := -1 in
        let* error := errno in
        sys (close fd') ;;
        Ret (fd', inl (system_error error ("Read " +:+ path)))
    | Some "" =>
        let* r := sys (close fd) in
        if failed r then
          let* e := errno in
          Ret (-1, inl (system_error e ("Read " +:+ path)))
        else Ret (-1, inr "")
    | Some data => Ret (fd, inr data)
    end.

(** The descriptor an event closes. *)
Definition closes (ev : event) : option Z :=
  match ev_cmd ev with
  | close fd => Some fd
  | _ => None
  end.

(** The event is a [read] that was interrupted. *)
Definition interrupted (ev : event) : bool :=
  match ev_cmd ev with
  | read _ =>
      match failure ev with
      | Some e => e =? EINTR
      | None => false
      end
  | _ => false
  end.

(** Every call of the program satisfies [P]. *)
Fixpoint issues_only (P : Sys -> bool) {A : Type} (p : prog A) : Prop :=
  match p with
  | Ret _ | Throw _ => True
  | Do c k => P c = true /\ forall r, issues_only P (k r)
  | Errno k => forall e, issues_only P (k e)
  end.

Definition is_mkdir (c : Sys) : bool :=
  match c with mkdir _ => true | _ => false end.

Definition is_rename (c : Sys) : bool :=
  match c with rename _ _ => true | _ => false end.

Definition is_HardCopy (c : Sys) : bool :=
  match c with HardCopy _ _ _ _ _ => true | _ => false end.

(** The calls of [File::Copy] after the directories are made. *)
Definition copies (from to : string) (overwrite exist_ok : bool) (c : Sys)
  : bool :=
  match c with
  | lstat path => String.eqb path from
  | link src dst => String.eqb src from && String.eqb dst to
  | remove path => String.eqb path to && overwrite && negb exist_ok
  | HardCopy f t o e m =>
      String.eqb f from && String.eqb t to && Bool.eqb o overwrite
      && Bool.eqb e exist_ok && negb m
  | _ => false
  end.

End Os.

(* ===================================================================== *)
(** ** A run that produces its output *)
(* ===================================================================== *)

Module Scenario.

(** A program that prints a line, writes the declared output
    [result.txt] into its working directory and exits with 0. *)
Definition producing : Example.program :=
  fun options fs =>
    (<[File.JoinPath (root options) "result.txt" := "42"]>
       (<[stderr_file options := ""]> (<[stdout_file options := "hello"]> fs)),
     (true, mkExecutionInfo 10 5 20 1000 0 0 "", "")).

(** The options of the sandbox in the fourth scenario. *)
Definition echo_options : ExecutionOptions :=
  mkExecutionOptions "tmp/XXXXXX/box" "bin" ["x"] "" "tmp/XXXXXX/stdout"
    "tmp/XXXXXX/stderr" 0 0 0 0 0 0 0 0.

(** A request that runs [bin] and declares an output in a subdirectory. *)
Definition illegal_output_request : LocalExecutor.Request :=
  LocalExecutor.mkRequest "bin" ["x"]
    [mkFileInfo "bin" USER "abcd" true (Some "#!/bin/sh")]
    [mkFileInfo "out/result.txt" USER "" false None]
    Example.no_limits 0 false false.

(** A disk that cannot be read: every [read] fails with [EIO]; the other
    calls succeed. *)
Definition broken_disk : Os.handler unit :=
  fun c w =>
    (w, match c as c0 return Os.outcome c0 with
        | Os.read _ => inl 5
        | Os.lstat _ => inr false
        | Os.HardCopy _ _ _ _ _ => inr tt
        | Os.mkdir _ | Os.remove _ | Os.rename _ _ | Os.link _ _
        | Os.close _ => inr tt
        end).

(** A request whose standard input has the name of the executable. *)
Definition stdin_named_request : LocalExecutor.Request :=
  LocalExecutor.mkRequest "bin" []
    [mkFileInfo "bin" STDIN "abcd" false (Some "#!/bin/sh")] []
    Example.no_limits 0 false false.

(** The environment in which every call succeeds but the release of the
    admission token, whose lock fails. *)
Definition stuck_release : handler unit :=
  fun c w =>
    match c as c0 return unit * (exn + answer c0) with
    | ThreadGuardRelease _ => (w, inl (system_error 22 "mutex lock failed"))
    | c0 => Example.obliging c0 w
    end.

End Scenario.

(* ===================================================================== *)
(** * Theorems *)
(* ===================================================================== *)

(* ===================================================================== *)
(** ** Strings *)
(* ===================================================================== *)

Lemma append_nil (b : string) : "" +:+ b = b.
Proof. reflexivity. Qed.

Lemma append_cons (c : ascii) (a b : string) :
  String c a +:+ b = String c (a +:+ b).
Proof. reflexivity. Qed.

Lemma append_nil_r (s : string) : s +:+ "" = s.
Proof.
  induction s as [|c s IH]; rewrite ?append_nil, ?append_cons;
    [reflexivity|]. now rewrite IH.
Qed.

Lemma append_assoc (a b c : string) : (a +:+ b) +:+ c = a +:+ b +:+ c.
Proof.
  induction a as [|x a IH]; rewrite ?append_nil, ?append_cons;
    [reflexivity|]. now rewrite IH.
Qed.

Lemma append_inj_l (a x y : string) : a +:+ x = a +:+ y -> x = y.
Proof.
  induction a as [|c a IH]; rewrite ?append_nil, ?append_cons; [easy|].
  intros H. injection H as H. now apply IH.
Qed.

Lemma append_eq_nil (a b : string) : a +:+ b = "" -> a = "" /\ b = "".
Proof. destruct a; [now rewrite append_nil|discriminate]. Qed.

(* ===================================================================== *)
(** ** Runs of programs *)
(* ===================================================================== *)

Section RunFacts.

Context {W : Type}.

Variable h : handler W.

Lemma run_bind {A B} (p : Prog A) (f : A -> Prog B) (w : W) :
  run h (bind p f) w =
    let '(tr, w1, r) := run h p w in
    match r with
    | inl e => (tr, w1, inl e)
    | inr a => let '(tr2, w2, r2) := run h (f a) w1 in (tr ++ tr2, w2, r2)
    end.
Proof.
  revert w. induction p as [a|e| |c k IH]; intros w; simpl.
  - now destruct (run h (f a) w) as [[? ?] ?].
  - reflexivity.
  - reflexivity.
  - destruct (h c w) as [w1 r]. rewrite IH.
    destruct (run h (k r) w1) as [[tr w2] [e|a]]; [reflexivity|].
    now destruct (run h (f a) w2) as [[? ?] ?].
Qed.

(** The result of a run that ended the process. *)
Lemma terminated_result {A} (p : Prog A) (w : W) :
  terminated h p w = true -> result_of (run h p w) = inl std_terminate.
Proof.
  revert w. induction p as [a|e| |c k IH]; intros w; simpl;
    try discriminate; [reflexivity|].
  destruct (h c w) as [w1 r]. intros H. specialize (IH r w1 H).
  now destruct (run h (k r) w1) as [[tr w2] res].
Qed.

Lemma not_terminated {A} (p : Prog A) (w : W) :
  result_of (run h p w) <> inl std_terminate -> terminated h p w = false.
Proof.
  intros H. destruct (terminated h p w) eqn:E; [|reflexivity].
  now apply terminated_result in E.
Qed.

Lemma no_destructor_run {A} (p : Prog A) (w : W) :
  no_destructor p -> terminated h p w = false.
Proof.
  revert w. induction p as [a|e| |c k IH]; intros w Hp; simpl in *;
    try reflexivity; [contradiction|].
  destruct (h c w) as [w1 r]. apply IH, Hp.
Qed.

Lemma terminated_bind {A B} (p : Prog A) (f : A -> Prog B) (w : W) :
  terminated h (bind p f) w =
    let '(tr, w1, r) := run h p w in
    match r with
    | inl _ => terminated h p w
    | inr a => terminated h (f a) w1
    end.
Proof.
  revert w. induction p as [a|e| |c k IH]; intros w; simpl;
    try reflexivity.
  destruct (h c w) as [w1 r]. rewrite IH.
  now destruct (run h (k r) w1) as [[tr w2] [e|a]].
Qed.

(** The handler of [try_catch] is asked for the exceptions of [p]; the
    equation is that of a handler that lets [std_terminate] pass. *)
Lemma run_try_catch {A} (p : Prog A) (hd : exn -> Prog A) (w : W) :
  hd std_terminate = Throw std_terminate ->
  run h (try_catch p hd) w =
    let '(tr, w1, r) := run h p w in
    match r with
    | inl e => let '(tr2, w2, r2) := run h (hd e) w1 in (tr ++ tr2, w2, r2)
    | inr a => (tr, w1, inr a)
    end.
Proof.
  intros Hd. revert w. induction p as [a|e| |c k IH]; intros w; simpl.
  - reflexivity.
  - now destruct (run h (hd e) w) as [[? ?] ?].
  - now rewrite Hd.
  - destruct (h c w) as [w1 r]. rewrite IH.
    destruct (run h (k r) w1) as [[tr w2] [e|a]]; [|reflexivity].
    now destruct (run h (hd e) w2) as [[? ?] ?].
Qed.

Lemma run_after_destructor {A} (d : Prog unit) (q : Prog A) (w : W) :
  run h (after_destructor d q) w =
    let '(tr, w1, r) := run h d w in
    match r with
    | inl _ => (tr, w1, inl std_terminate)
    | inr _ => let '(tr2, w2, r2) := run h q w1 in (tr ++ tr2, w2, r2)
    end.
Proof.
  revert w. induction d as [a|e| |c k IH]; intros w; simpl.
  - now destruct (run h q w) as [[? ?] ?].
  - reflexivity.
  - reflexivity.
  - destruct (h c w) as [w1 r]. rewrite IH.
    destruct (run h (k r) w1) as [[tr w2] [e|a]]; [reflexivity|].
    now destruct (run h q w2) as [[? ?] ?].
Qed.

Lemma terminated_after_destructor {A} (d : Prog unit) (q : Prog A) (w : W) :
  terminated h (after_destructor d q) w =
    let '(tr, w1, r) := run h d w in
    match r with
    | inl _ => true
    | inr _ => terminated h q w1
    end.
Proof.
  revert w. induction d as [a|e| |c k IH]; intros w; simpl;
    try reflexivity.
  destruct (h c w) as [w1 r]. rewrite IH.
  now destruct (run h (k r) w1) as [[tr w2] [e|a]].
Qed.

(** The destructor runs unless the process was terminated before. *)
Lemma run_with_destructor {A} (p : Prog A) (d : Prog unit) (w : W) :
  run h (with_destructor p d) w =
    let '(tr, w1, r) := run h p w in
    if terminated h p w then (tr, w1, r)
    else
      let '(tr2, w2, r2) := run h d w1 in
      (tr ++ tr2, w2, match r2 with inl _ => inl std_terminate | inr _ => r end).
Proof.
  revert w. induction p as [a|e| |c k IH]; intros w; simpl.
  - rewrite run_after_destructor.
    destruct (run h d w) as [[tr w1] [e|u]]; simpl; [reflexivity|].
    now rewrite app_nil_r.
  - rewrite run_after_destructor.
    destruct (run h d w) as [[tr w1] [e'|u]]; simpl; [reflexivity|].
    now rewrite app_nil_r.
  - reflexivity.
  - destruct (h c w) as [w1 r]. rewrite IH.
    destruct (run h (k r) w1) as [[tr w2] res].
    destruct (terminated h (k r) w1); [reflexivity|].
    now destruct (run h d w2) as [[? ?] ?].
Qed.

Lemma terminated_with_destructor {A} (p : Prog A) (d : Prog unit) (w : W) :
  terminated h (with_destructor p d) w =
    terminated h p w
    || (let '(tr, w1, r) := run h p w in
        match result_of (run h d w1) with inl _ => true | inr _ => false end).
Proof.
  revert w. induction p as [a|e| |c k IH]; intros w; simpl.
  - rewrite terminated_after_destructor.
    now destruct (run h d w) as [[tr w1] [e|u]].
  - rewrite terminated_after_destructor.
    now destruct (run h d w) as [[tr w1] [e'|u]].
  - reflexivity.
  - destruct (h c w) as [w1 r]. rewrite IH.
    now destruct (run h (k r) w1) as [[tr w2] res].
Qed.

(** A scope whose body did not end the process. *)
Lemma run_with_destructor_unwinds {A} (p : Prog A) (d : Prog unit) (w : W) :
  terminated h p w = false ->
  run h (with_destructor p d) w =
    let '(tr, w1, r) := run h p w in
    let '(tr2, w2, r2) := run h d w1 in
    (tr ++ tr2, w2, match r2 with inl _ => inl std_terminate | inr _ => r end).
Proof.
  intros H. rewrite run_with_destructor, H. reflexivity.
Qed.

Lemma run_call (c : Cmd) (w : W) :
  run h (call c) w =
    (let '(w1, r) := h c w in ([Ev c r], w1, r)).
Proof.
  unfold call. simpl. now destruct (h c w) as [w1 [e|a]].
Qed.

(** Inversion of a run that returns. *)
Lemma run_bind_inr {A B} (p : Prog A) (f : A -> Prog B) (w : W) tr w' b :
  run h (bind p f) w = (tr, w', inr b) ->
  exists tr1 w1 a tr2,
    run h p w = (tr1, w1, inr a) /\ run h (f a) w1 = (tr2, w', inr b)
    /\ tr = tr1 ++ tr2.
Proof.
  rewrite run_bind. destruct (run h p w) as [[tr1 w1] [e|a]]; [discriminate|].
  destruct (run h (f a) w1) as [[tr2 w2] r2] eqn:E. intros H.
  inversion H; subst. exists tr1, w1, a, tr2. now repeat split.
Qed.

Lemma run_with_destructor_inr {A} (p : Prog A) (d : Prog unit) (w : W)
    tr w' a :
  run h (with_destructor p d) w = (tr, w', inr a) ->
  exists tr1 w1 tr2 u,
    run h p w = (tr1, w1, inr a) /\ run h d w1 = (tr2, w', inr u)
    /\ tr = tr1 ++ tr2.
Proof.
  rewrite run_with_destructor.
  pose proof (terminated_result p w) as Ht.
  destruct (run h p w) as [[tr1 w1] r].
  destruct (terminated h p w).
  { cbn in Ht. rewrite Ht by reflexivity. discriminate. }
  destruct (run h d w1) as [[tr2 w2] [e|u]] eqn:E; [discriminate|].
  intros H. inversion H; subst. exists tr1, w1, tr2, u. now repeat split.
Qed.

Lemma never_returns_run {A} (p : Prog A) (w : W) :
  never_returns p -> exists e, result_of (run h p w) = inl e.
Proof.
  revert w. induction p as [a|e| |c k IH]; intros w Hn; simpl in *.
  - contradiction.
  - now exists e.
  - now exists std_terminate.
  - destruct (h c w) as [w1 r]. destruct (IH r w1 (Hn r)) as [e He].
    destruct (run h (k r) w1) as [[tr w2] res]. now exists e.
Qed.

Lemma issues_only_run (P : Cmd -> bool) {A} (p : Prog A) (w : W) :
  issues_only P p ->
  Forall (fun ev => P (ev_cmd ev) = true) (trace_of (run h p w)).
Proof.
  revert w. induction p as [a|e| |c k IH]; intros w Hp; simpl in *.
  - constructor.
  - constructor.
  - constructor.
  - destruct Hp as [Hc Hk]. destruct (h c w) as [w1 r].
    specialize (IH r w1 (Hk r)).
    destruct (run h (k r) w1) as [[tr w2] res]. now constructor.
Qed.

Lemma catches_nothing_run {A} (p : Prog A) (w : W) tr w' a :
  catches_nothing p -> run h p w = (tr, w', inr a) ->
  Forall (fun ev => threw ev = false) tr.
Proof.
  revert w tr. induction p as [a0|e| |c k IH]; intros w tr Hs H; simpl in *.
  - inversion H. constructor.
  - discriminate.
  - discriminate.
  - destruct Hs as [Hl Hr]. destruct (h c w) as [w1 r].
    destruct (run h (k r) w1) as [[tr1 w2] res] eqn:E.
    inversion H; subst. destruct r as [e|x].
    + destruct (never_returns_run (k (inl e)) w1 (Hl e)) as [e' He'].
      rewrite E in He'. discriminate.
    + constructor; [reflexivity|]. eapply IH; [apply Hr|exact E].
Qed.

End RunFacts.

(** *** Closure of the program predicates *)

Lemma never_returns_bind_l {A B} (p : Prog A) (f : A -> Prog B) :
  never_returns p -> never_returns (bind p f).
Proof.
  induction p as [a|e| |c k IH]; simpl; intros H;
    [contradiction|exact I|exact I|].
  intros r. apply IH, H.
Qed.

Lemma never_returns_bind_r {A B} (p : Prog A) (f : A -> Prog B) :
  (forall a, never_returns (f a)) -> never_returns (bind p f).
Proof.
  intros H. induction p as [a|e| |c k IH]; simpl; [apply H|exact I|exact I|].
  intros r. apply IH.
Qed.

Lemma never_returns_after_destructor {A} (d : Prog unit) (q : Prog A) :
  never_returns q -> never_returns (after_destructor d q).
Proof.
  intros H. induction d as [a|e| |c k IH]; simpl; [exact H|exact I|exact I|].
  intros r. apply IH.
Qed.

Lemma never_returns_with_destructor {A} (p : Prog A) (d : Prog unit) :
  never_returns p -> never_returns (with_destructor p d).
Proof.
  induction p as [a|e| |c k IH]; simpl; intros H; [contradiction| |exact I|].
  - now apply never_returns_after_destructor.
  - intros r. apply IH, H.
Qed.

Lemma issues_only_bind (P : Cmd -> bool) {A B} (p : Prog A) (f : A -> Prog B) :
  issues_only P p -> (forall a, issues_only P (f a)) ->
  issues_only P (bind p f).
Proof.
  intros Hp Hf.
  induction p as [a|e| |c k IH]; simpl in *; [apply Hf|exact I|exact I|].
  destruct Hp as [Hc Hk]. split; [exact Hc|]. intros r. apply IH, Hk.
Qed.

(** Behind a program that returns no value nothing is run. *)
Lemma issues_only_bind_never (P : Cmd -> bool) {A B} (p : Prog A)
    (f : A -> Prog B) :
  issues_only P p -> never_returns p -> issues_only P (bind p f).
Proof.
  induction p as [a|e| |c k IH]; simpl; intros Hp Hn;
    [contradiction|exact I|exact I|].
  destruct Hp as [Hc Hk]. split; [exact Hc|]. intros r. apply IH; [apply Hk|apply Hn].
Qed.

Lemma issues_only_after_destructor (P : Cmd -> bool) {A} (d : Prog unit)
    (q : Prog A) :
  issues_only P d -> issues_only P q -> issues_only P (after_destructor d q).
Proof.
  intros Hd Hq.
  induction d as [a|e| |c k IH]; simpl in *; [exact Hq|exact I|exact I|].
  destruct Hd as [Hc Hk]. split; [exact Hc|]. intros r. apply IH, Hk.
Qed.

Lemma issues_only_with_destructor (P : Cmd -> bool) {A} (p : Prog A)
    (d : Prog unit) :
  issues_only P p -> issues_only P d -> issues_only P (with_destructor p d).
Proof.
  intros Hp Hd. induction p as [a|e| |c k IH]; simpl in *.
  - now apply issues_only_after_destructor.
  - now apply issues_only_after_destructor.
  - exact I.
  - destruct Hp as [Hc Hk]. split; [exact Hc|]. intros r. apply IH, Hk.
Qed.

Lemma issues_only_call (P : Cmd -> bool) (c : Cmd) :
  P c = true -> issues_only P (call c).
Proof.
  intros H. simpl. split; [exact H|]. now intros [e|a].
Qed.

Lemma catches_nothing_call (c : Cmd) : catches_nothing (call c).
Proof. simpl. split; intros; exact I. Qed.

Lemma catches_nothing_bind {A B} (p : Prog A) (f : A -> Prog B) :
  catches_nothing p -> (forall a, catches_nothing (f a)) -> catches_nothing (bind p f).
Proof.
  intros Hp Hf.
  induction p as [a|e| |c k IH]; simpl in *; [apply Hf|exact I|exact I|].
  destruct Hp as [Hl Hr]. split.
  - intros e. apply never_returns_bind_l, Hl.
  - intros a. apply IH, Hr.
Qed.

Lemma catches_nothing_after_destructor {A} (d : Prog unit) (q : Prog A) :
  catches_nothing d -> catches_nothing q -> catches_nothing (after_destructor d q).
Proof.
  intros Hd Hq.
  induction d as [a|e| |c k IH]; simpl in *; [exact Hq|exact I|exact I|].
  destruct Hd as [Hl Hr]. split.
  - intros e. clear -Hl. specialize (Hl e). revert Hl.
    generalize (k (inl e)). intros d. induction d as [a|e'| |c' k' IH']; simpl;
      intros H; [contradiction|exact I|exact I|]. intros r. apply IH', H.
  - intros a. apply IH, Hr.
Qed.

Lemma catches_nothing_with_destructor {A} (p : Prog A) (d : Prog unit) :
  catches_nothing p -> catches_nothing d -> catches_nothing (with_destructor p d).
Proof.
  intros Hp Hd. induction p as [a|e| |c k IH]; simpl in *.
  - now apply catches_nothing_after_destructor.
  - now apply catches_nothing_after_destructor.
  - exact I.
  - destruct Hp as [Hl Hr]. split.
    + intros e. apply never_returns_with_destructor, Hl.
    + intros a. apply IH, Hr.
Qed.

Lemma catches_nothing_for_each {A S} (l : list A) (body : S -> A -> Prog S) (s : S) :
  (forall s a, catches_nothing (body s a)) -> catches_nothing (for_each l body s).
Proof.
  intros Hb. revert s. induction l as [|a l IH]; intros s; simpl; [exact I|].
  apply catches_nothing_bind; [apply Hb|]. intros s'. apply IH.
Qed.

Lemma issues_only_for_each (P : Cmd -> bool) {A S} (l : list A)
    (body : S -> A -> Prog S) (s : S) :
  (forall s a, issues_only P (body s a)) -> issues_only P (for_each l body s).
Proof.
  intros Hb. revert s. induction l as [|a l IH]; intros s; simpl; [exact I|].
  apply issues_only_bind; [apply Hb|]. intros s'. apply IH.
Qed.

Lemma no_destructor_bind {A B} (p : Prog A) (f : A -> Prog B) :
  no_destructor p -> (forall a, no_destructor (f a)) ->
  no_destructor (bind p f).
Proof.
  intros Hp Hf.
  induction p as [a|e| |c k IH]; simpl in *; [apply Hf|exact I|contradiction|].
  intros r. apply IH, Hp.
Qed.

Lemma no_destructor_call (c : Cmd) : no_destructor (call c).
Proof. simpl. now intros [e|a]. Qed.

Lemma no_destructor_try_catch {A} (p : Prog A) (hd : exn -> Prog A) :
  no_destructor p -> (forall e, no_destructor (hd e)) ->
  no_destructor (try_catch p hd).
Proof.
  intros Hp Hd.
  induction p as [a|e| |c k IH]; simpl in *; [exact I|apply Hd|contradiction|].
  intros r. apply IH, Hp.
Qed.

Lemma no_destructor_for_each {A S} (l : list A) (body : S -> A -> Prog S)
    (s : S) :
  (forall s a, no_destructor (body s a)) -> no_destructor (for_each l body s).
Proof.
  intros Hb. revert s. induction l as [|a l IH]; intros s; simpl; [exact I|].
  apply no_destructor_bind; [apply Hb|]. intros s'. apply IH.
Qed.

(* ===================================================================== *)
(** ** LocalExecutor: illegal file names *)
(* ===================================================================== *)

Section IllegalNames.

Import LocalExecutor.

Context {num : Numerics}.

Variable self : Executor.

Lemma illegal_input_has_illegal_char (f : FileInfo) :
  illegal_input f ->
  FileType_eqb (type f) STDIN = false /\ has_illegal_char (name f) = true.
Proof.
  intros [Ht (c & Hin & Hc)]. split.
  - destruct (type f); try reflexivity. now contradict Ht.
  - unfold has_illegal_char. apply existsb_exists. exists c.
    split; [exact Hin|]. unfold IsIllegalChar.
    destruct Hc as [-> | ->]; reflexivity.
Qed.

Abbreviation no_sandbox := (fun c => negb (uses_sandbox c)).

Lemma MaybeRequestFile_no_sandbox (info : FileInfo) :
  issues_only no_sandbox (MaybeRequestFile self info).
Proof.
  unfold MaybeRequestFile. apply issues_only_bind.
  - now apply issues_only_call.
  - intros size. destruct (0 <=? size); [exact I|].
    destruct (contents info); now apply issues_only_call.
Qed.

Lemma PrepareFile_no_sandbox info tmpdir options input_files :
  issues_only no_sandbox (PrepareFile self info tmpdir options input_files).
Proof.
  unfold PrepareFile. apply issues_only_bind.
  - destruct (FileType_eqb (type info) STDIN); [exact I|].
    destruct (has_illegal_char (name info)); exact I.
  - intros [n o]. apply issues_only_bind; [now apply issues_only_call|].
    intros _. apply issues_only_bind; [|intros; exact I].
    destruct (executable info); [now apply issues_only_call|exact I].
Qed.

Lemma PrepareFile_illegal info tmpdir options input_files :
  illegal_input info ->
  never_returns (PrepareFile self info tmpdir options input_files).
Proof.
  intros H. apply illegal_input_has_illegal_char in H as [Ht Hc].
  unfold PrepareFile. rewrite Ht, Hc. exact I.
Qed.

Lemma stage_input_no_sandbox request tmp st input :
  issues_only no_sandbox (stage_input self request tmp st input).
Proof.
  destruct st as [[o fs] l]. unfold stage_input.
  apply issues_only_bind; [apply PrepareFile_no_sandbox|].
  intros [o' fs']. now destruct (String.eqb _ _).
Qed.

Lemma stage_input_illegal request tmp st input :
  illegal_input input ->
  never_returns (stage_input self request tmp st input).
Proof.
  intros H. destruct st as [[o fs] l]. unfold stage_input.
  now apply never_returns_bind_l, PrepareFile_illegal.
Qed.

Lemma stage_inputs_illegal request tmp (l : list FileInfo) st :
  (exists f, In f l /\ illegal_input f) ->
  never_returns (for_each l (stage_input self request tmp) st).
Proof.
  revert st. induction l as [|a l IH]; intros st (f & Hin & Hf); simpl.
  - contradiction.
  - destruct Hin as [-> | Hin].
    + now apply never_returns_bind_l, stage_input_illegal.
    + apply never_returns_bind_r. intros st'. apply IH. now exists f.
Qed.

Lemma execute_sandbox_illegal request tmp :
  (exists f, In f (input request) /\ illegal_input f) ->
  never_returns (execute_sandbox self request tmp)
  /\ issues_only no_sandbox (execute_sandbox self request tmp).
Proof.
  intros H. unfold execute_sandbox. split.
  - apply never_returns_bind_r. intros _. apply never_returns_bind_r.
    intros _. now apply never_returns_bind_l, stage_inputs_illegal.
  - apply issues_only_bind.
    { destruct (keep_sandbox request); [now apply issues_only_call|exact I]. }
    intros _. apply issues_only_bind; [now apply issues_only_call|].
    intros _. apply issues_only_bind_never.
    + apply issues_only_for_each. intros. apply stage_input_no_sandbox.
    + now apply stage_inputs_illegal.
Qed.

Lemma TempDir_ctor_no_sandbox base : issues_only no_sandbox (TempDir.ctor base).
Proof.
  unfold TempDir.ctor. apply issues_only_bind; [now apply issues_only_call|].
  intros _. apply issues_only_bind; [now apply issues_only_call|].
  intros path_. destruct (String.eqb path_ ""); [|exact I].
  apply issues_only_bind; [now apply issues_only_call|]. intros; exact I.
Qed.

Lemma TempDir_dtor_no_sandbox path_ keep_ :
  issues_only no_sandbox (TempDir.dtor path_ keep_).
Proof.
  unfold TempDir.dtor, TempDir.RemoveTree.
  destruct (negb keep_); [now apply issues_only_call|exact I].
Qed.

Lemma Execute_illegal request :
  (exists f, In f (input request) /\ illegal_input f) ->
  never_returns (Execute self request)
  /\ issues_only no_sandbox (Execute self request).
Proof.
  intros H. unfold Execute.
  destruct (negb (fifo_size request =? 0)); [now split|].
  assert (Hin : forall tmp,
             never_returns (Execute_in self request tmp)
             /\ issues_only no_sandbox (Execute_in self request tmp)).
  { intros tmp. destruct (execute_sandbox_illegal request tmp H) as [Hn Hi].
    unfold Execute_in. split.
    - now apply never_returns_bind_l.
    - now apply issues_only_bind_never. }
  split.
  - apply never_returns_bind_r. intros _. apply never_returns_bind_r.
    intros tmp. apply never_returns_with_destructor, Hin.
  - apply issues_only_bind.
    { unfold materialize_inputs. apply issues_only_for_each.
      intros. apply MaybeRequestFile_no_sandbox. }
    intros _. apply issues_only_bind; [apply TempDir_ctor_no_sandbox|].
    intros tmp. apply issues_only_with_destructor;
      [apply Hin|apply TempDir_dtor_no_sandbox].
Qed.

Lemma illegal_name_aborts_before_sandbox_aux
    {W : Type} (h : handler W) (w : W) (request : Request) :
  (exists f, In f (input request) /\ illegal_input f) ->
  Forall (fun ev => uses_sandbox (ev_cmd ev) = false)
    (trace_of (run h (Execute self request) w)).
Proof.
  intros H. destruct (Execute_illegal request H) as [Hn Hi].
  eapply Forall_impl; [apply (issues_only_run h _ _ w Hi)|].
  intros ev Hev. simpl in Hev. now apply negb_true_iff in Hev.
Qed.

(** C7. For every request with an input file of illegal name, in every
    environment, [Execute] ends by raising an error and its run holds no
    command of the sandbox: it is not created, not prepared and never
    executed, and no admission token is taken. *)
Theorem illegal_name_aborts_before_sandbox
    {W : Type} (h : handler W) (w : W) (request : Request) :
  (exists f, In f (input request) /\ illegal_input f) ->
  (exists e, result_of (run h (Execute self request) w) = inl e)
  /\ Forall (fun ev => uses_sandbox (ev_cmd ev) = false)
       (trace_of (run h (Execute self request) w))
  /\ forall options outcome,
       ~ In (Ev (SandboxExecute options) outcome)
           (trace_of (run h (Execute self request) w)).
Proof.
  intros H. destruct (Execute_illegal request H) as [Hn Hi].
  pose proof (illegal_name_aborts_before_sandbox_aux h w request H) as HF.
  split; [now apply never_returns_run|]. split; [exact HF|].
  intros options outcome Hin. rewrite Forall_forall in HF.
  apply list_elem_of_In in Hin. specialize (HF _ Hin). discriminate HF.
Qed.

End IllegalNames.

(** The request whose input is named [a/b], in the example environment:
    [Execute] raises and the sandbox is not used. *)
Lemma illegal_name_aborts_before_sandbox_witness :
  (exists e,
      result_of (run (Example.env Example.echo)
                   (LocalExecutor.Execute Example.executor
                      Example.illegal_request) Example.empty_world) = inl e)
  /\ Forall (fun ev => uses_sandbox (ev_cmd ev) = false)
       (trace_of (run (Example.env Example.echo)
                    (LocalExecutor.Execute Example.executor
                       Example.illegal_request) Example.empty_world)).
Proof.
  assert (H : exists f, In f (LocalExecutor.input Example.illegal_request)
                        /\ illegal_input f).
  { exists (mkFileInfo "a/b" USER "abcd" false (Some "data")).
    split; [now left|]. split; [discriminate|].
    exists "/"%char. split; [simpl; tauto|now left]. }
  pose proof (illegal_name_aborts_before_sandbox Example.executor
                (Example.env Example.echo) Example.empty_world
                Example.illegal_request H) as (H1 & H2 & _).
  exact (conj H1 H2).
Defined.

(* ===================================================================== *)
(** ** LocalExecutor: where an illegal name is rejected *)
(* ===================================================================== *)

Section Rejection.

Import LocalExecutor.

Context {num : Numerics} {W : Type}.

Variable self : Executor.
Variable h : handler W.
Hypothesis h_answers : answers_all h.

Lemma h_answered (c : Cmd) (w : W) : exists a w1, h c w = (w1, inr a).
Proof.
  destruct h_answers as [Ha _]. destruct (Ha c w) as [a Hc].
  destruct (h c w) as [w1 r]. simpl in Hc. subst r. now exists a, w1.
Qed.

Lemma not_illegal_input (f : FileInfo) :
  ~ illegal_input f ->
  FileType_eqb (type f) STDIN = true \/ has_illegal_char (name f) = false.
Proof.
  intros H. destruct (FileType_eqb (type f) STDIN) eqn:Et; [now left|right].
  destruct (has_illegal_char (name f)) eqn:Ec; [|reflexivity].
  exfalso. apply H. split.
  - intros E. rewrite E in Et. discriminate.
  - unfold has_illegal_char in Ec. apply existsb_exists in Ec as (c & Hin & Hc).
    exists c. split; [exact Hin|]. unfold IsIllegalChar in Hc.
    apply orb_true_iff in Hc as [Hc|Hc]; apply Ascii.eqb_eq in Hc; auto.
Qed.

Tactic Notation "answered" "as" simple_intropattern(a) ident(w1) :=
  cbn [run call bind];
  match goal with
  | |- context [h ?c ?w] => destruct (h_answered c w) as (a & w1 & ->)
  end;
  cbn [run bind].

(** No callee threw. *)
Local Abbreviation clean tr := (Forall (fun ev => threw ev = false) tr).

Lemma run_MaybeRequestFile (info : FileInfo) (w : W) :
  exists tr w1,
    run h (MaybeRequestFile self info) w = (tr, w1, inr tt)
    /\ chunk_of self info tr /\ clean tr.
Proof.
  unfold MaybeRequestFile, chunk_of, fetch_of. answered as size w1.
  destruct (0 <=? size) eqn:Hs.
  - cbn. eexists _, _. split; [reflexivity|]. split; [|now repeat constructor].
    left. exists (inr size). split; [reflexivity|]. now apply Z.leb_le.
  - apply Z.leb_gt in Hs.
    destruct (contents info) as [body|]; answered as [] w2;
      (eexists _, _; split; [reflexivity|]; split; [|now repeat constructor]);
      right; exists size, (inr tt); now split.
Qed.

Lemma run_materialize_inputs (l : list FileInfo) (w : W) :
  exists chunks w1,
    run h (for_each l (fun _ input => MaybeRequestFile self input) tt) w
    = (concat chunks, w1, inr tt)
    /\ Forall2 (chunk_of self) l chunks /\ clean (concat chunks).
Proof.
  revert w. induction l as [|a l IH]; intros w; cbn [for_each].
  - exists [], w. split; [reflexivity|]. split; constructor.
  - rewrite run_bind.
    destruct (run_MaybeRequestFile a w) as (tr & w1 & -> & Ha & Hc).
    destruct (IH w1) as (chunks & w2 & -> & Hl & Hcl).
    exists (tr :: chunks), w2. split; [reflexivity|].
    split; [now constructor|]. cbn [concat]. now apply Forall_app.
Qed.

Lemma run_TempDir_ctor (base : string) (w : W) :
  exists w1 tmp,
    run h (TempDir.ctor base) w
    = ([Ev (FileMakeDirs base) (inr tt); Ev (OsTempDir base) (inr tmp)],
       w1, inr tmp)
    /\ tmp <> "".
Proof.
  unfold TempDir.ctor. answered as [] w1.
  cbn [run call bind]. pose proof (proj2 h_answers base w1) as Hd.
  destruct (h_answered (OsTempDir base) w1) as (path_ & w2 & E).
  rewrite E in *. simpl in Hd. cbn [run bind].
  destruct (String.eqb_spec path_ "") as [->|Hne]; [now contradict Hd|].
  cbn. now exists w2, path_.
Qed.

Lemma run_PrepareFile (info : FileInfo) tmpdir options input_files (w : W) :
  ~ illegal_input info ->
  exists tr w1 r,
    run h (PrepareFile self info tmpdir options input_files) w
    = (tr, w1, inr r)
    /\ map ev_cmd tr = staging_of self tmpdir info /\ clean tr.
Proof.
  intros Hok. unfold PrepareFile, staging_of, target_of.
  set (p := if FileType_eqb (type info) STDIN then _ else _).
  assert (Hp : exists o,
             p = Ret (if FileType_eqb (type info) STDIN then "stdin"
                      else File.JoinPath kBoxDir (name info), o)).
  { subst p. destruct (not_illegal_input info Hok) as [-> | Hc]; [eauto|].
    destruct (FileType_eqb (type info) STDIN); [eauto|]. rewrite Hc. eauto. }
  destruct Hp as [o ->]. answered as [] w1.
  destruct (executable info).
  - answered as [] w2. cbn. eexists _, _, _.
    split; [reflexivity|]. split; [reflexivity|now repeat constructor].
  - cbn. eexists _, _, _.
    split; [reflexivity|]. split; [reflexivity|now repeat constructor].
Qed.

Lemma run_PrepareFile_illegal (info : FileInfo) tmpdir options input_files
    (w : W) :
  illegal_input info ->
  run h (PrepareFile self info tmpdir options input_files) w
  = ([], w, inl (runtime_error ("Invalid file name: " +:+ c_str (name info)))).
Proof.
  intros H. apply illegal_input_has_illegal_char in H as [Ht Hc].
  unfold PrepareFile. now rewrite Ht, Hc.
Qed.

Lemma run_stage_inputs request tmp (pre post : list FileInfo) bad st (w : W) :
  (forall f, In f pre -> ~ illegal_input f) -> illegal_input bad ->
  exists tr w1,
    run h (for_each (pre ++ bad :: post) (stage_input self request tmp) st) w
    = (tr, w1,
       inl (runtime_error ("Invalid file name: " +:+ c_str (name bad))))
    /\ map ev_cmd tr = concat (map (staging_of self tmp) pre) /\ clean tr.
Proof.
  intros Hpre Hbad. revert st w.
  induction pre as [|a pre IH]; intros [[o fs] l] w;
    cbn [app for_each]; rewrite run_bind.
  - unfold stage_input. rewrite run_bind, run_PrepareFile_illegal by assumption.
    exists [], w. split; [reflexivity|]. split; [reflexivity|constructor].
  - unfold stage_input at 1. rewrite run_bind.
    destruct (run_PrepareFile a tmp o fs w)
      as (tr & w1 & [o' fs'] & -> & Hs & Hc).
    { apply Hpre. now left. }
    set (st' := if String.eqb _ _ then _ else _).
    assert (Hst : exists s, st' = Ret s)
      by (subst st'; destruct (String.eqb _ _); eauto).
    destruct Hst as [s ->]. cbn [run].
    destruct (IH (fun f Hf => Hpre f (or_intror Hf)) s w1)
      as (tr2 & w2 & -> & Hs2 & Hc2).
    rewrite app_nil_r. exists (tr ++ tr2), w2. split; [reflexivity|].
    split; [|now apply Forall_app].
    rewrite map_app, Hs, Hs2. reflexivity.
Qed.

Lemma run_execute_sandbox_illegal request tmp
    (pre post : list FileInfo) bad (w : W) :
  input request = pre ++ bad :: post ->
  (forall f, In f pre -> ~ illegal_input f) -> illegal_input bad ->
  exists staged w1,
    run h (execute_sandbox self request tmp) w
    = (command_file request tmp
       ++ [Ev (FileMakeDirs (File.JoinPath tmp kBoxDir)) (inr tt)] ++ staged,
       w1, inl (runtime_error ("Invalid file name: " +:+ c_str (name bad))))
    /\ map ev_cmd staged = concat (map (staging_of self tmp) pre)
    /\ clean staged.
Proof.
  intros Hin Hpre Hbad. unfold execute_sandbox, command_file. rewrite run_bind.
  assert (Hk : exists w0,
             run h (if keep_sandbox request
                    then call (WriteCommandFile (File.JoinPath tmp "command.txt")
                                 (cmdline_of request +:+ String "010"%char ""))
                    else Ret tt) w
             = (if keep_sandbox request
                then [Ev (WriteCommandFile (File.JoinPath tmp "command.txt")
                            (cmdline_of request +:+ String "010"%char ""))
                        (inr tt)]
                else [], w0, inr tt)).
  { destruct (keep_sandbox request).
    - answered as [] w0. eauto.
    - cbn. eauto. }
  destruct Hk as (w0 & ->). cbv beta iota zeta. rewrite run_bind.
  rewrite run_call.
  destruct (h_answered (FileMakeDirs (File.JoinPath tmp kBoxDir)) w0)
    as ([] & w1 & ->).
  cbv beta iota zeta. rewrite run_bind, Hin.
  destruct (run_stage_inputs request tmp pre post bad
              (initial_options request (File.JoinPath tmp kBoxDir), [], false)
              w1 Hpre Hbad) as (tr2 & w2 & -> & Hs & Hc).
  exists tr2, w2. now split.
Qed.


End Rejection.

Lemma obliging_answers_all : answers_all Example.obliging.
Proof.
  split.
  - intros c w. unfold Example.obliging. simpl. eauto.
  - intros base w. unfold Example.obliging. cbn [snd]. intros H.
    injection H as E. destruct base; discriminate E.
Qed.



(* ===================================================================== *)
(** ** LocalExecutor: the response that is returned *)
(* ===================================================================== *)

Section Returned.

Import LocalExecutor.

Context {num : Numerics} {W : Type}.

Variable self : Executor.
Variable h : handler W.

Lemma catches_nothing_MaybeRequestFile info : catches_nothing (MaybeRequestFile self info).
Proof.
  unfold MaybeRequestFile. apply catches_nothing_bind; [apply catches_nothing_call|].
  intros size. destruct (0 <=? size); [exact I|].
  destruct (contents info); apply catches_nothing_call.
Qed.

Lemma catches_nothing_TempDir_ctor base : catches_nothing (TempDir.ctor base).
Proof.
  unfold TempDir.ctor. apply catches_nothing_bind; [apply catches_nothing_call|]. intros _.
  apply catches_nothing_bind; [apply catches_nothing_call|]. intros path_.
  destruct (String.eqb path_ ""); [|exact I].
  apply catches_nothing_bind; [apply catches_nothing_call|]. intros; exact I.
Qed.

Lemma catches_nothing_TempDir_dtor path_ keep_ : catches_nothing (TempDir.dtor path_ keep_).
Proof.
  unfold TempDir.dtor, TempDir.RemoveTree.
  destruct (negb keep_); [apply catches_nothing_call|exact I].
Qed.

Lemma catches_nothing_PrepareFile info tmpdir options input_files :
  catches_nothing (PrepareFile self info tmpdir options input_files).
Proof.
  unfold PrepareFile. apply catches_nothing_bind.
  - destruct (FileType_eqb (type info) STDIN); [exact I|].
    destruct (has_illegal_char (name info)); exact I.
  - intros [n o]. apply catches_nothing_bind; [apply catches_nothing_call|]. intros _.
    apply catches_nothing_bind; [|intros; exact I].
    destruct (executable info); [apply catches_nothing_call|exact I].
Qed.

Lemma catches_nothing_stage_input request tmp st input :
  catches_nothing (stage_input self request tmp st input).
Proof.
  destruct st as [[o fs] l]. unfold stage_input.
  apply catches_nothing_bind; [apply catches_nothing_PrepareFile|].
  intros [o' fs']. now destruct (String.eqb _ _).
Qed.

Lemma catches_nothing_guarded_execute request options :
  catches_nothing (guarded_execute request options).
Proof.
  unfold guarded_execute. apply catches_nothing_bind; [apply catches_nothing_call|]. intros _.
  apply catches_nothing_with_destructor; [|apply catches_nothing_call].
  apply catches_nothing_bind; [apply catches_nothing_call|].
  intros [[ok result] msg]. now destruct ok.
Qed.

Lemma catches_nothing_execute_sandbox request tmp :
  catches_nothing (execute_sandbox self request tmp).
Proof.
  unfold execute_sandbox. apply catches_nothing_bind.
  { destruct (keep_sandbox request); [apply catches_nothing_call|exact I]. }
  intros _. apply catches_nothing_bind; [apply catches_nothing_call|]. intros _.
  apply catches_nothing_bind.
  { apply catches_nothing_for_each. intros. apply catches_nothing_stage_input. }
  intros [[o fs] l]. apply catches_nothing_bind; [apply catches_nothing_call|]. intros _.
  apply catches_nothing_bind; [|intros _; apply catches_nothing_guarded_execute].
  destruct l; [|exact I]. apply catches_nothing_bind; [apply catches_nothing_call|].
  intros [ok msg]. now destruct ok.
Qed.

Lemma catches_nothing_RetrieveFile info tmpdir response :
  catches_nothing (RetrieveFile self info tmpdir response).
Proof.
  unfold RetrieveFile. apply catches_nothing_bind.
  - destruct (_ || _); [exact I|].
    destruct (has_illegal_char (name info)); exact I.
  - intros n. apply catches_nothing_bind; [apply catches_nothing_call|]. intros hash.
    apply catches_nothing_bind; [apply catches_nothing_call|]. intros; exact I.
Qed.

(** [RetrieveFile] changes the response only by adding an output. *)
Lemma RetrieveFile_returns info tmpdir response (w : W) tr w1 r :
  run h (RetrieveFile self info tmpdir response) w = (tr, w1, inr r) ->
  exists f, r = add_output f response.
Proof.
  unfold RetrieveFile. intros H.
  apply run_bind_inr in H as (tr1 & w2 & n & tr2 & _ & H & _).
  apply run_bind_inr in H as (tr3 & w3 & hash & tr4 & _ & H & _).
  apply run_bind_inr in H as (tr5 & w4 & u & tr6 & _ & H & _).
  cbn in H. inversion H. eauto.
Qed.

(** When [RetrieveFile] throws, it rejected the name before any command,
    or the exception is the one thrown by its last command. *)
Lemma RetrieveFile_throws info tmpdir response (w : W) tr w1 e :
  run h (RetrieveFile self info tmpdir response) w = (tr, w1, inl e) ->
  (tr = [] /\ e = runtime_error "Invalid file name")
  \/ exists tr0 ev, tr = tr0 ++ [ev]
                    /\ Forall (fun ev => threw ev = false) tr0
                    /\ ev_outcome ev = inl e.
Proof.
  unfold RetrieveFile.
  set (p := if _ || _ then _ else _).
  assert (Hp : p = Throw (runtime_error "Invalid file name")
               \/ exists n, p = Ret n).
  { subst p. destruct (_ || _); [eauto|].
    destruct (has_illegal_char (name info)); eauto. }
  destruct Hp as [-> | [n ->]].
  - cbn. intros H. inversion H. now left.
  - cbn [bind run call]. intros H. right.
    destruct (h (FileHash (File.JoinPath tmpdir n)) w) as [w2 [e1|hash]].
    + cbn in H. inversion H; subst. eexists [], _.
      split; [reflexivity|]. split; [constructor|reflexivity].
    + cbn [bind run] in H.
      destruct (h (FileCopy (File.JoinPath tmpdir n)
                     (File.SHAToPath (flags_store_directory self)
                        (store_directory_ self) hash)) w2) as [w3 [e2|u]].
      * cbn in H. inversion H; subst. eexists [_], _.
        split; [reflexivity|]. split; [|reflexivity].
        constructor; [reflexivity|constructor].
      * cbn in H. discriminate H.
Qed.

(** The [catch] clause: what [retrieve_declared] makes of an exception
    of [RetrieveFile]. *)
Lemma retrieve_declared_catch tmp response info (w : W) tr w1 e :
  run h (RetrieveFile self info tmp response) w = (tr, w1, inl e) ->
  run h (retrieve_declared self tmp response info) w
  = (tr, w1, if is_not_found e then inr (demoted response) else inl e).
Proof.
  intros H. unfold retrieve_declared. rewrite run_try_catch, H by reflexivity.
  destruct e as [m|m|code m|m|]; cbn; try now rewrite app_nil_r.
  unfold demoted.
  destruct (code =? ENOENT); cbn; [|now rewrite app_nil_r].
  destruct (Status_eqb (status response) SUCCESS); cbn; now rewrite app_nil_r.
Qed.

Abbreviation swallowed_only tr :=
  (Forall (fun ev => threw ev = true -> threw_not_found ev = true) tr).

Lemma swallowed_only_clean tr :
  Forall (fun ev => threw ev = false) tr -> swallowed_only tr.
Proof.
  intros H. eapply Forall_impl; [exact H|]. intros ev -> ?. discriminate.
Qed.

Lemma existsb_threw_clean tr :
  Forall (fun ev => threw ev = false) tr -> existsb threw tr = false.
Proof.
  induction 1 as [|ev tr Hev _ IH]; simpl; [reflexivity|]. now rewrite Hev.
Qed.

Lemma retrieve_declared_returns tmp response info (w : W) tr w1 r :
  run h (retrieve_declared self tmp response info) w = (tr, w1, inr r) ->
  (Forall (fun ev => threw ev = false) tr
   /\ exists f, r = add_output f response)
  \/ (existsb threw tr = true /\ swallowed_only tr /\ r = demoted response).
Proof.
  intros H.
  destruct (run h (RetrieveFile self info tmp response) w)
    as [[tr0 w0] [e|r0]] eqn:E.
  - rewrite (retrieve_declared_catch _ _ _ _ _ _ _ E) in H.
    destruct (is_not_found e) eqn:Enf; [|discriminate].
    inversion H; subst. right.
    destruct (RetrieveFile_throws _ _ _ _ _ _ _ E)
      as [[_ ->] | (tr1 & ev & -> & Hc & Hev)]; [discriminate|].
    assert (Ht : threw ev = true) by (unfold threw; now rewrite Hev).
    assert (Hn : threw_not_found ev = true)
      by (unfold threw_not_found; now rewrite Hev).
    split; [|split; [|reflexivity]].
    + rewrite existsb_app. simpl. rewrite Ht. now rewrite orb_true_r.
    + apply Forall_app. split; [now apply swallowed_only_clean|].
      constructor; [auto|constructor].
  - left. unfold retrieve_declared in H. rewrite run_try_catch, E in H by reflexivity.
    inversion H; subst. split.
    + eapply catches_nothing_run; [apply catches_nothing_RetrieveFile|exact E].
    + eapply RetrieveFile_returns, E.
Qed.

Lemma verdict_demoted response :
  verdict (demoted response)
  = if Status_eqb (status response) SUCCESS
    then (MISSING_FILES, "Missing output files") else verdict response.
Proof. unfold demoted. now destruct (Status_eqb _ _). Qed.

Lemma demoted_not_SUCCESS response :
  Status_eqb (status (demoted response)) SUCCESS = false.
Proof.
  unfold demoted. destruct (Status_eqb (status response) SUCCESS) eqn:E;
    [reflexivity|exact E].
Qed.

(** The loop over the declared outputs, when it completes. *)
Lemma declared_outputs_return tmp (outs : list FileInfo) response (w : W)
    tr w1 r :
  run h (for_each outs (retrieve_declared self tmp) response) w
  = (tr, w1, inr r) ->
  swallowed_only tr
  /\ verdict r
     = if existsb threw tr then
         if Status_eqb (status response) SUCCESS
         then (MISSING_FILES, "Missing output files") else verdict response
       else verdict response.
Proof.
  revert response w tr. induction outs as [|info outs IH];
    intros response w tr H; cbn [for_each] in H.
  - cbn in H. inversion H; subst. split; [constructor|reflexivity].
  - apply run_bind_inr in H as (tr1 & w2 & r1 & tr2 & H1 & H2 & ->).
    apply IH in H2 as [Hs2 Hv2].
    apply retrieve_declared_returns in H1
      as [[Hc (f & ->)] | (Ht & Hs1 & ->)].
    + split; [apply Forall_app; split;
                [now apply swallowed_only_clean|exact Hs2]|].
      rewrite existsb_app, (existsb_threw_clean _ Hc). exact Hv2.
    + split; [apply Forall_app; now split|].
      rewrite existsb_app, Ht. cbn [orb]. rewrite Hv2.
      rewrite demoted_not_SUCCESS, verdict_demoted.
      now destruct (existsb threw tr2).
Qed.

(** [guarded_execute] returns the report of a successful
    [Sandbox::Execute]. *)
Lemma guarded_execute_returns request options (w : W) tr w1 info :
  run h (guarded_execute request options) w = (tr, w1, inr info) ->
  exists msg, In (Ev (SandboxExecute options) (inr (true, info, msg))) tr.
Proof.
  unfold guarded_execute. intros H.
  apply run_bind_inr in H as (tr1 & w2 & u & tr2 & _ & H & ->).
  apply run_with_destructor_inr in H as (tr3 & w3 & tr4 & u' & H & _ & ->).
  cbn [bind run call] in H.
  destruct (h (SandboxExecute options) w2) as [w4 [e|[[ok result] msg]]];
    [discriminate H|].
  destruct ok; [|discriminate H]. cbn in H. inversion H; subst.
  exists msg. apply in_or_app. right. apply in_or_app. left. now left.
Qed.

Lemma execute_sandbox_returns request tmp (w : W) tr w1 info :
  run h (execute_sandbox self request tmp) w = (tr, w1, inr info) ->
  exists options msg,
    In (Ev (SandboxExecute options) (inr (true, info, msg))) tr.
Proof.
  unfold execute_sandbox. intros H.
  apply run_bind_inr in H as (tr1 & w2 & u1 & tr2 & _ & H & ->).
  apply run_bind_inr in H as (tr3 & w3 & u2 & tr4 & _ & H & ->).
  apply run_bind_inr in H as (tr5 & w4 & [[o fs] l] & tr6 & _ & H & ->).
  apply run_bind_inr in H as (tr7 & w5 & u3 & tr8 & _ & H & ->).
  apply run_bind_inr in H as (tr9 & w6 & u4 & tr10 & _ & H & ->).
  apply guarded_execute_returns in H as [msg H].
  eexists _, msg. repeat (apply in_or_app; right). exact H.
Qed.

(** A run of [Execute] that returns a response: the sandbox was executed
    and reported [info]; the response is what the output files make of the
    classification of [info]; no command threw before, and none after. *)
Lemma Execute_returns request (w : W) tr w' r :
  run h (Execute self request) w = (tr, w', inr r) ->
  exists tmp options info msg tr1 w1 tr2 w2 tr3,
    tr = tr1 ++ tr2 ++ tr3
    /\ Forall (fun ev => threw ev = false) tr1
    /\ In (Ev (SandboxExecute options) (inr (true, info, msg))) tr1
    /\ run h (retrieve_outputs self request tmp
                (classify request info (response_of_result info))) w1
       = (tr2, w2, inr r)
    /\ Forall (fun ev => threw ev = false) tr3.
Proof.
  unfold Execute. destruct (negb (fifo_size request =? 0)); [discriminate|].
  intros H.
  apply run_bind_inr in H as (trm & wm & u & tr0 & Hm & H & ->).
  apply run_bind_inr in H as (trc & wc & tmp & tr0' & Hc & H & ->).
  apply run_with_destructor_inr in H as (tri & wi & trd & u' & H & Hd & ->).
  unfold Execute_in in H.
  apply run_bind_inr in H as (trs & ws & info & tro & Hs & Ho & ->).
  destruct (execute_sandbox_returns _ _ _ _ _ _ Hs) as (options & msg & Hin).
  exists tmp, options, info, msg, (trm ++ trc ++ trs), ws, tro, wi, trd.
  split; [now rewrite <- !app_assoc|].
  split; [|split; [|split; [exact Ho|]]].
  - repeat (apply Forall_app; split).
    + eapply catches_nothing_run; [|exact Hm]. unfold materialize_inputs.
      apply catches_nothing_for_each. intros. apply catches_nothing_MaybeRequestFile.
    + eapply catches_nothing_run; [apply catches_nothing_TempDir_ctor|exact Hc].
    + eapply catches_nothing_run; [apply catches_nothing_execute_sandbox|exact Hs].
  - repeat (apply in_or_app; right). exact Hin.
  - eapply catches_nothing_run; [apply catches_nothing_TempDir_dtor|exact Hd].
Qed.


Lemma RetrieveFile_stream_returns (t : FileType) tmp response (w : W)
    tr w1 r :
  t = STDOUT \/ t = STDERR ->
  run h (RetrieveFile self (FileInfo_of_type t) tmp response) w
  = (tr, w1, inr r) ->
  exists a,
    In (Ev (FileHash (File.JoinPath tmp
                        (if FileType_eqb t STDOUT then "stdout" else "stderr")))
          (inr a)) tr.
Proof.
  intros Ht. unfold RetrieveFile.
  assert (E : FileType_eqb (type (FileInfo_of_type t)) STDOUT
              || FileType_eqb (type (FileInfo_of_type t)) STDERR = true)
    by (destruct Ht as [-> | ->]; reflexivity).
  rewrite E. cbn [bind run call type FileInfo_of_type].
  destruct (h (FileHash _) w) as [w2 [e|a]]; [discriminate|].
  intros H. exists a.
  destruct (run h _ w2) as [[tr2 w3] res]. inversion H; subst. now left.
Qed.

(** The output files, when their retrieval completes. *)
Lemma retrieve_outputs_return request tmp response (w : W) tr w1 r :
  run h (retrieve_outputs self request tmp response) w = (tr, w1, inr r) ->
  swallowed_only tr
  /\ verdict r
     = (if existsb threw tr then
          if Status_eqb (status response) SUCCESS
          then (MISSING_FILES, "Missing output files") else verdict response
        else verdict response)
  /\ exists a b,
       In (Ev (FileHash (File.JoinPath tmp "stdout")) (inr a)) tr
       /\ In (Ev (FileHash (File.JoinPath tmp "stderr")) (inr b)) tr.
Proof.
  unfold retrieve_outputs. intros H.
  apply run_bind_inr in H as (tr1 & w2 & r1 & tr0 & H1 & H & ->).
  apply run_bind_inr in H as (tr2 & w3 & r2 & tr3 & H2 & H3 & ->).
  pose proof (catches_nothing_run h _ _ _ _ _
                (catches_nothing_RetrieveFile _ _ _) H1) as Hc1.
  pose proof (catches_nothing_run h _ _ _ _ _
                (catches_nothing_RetrieveFile _ _ _) H2) as Hc2.
  destruct (RetrieveFile_stream_returns STDOUT _ _ _ _ _ _ (or_introl eq_refl) H1)
    as [a Ha].
  destruct (RetrieveFile_stream_returns STDERR _ _ _ _ _ _ (or_intror eq_refl) H2)
    as [b Hb].
  apply RetrieveFile_returns in H1 as [f1 ->].
  apply RetrieveFile_returns in H2 as [f2 ->].
  apply declared_outputs_return in H3 as [Hs Hv].
  split; [|split].
  - repeat (apply Forall_app; split); auto using swallowed_only_clean.
  - rewrite !existsb_app, (existsb_threw_clean _ Hc1),
      (existsb_threw_clean _ Hc2). exact Hv.
  - exists a, b. split.
    + apply in_or_app. now left.
    + apply in_or_app. right. apply in_or_app. now left.
Qed.

(** What [Execute] returns, in terms of its whole trace. *)
Lemma Execute_response request (w : W) r :
  result_of (run h (Execute self request) w) = inr r ->
  let tr := trace_of (run h (Execute self request) w) in
  exists tmp options info msg a b,
    In (Ev (SandboxExecute options) (inr (true, info, msg))) tr
    /\ In (Ev (FileHash (File.JoinPath tmp "stdout")) (inr a)) tr
    /\ In (Ev (FileHash (File.JoinPath tmp "stderr")) (inr b)) tr
    /\ swallowed_only tr
    /\ verdict r
       = let c := classify request info (response_of_result info) in
         if existsb threw tr then
           if Status_eqb (status c) SUCCESS
           then (MISSING_FILES, "Missing output files") else verdict c
         else verdict c.
Proof.
  destruct (run h (Execute self request) w) as [[tr w'] res] eqn:E.
  unfold result_of, trace_of. cbn [fst snd]. intros ->.
  apply Execute_returns in E
    as (tmp & options & info & msg & tr1 & w1 & tr2 & w2 & tr3
        & -> & Hc1 & Hin & Ho & Hc3).
  apply retrieve_outputs_return in Ho as (Hs & Hv & a & b & Ha & Hb).
  exists tmp, options, info, msg, a, b.
  split; [apply in_or_app; now left|].
  split; [apply in_or_app; right; apply in_or_app; now left|].
  split; [apply in_or_app; right; apply in_or_app; now left|].
  split.
  - repeat (apply Forall_app; split); auto using swallowed_only_clean.
  - cbv zeta. rewrite !existsb_app, (existsb_threw_clean _ Hc1),
      (existsb_threw_clean _ Hc3), orb_false_r. exact Hv.
Qed.

End Returned.

(* ===================================================================== *)
(** ** LocalExecutor: classification and output files *)
(* ===================================================================== *)

Section Outcome.

Import LocalExecutor.

Context {num : Numerics}.

Variable self : Executor.

Lemma classify_by_rules (request : Request) (info : ExecutionInfo) :
  verdict (classify request info (response_of_result info))
  = Classification.by_rules request info.
Proof.
  unfold classify, Classification.by_rules, Classification.rules, verdict.
  cbn [Classification.first_match response_of_result resource_usage
       ru_memory ru_sys_time ru_cpu_time ru_wall_time rsp_signal
       rsp_status_code].
  rewrite Z.geb_leb.
  rewrite (seconds_add_comm (seconds_of_millis (sys_time_millis info))).
  destruct (negb (memory (resource_limit request) =? 0)
            && (memory (resource_limit request) <=? memory_usage_kb info));
    [reflexivity|].
  destruct (seconds_nonzero (cpu_time (resource_limit request)) && _);
    [reflexivity|].
  destruct (seconds_nonzero (wall_time (resource_limit request)) && _);
    [reflexivity|].
  destruct (negb (signal info =? 0)); [reflexivity|].
  destruct (negb (status_code info =? 0)); reflexivity.
Qed.

(** C1. The status and the error message that [Execute] computes from the
    sandbox's report are those of the first rule that matches, in the order
    memory, CPU, wall, signal, non-zero exit, success; the other fields of
    the response are not touched.  A limit equal to zero is never
    attributed, and a memory usage equal to a non-zero limit gives
    [MEMORY_LIMIT].  The response [Execute] returns carries this verdict,
    unless the verdict is [SUCCESS] and an output file was missing. *)
Theorem classification_first_match (request : Request) :
  (forall info : ExecutionInfo,
     let r := classify request info (response_of_result info) in
     let limit := resource_limit request in
     verdict r = Classification.by_rules request info
     /\ resource_usage r = resource_usage (response_of_result info)
     /\ rsp_status_code r = status_code info
     /\ rsp_signal r = signal info
     /\ rsp_output r = []
     /\ (memory limit = 0 -> status r <> MEMORY_LIMIT)
     /\ (seconds_nonzero (cpu_time limit) = false ->
           verdict r <> (TIME_LIMIT, "CPU limit exceeded"))
     /\ (seconds_nonzero (wall_time limit) = false ->
           verdict r <> (TIME_LIMIT, "Wall limit exceeded"))
     /\ (memory limit <> 0 -> memory_usage_kb info = memory limit ->
           verdict r = (MEMORY_LIMIT, "Memory limit exceeded")))
  /\ (forall (W : Type) (h : handler W) (w : W) (response : Response),
        result_of (run h (Execute self request) w) = inr response ->
        exists options info msg,
          In (Ev (SandboxExecute options) (inr (true, info, msg)))
            (trace_of (run h (Execute self request) w))
          /\ (verdict response = Classification.by_rules request info
              \/ (fst (Classification.by_rules request info) = SUCCESS
                  /\ verdict response
                     = (MISSING_FILES, "Missing output files")))).
Proof.
  split.
  - intros info r limit. split; [apply classify_by_rules|].
    subst r limit. unfold classify, verdict.
    cbn [response_of_result resource_usage ru_memory ru_sys_time ru_cpu_time
         ru_wall_time rsp_signal rsp_status_code].
    destruct (Z.eqb_spec (memory (resource_limit request)) 0) as [Em|Em];
      cbn [negb andb].
    + destruct (seconds_nonzero (cpu_time (resource_limit request)));
        destruct (seconds_nonzero (wall_time (resource_limit request)));
        cbn [andb];
        repeat match goal with
               | |- context [if ?b then _ else _] => destruct b
               end; cbn; repeat split; try congruence; try discriminate.
    + destruct (Z.leb_spec (memory (resource_limit request))
                  (memory_usage_kb info)) as [Hle|Hlt].
      * cbn. repeat split; try congruence; try discriminate.
      * destruct (seconds_nonzero (cpu_time (resource_limit request)));
          destruct (seconds_nonzero (wall_time (resource_limit request)));
          cbn [andb];
          repeat match goal with
                 | |- context [if ?b then _ else _] => destruct b
                 end; cbn; repeat split; try congruence; try discriminate;
          intros; lia.
  - intros W h w response Hr.
    destruct (Execute_response self h request w response Hr)
      as (tmp & options & info & msg & a & b & Hin & _ & _ & _ & Hv).
    exists options, info, msg. split; [exact Hin|].
    cbv zeta in Hv. rewrite <- classify_by_rules.
    destruct (existsb threw _); [|now left].
    destruct (Status_eqb (status _) SUCCESS) eqn:Es; [right|now left].
    split; [|exact Hv]. unfold verdict. cbn [fst].
    destruct (status _); try discriminate Es; reflexivity.
Qed.


(** C5. In the loop over the declared outputs a not-found error of
    [RetrieveFile] is swallowed, and it turns the status [SUCCESS] into
    [MISSING_FILES] with the message [Missing output files] and leaves any
    other status as it is; every other exception is rethrown.  So a
    response that [Execute] returns carries the verdict of the
    classification when no command threw, and its demotion when one did;
    the only exceptions thrown in such a run are not-found errors, and a
    run in which a command threw anything else ends in an error. *)
Theorem missing_output_demotes_success {W : Type} (h : handler W) :
  (forall tmp response info w e,
     result_of (run h (RetrieveFile self info tmp response) w) = inl e ->
     result_of (run h (retrieve_declared self tmp response info) w)
     = if is_not_found e then inr (demoted response) else inl e)
  /\ (forall response,
        (status response = SUCCESS ->
         verdict (demoted response) = (MISSING_FILES, "Missing output files"))
        /\ (status response <> SUCCESS -> demoted response = response))
  /\ (forall request w response,
        result_of (run h (Execute self request) w) = inr response ->
        let tr := trace_of (run h (Execute self request) w) in
        exists options info msg,
          In (Ev (SandboxExecute options) (inr (true, info, msg))) tr
          /\ Forall (fun ev => threw ev = true -> threw_not_found ev = true) tr
          /\ verdict response
             = let c := classify request info (response_of_result info) in
               if existsb threw tr then
                 if Status_eqb (status c) SUCCESS
                 then (MISSING_FILES, "Missing output files") else verdict c
               else verdict c)
  /\ (forall request w ev,
        In ev (trace_of (run h (Execute self request) w)) ->
        threw ev = true -> threw_not_found ev = false ->
        exists e, result_of (run h (Execute self request) w) = inl e).
Proof.
  split; [|split; [|split]].
  - intros tmp response info w e H.
    destruct (run h (RetrieveFile self info tmp response) w)
      as [[tr w1] res] eqn:E.
    unfold result_of in H. cbn [snd] in H. subst res.
    now rewrite (retrieve_declared_catch self h _ _ _ _ _ _ _ E).
  - intros response. unfold demoted, verdict. split.
    + intros ->. reflexivity.
    + intros Hne. destruct (status response); try reflexivity.
      now contradict Hne.
  - intros request w response Hr tr.
    destruct (Execute_response self h request w response Hr)
      as (tmp & options & info & msg & a & b & Hin & _ & _ & Hs & Hv).
    exists options, info, msg. now repeat split.
  - intros request w ev Hin Ht Hn.
    destruct (result_of (run h (Execute self request) w)) as [e|response] eqn:Hr;
      [now exists e|].
    destruct (Execute_response self h request w response Hr)
      as (tmp & options & info & msg & a & b & _ & _ & _ & Hs & _).
    rewrite Forall_forall in Hs. apply list_elem_of_In in Hin.
    specialize (Hs ev Hin Ht). congruence.
Qed.

(** C10. The standard output and the standard error are retrieved outside
    the [try] block: an exception of their [File::Hash], the not-found
    error included, leaves [retrieve_outputs] as it is, and the body of
    [Execute] after the sandbox has run, and [Execute] itself unless the
    removal of the temporary directory fails too.  So a response, with
    [MISSING_FILES] or any other status, is returned only after both files
    were hashed. *)
Theorem missing_stdout_propagates {W : Type} (h : handler W) :
  (forall request tmp response w w1 e,
     h (FileHash (File.JoinPath tmp "stdout")) w = (w1, inl e) ->
     run h (retrieve_outputs self request tmp response) w
     = ([Ev (FileHash (File.JoinPath tmp "stdout")) (inl e)], w1, inl e))
  /\ (forall request tmp response w tr w1 r1 w2 e,
        run h (RetrieveFile self (FileInfo_of_type STDOUT) tmp response) w
        = (tr, w1, inr r1) ->
        h (FileHash (File.JoinPath tmp "stderr")) w1 = (w2, inl e) ->
        run h (retrieve_outputs self request tmp response) w
        = (tr ++ [Ev (FileHash (File.JoinPath tmp "stderr")) (inl e)], w2,
           inl e))
  /\ (forall request tmp w tr w1 info w2 e,
        run h (execute_sandbox self request tmp) w = (tr, w1, inr info) ->
        h (FileHash (File.JoinPath tmp "stdout")) w1 = (w2, inl e) ->
        result_of (run h (Execute_in self request tmp) w) = inl e
        /\ (result_of
              (run h (with_destructor (Execute_in self request tmp)
                        (TempDir.dtor tmp (keep_sandbox request))) w) = inl e
            \/ result_of
                 (run h (with_destructor (Execute_in self request tmp)
                           (TempDir.dtor tmp (keep_sandbox request))) w)
               = inl std_terminate))
  /\ (forall request w response,
        result_of (run h (Execute self request) w) = inr response ->
        exists tmp a b,
          In (Ev (FileHash (File.JoinPath tmp "stdout")) (inr a))
            (trace_of (run h (Execute self request) w))
          /\ In (Ev (FileHash (File.JoinPath tmp "stderr")) (inr b))
               (trace_of (run h (Execute self request) w))).
Proof.
  assert (Hout : forall request tmp response w w1 e,
             h (FileHash (File.JoinPath tmp "stdout")) w = (w1, inl e) ->
             run h (retrieve_outputs self request tmp response) w
             = ([Ev (FileHash (File.JoinPath tmp "stdout")) (inl e)], w1,
                inl e)).
  { intros request tmp response w w1 e Hh.
    unfold retrieve_outputs, RetrieveFile.
    cbn [FileInfo_of_type type FileType_eqb orb bind run call].
    now rewrite Hh. }
  split; [exact Hout|]. split; [|split].
  - intros request tmp response w tr w1 r1 w2 e H1 Hh.
    unfold retrieve_outputs. rewrite run_bind, H1.
    unfold RetrieveFile at 1.
    cbn [FileInfo_of_type type FileType_eqb orb bind run call].
    now rewrite Hh.
  - intros request tmp w tr w1 info w2 e Hs Hh.
    assert (Hin : run h (Execute_in self request tmp) w
                  = (tr ++ [Ev (FileHash (File.JoinPath tmp "stdout")) (inl e)],
                     w2, inl e)).
    { unfold Execute_in. rewrite run_bind, Hs. cbv zeta.
      now rewrite (Hout _ _ _ _ _ _ Hh). }
    split; [now rewrite Hin|].
    rewrite run_with_destructor, Hin.
    destruct (terminated h (Execute_in self request tmp) w); [cbn; auto|].
    destruct (run h (TempDir.dtor tmp (keep_sandbox request)) w2)
      as [[tr2 w3] [e2|u]]; cbn; auto.
  - intros request w response Hr.
    destruct (Execute_response self h request w response Hr)
      as (tmp & options & info & msg & a & b & _ & Ha & Hb & _).
    now exists tmp, a, b.
Qed.

End Outcome.

(** The third scenario of the specification: no CPU limit, a wall limit of
    one second, ten seconds of wall time. *)
Lemma classification_first_match_witness :
  LocalExecutor.verdict
    (LocalExecutor.classify Example.wall_limit_request Example.ten_seconds
       (LocalExecutor.response_of_result Example.ten_seconds))
  = (TIME_LIMIT, "Wall limit exceeded").
Proof.
  exact (eq_trans
           (proj1 (proj1 (classification_first_match Example.executor
                            Example.wall_limit_request)
                     Example.ten_seconds))
           eq_refl).
Defined.

(** The fourth scenario of the specification: the program succeeds and
    does not create the declared output [result.txt]. *)
Lemma missing_output_demotes_success_witness :
  let r := run (Example.env Example.echo)
             (LocalExecutor.Execute Example.executor Example.output_request)
             Example.empty_world in
  (exists response,
      result_of r = inr response
      /\ LocalExecutor.verdict response
         = (MISSING_FILES, "Missing output files")
      /\ map type (LocalExecutor.rsp_output response) = [STDOUT; STDERR])
  /\ existsb threw (trace_of r) = true
  /\ Forall (fun ev => threw ev = true -> threw_not_found ev = true)
       (trace_of r).
Proof.
  intros r.
  assert (Hr : exists response, result_of r = inr response
                 /\ LocalExecutor.verdict response
                    = (MISSING_FILES, "Missing output files")
                 /\ map type (LocalExecutor.rsp_output response)
                    = [STDOUT; STDERR]).
  { eexists. split; [vm_compute; reflexivity|]. split; reflexivity. }
  split; [exact Hr|]. split; [vm_compute; reflexivity|].
  destruct Hr as (response & Hr & _).
  destruct (proj1 (proj2 (proj2
              (missing_output_demotes_success Example.executor
                 (Example.env Example.echo))))
              Example.output_request Example.empty_world response Hr)
    as (options & info & msg & _ & Hs & _).
  exact Hs.
Defined.

(** The program is killed before the files of its standard streams
    exist: the not-found error of [stdout] leaves [Execute]. *)
Lemma missing_stdout_propagates_witness :
  let response :=
    LocalExecutor.response_of_result
      (mkExecutionInfo 10 5 20 1000 0 9 "killed") in
  run (Example.env Example.silent)
    (LocalExecutor.retrieve_outputs Example.executor Example.output_request
       "tmp/XXXXXX" response) Example.empty_world
  = ([Ev (FileHash "tmp/XXXXXX/stdout")
        (inl (system_error ENOENT "Read tmp/XXXXXX/stdout"))],
     Example.empty_world,
     inl (system_error ENOENT "Read tmp/XXXXXX/stdout"))
  /\ result_of
       (run (Example.env Example.silent)
          (LocalExecutor.Execute Example.executor Example.output_request)
          Example.empty_world)
     = inl (system_error ENOENT "Read tmp/XXXXXX/stdout").
Proof.
  intros response. split; [|vm_compute; reflexivity].
  exact (proj1 (missing_stdout_propagates Example.executor
                  (Example.env Example.silent))
           Example.output_request "tmp/XXXXXX" response Example.empty_world
           Example.empty_world _ eq_refl).
Defined.

(* ===================================================================== *)
(** ** LocalExecutor: the limits handed to the sandbox *)
(* ===================================================================== *)

Lemma returns_only_bind {A B} (Q' : A -> Prop) (Q : B -> Prop)
    (p : Prog A) (f : A -> Prog B) :
  returns_only Q' p -> (forall a, Q' a -> returns_only Q (f a)) ->
  returns_only Q (bind p f).
Proof.
  intros Hp Hf.
  induction p as [a|e| |c k IH]; simpl in *; [now apply Hf|exact I|exact I|].
  intros r. apply IH, Hp.
Qed.

Lemma issues_only_bind_post (P : Cmd -> bool) {A B} (Q : A -> Prop)
    (p : Prog A) (f : A -> Prog B) :
  issues_only P p -> returns_only Q p -> (forall a, Q a -> issues_only P (f a)) ->
  issues_only P (bind p f).
Proof.
  intros Hp Hq Hf.
  induction p as [a|e| |c k IH]; simpl in *; [now apply Hf|exact I|exact I|].
  destruct Hp as [Hc Hk]. split; [exact Hc|]. intros r. apply IH; [apply Hk|apply Hq].
Qed.

Lemma issues_only_impl (P Q : Cmd -> bool) {A} (p : Prog A) :
  (forall c, P c = true -> Q c = true) -> issues_only P p -> issues_only Q p.
Proof.
  intros HPQ. induction p as [a|e| |c k IH]; simpl; [easy|easy|easy|].
  intros [Hc Hk]. split; [now apply HPQ|]. intros r. apply IH, Hk.
Qed.

Lemma issues_only_try_catch (P : Cmd -> bool) {A} (p : Prog A)
    (hd : exn -> Prog A) :
  issues_only P p -> (forall e, issues_only P (hd e)) ->
  issues_only P (try_catch p hd).
Proof.
  intros Hp Hh.
  induction p as [a|e| |c k IH]; simpl in *; [exact I|apply Hh|exact I|].
  destruct Hp as [Hc Hk]. split; [exact Hc|]. intros r. apply IH, Hk.
Qed.

Lemma returns_only_for_each {A S} (Q : S -> Prop) (l : list A)
    (body : S -> A -> Prog S) (s : S) :
  (forall s a, Q s -> returns_only Q (body s a)) -> Q s ->
  returns_only Q (for_each l body s).
Proof.
  intros Hb. revert s. induction l as [|a l IH]; intros s Hs; simpl; [exact Hs|].
  eapply returns_only_bind; [now apply Hb|]. intros s' Hs'. now apply IH.
Qed.

Section Limits.

Import LocalExecutor.

Context {num : Numerics}.

Variable self : Executor.

Lemma no_sandbox_executes_with (L : list Z) {A} (p : Prog A) :
  issues_only (fun c => negb (uses_sandbox c)) p ->
  issues_only (executes_with L) p.
Proof.
  apply issues_only_impl. now intros [].
Qed.

Lemma PrepareFile_keeps_limits info tmpdir options input_files :
  returns_only (fun r => limits_of (fst r) = limits_of options)
    (PrepareFile self info tmpdir options input_files).
Proof.
  unfold PrepareFile.
  eapply (returns_only_bind
            (fun r : string * ExecutionOptions =>
               limits_of (snd r) = limits_of options)).
  - destruct (FileType_eqb (type info) STDIN); [reflexivity|].
    destruct (has_illegal_char (name info)); [exact I|reflexivity].
  - intros [n o] Ho. simpl in Ho. cbn [bind call].
    intros [e|u]; [exact I|]. cbn [bind].
    destruct (executable info); [|exact Ho].
    cbn [bind call]. intros [e|u']; [exact I|exact Ho].
Qed.

Lemma stage_input_keeps_limits request tmp (L : list Z) st input :
  limits_of (fst (fst st)) = L ->
  returns_only (fun st' => limits_of (fst (fst st')) = L)
    (stage_input self request tmp st input).
Proof.
  destruct st as [[o fs] l]. cbn [fst]. intros Ho. unfold stage_input.
  eapply returns_only_bind; [apply PrepareFile_keeps_limits|].
  intros [o' fs'] Ho'. cbn [fst] in Ho'.
  destruct (String.eqb _ _); cbn; congruence.
Qed.

Lemma RetrieveFile_no_sandbox info tmpdir response :
  issues_only (fun c => negb (uses_sandbox c))
    (RetrieveFile self info tmpdir response).
Proof.
  unfold RetrieveFile. apply issues_only_bind.
  - destruct (_ || _); [exact I|].
    destruct (has_illegal_char (name info)); exact I.
  - intros n. apply issues_only_bind; [now apply issues_only_call|].
    intros hash. apply issues_only_bind; [now apply issues_only_call|].
    intros; exact I.
Qed.

Lemma retrieve_outputs_no_sandbox request tmp response :
  issues_only (fun c => negb (uses_sandbox c))
    (retrieve_outputs self request tmp response).
Proof.
  unfold retrieve_outputs.
  apply issues_only_bind; [apply RetrieveFile_no_sandbox|]. intros r1.
  apply issues_only_bind; [apply RetrieveFile_no_sandbox|]. intros r2.
  apply issues_only_for_each. intros r info. unfold retrieve_declared.
  apply issues_only_try_catch; [apply RetrieveFile_no_sandbox|].
  intros [m|m|code m|m|]; try exact I.
  destruct (negb (code =? ENOENT)); [exact I|].
  destruct (Status_eqb (status r) SUCCESS); exact I.
Qed.

Lemma guarded_execute_limits request options :
  issues_only (executes_with (limits_of options))
    (guarded_execute request options).
Proof.
  unfold guarded_execute. apply issues_only_bind; [now apply issues_only_call|].
  intros _. apply issues_only_with_destructor; [|now apply issues_only_call].
  apply issues_only_bind.
  - apply issues_only_call. cbn. now apply bool_decide_eq_true.
  - intros [[ok result] msg]. now destruct ok.
Qed.

Lemma execute_sandbox_limits request tmp :
  issues_only (executes_with (requested_limits request))
    (execute_sandbox self request tmp).
Proof.
  unfold execute_sandbox. apply issues_only_bind.
  { destruct (keep_sandbox request); [now apply issues_only_call|exact I]. }
  intros _. apply issues_only_bind; [now apply issues_only_call|]. intros _.
  eapply (issues_only_bind_post _
            (fun st : ExecutionOptions * list string * bool =>
               limits_of (fst (fst st)) = requested_limits request)).
  - apply no_sandbox_executes_with, issues_only_for_each.
    intros. apply stage_input_no_sandbox.
  - apply returns_only_for_each; [|reflexivity].
    intros st a Hst. now apply stage_input_keeps_limits.
  - intros [[o fs] l] Ho. cbn [fst] in Ho.
    apply issues_only_bind; [now apply issues_only_call|]. intros _.
    apply issues_only_bind.
    + destruct l; [|exact I].
      apply issues_only_bind; [now apply issues_only_call|].
      intros [ok msg]. now destruct ok.
    + intros _.
      replace (requested_limits request)
        with (limits_of (set_stdout_stderr (File.JoinPath tmp "stdout")
                           (File.JoinPath tmp "stderr") o))
        by exact Ho.
      apply guarded_execute_limits.
Qed.

(** Whenever [Execute] runs the sandbox, the options carry the limits
    derived from the request: the CPU and wall limits and the memory limit
    scaled, the five other limits as requested. *)
Lemma sandbox_receives_requested_limits
    {W : Type} (h : handler W) (w : W) (request : Request) options outcome :
  In (Ev (SandboxExecute options) outcome)
    (trace_of (run h (Execute self request) w)) ->
  limits_of options = requested_limits request.
Proof.
  assert (Hi : issues_only (executes_with (requested_limits request))
                 (Execute self request)).
  { unfold Execute. destruct (negb (fifo_size request =? 0)); [exact I|].
    apply issues_only_bind.
    { apply no_sandbox_executes_with. unfold materialize_inputs.
      apply issues_only_for_each. intros. apply MaybeRequestFile_no_sandbox. }
    intros _. apply issues_only_bind.
    { apply no_sandbox_executes_with, TempDir_ctor_no_sandbox. }
    intros tmp. apply issues_only_with_destructor.
    - unfold Execute_in. apply issues_only_bind; [apply execute_sandbox_limits|].
      intros info. apply no_sandbox_executes_with, retrieve_outputs_no_sandbox.
    - apply no_sandbox_executes_with, TempDir_dtor_no_sandbox. }
  intros Hin. pose proof (issues_only_run h _ _ w Hi) as HF.
  rewrite Forall_forall in HF. apply list_elem_of_In in Hin.
  specialize (HF _ Hin). cbn in HF. now apply bool_decide_eq_true in HF.
Qed.

End Limits.

(* ===================================================================== *)
(** ** ThreadGuard *)
(* ===================================================================== *)

Section ThreadGuardFacts.

Import ThreadGuard.

Variable max : Z.
Hypothesis max_is_size_t : 0 <= max < 2 ^ 64.

Lemma guard_inv_initial : guard_inv max initial.
Proof.
  unfold guard_inv, initial; simpl. split; [lia|]. left. split; [constructor|lia].
Qed.

Lemma Forall_list_delete {A} (P : A -> Prop) (l : list A) (i : nat) :
  Forall P l -> Forall P (delete i l).
Proof.
  intros H. revert i. induction H as [|x l Hx Hl IH]; intros i.
  - destruct i; constructor.
  - destruct i; simpl; [assumption|]. constructor; [assumption|apply IH].
Qed.

Lemma length_list_delete {A} (l : list A) (i : nat) (x : A) :
  l !! i = Some x -> length l = S (length (delete i l)).
Proof.
  revert i. induction l as [|y l IH]; intros i H.
  - destruct i; discriminate.
  - destruct i; simpl in *; [reflexivity|]. f_equal. now apply IH.
Qed.

Lemma guard_inv_step (s : state) (o : op) :
  guard_inv max s -> guard_inv max (step max s o).
Proof.
  intros [Hr Hs]. destruct o as [e|i]; simpl.
  - unfold ctor. destruct e.
    + destruct (Z.eqb_spec (cur s) 0) as [E|E]; simpl; [|now split].
      split; simpl; [lia|]. right.
      destruct Hs as [[Hf Hc]|[Hf [Hn [Hc Hl]]]].
      * assert (live s = []) as -> by (destruct (live s); [easy|simpl in Hc; lia]).
        repeat split; [repeat constructor|easy|now left].
      * repeat split; [now constructor|easy|right; lia].
    + destruct (Z.eqb_spec (cur s) max) as [E|E]; simpl; [now split|].
      unfold size_t_wrap. rewrite Z.mod_small by lia.
      split; simpl; [lia|].
      destruct Hs as [[Hf Hc]|[Hf [Hn [Hc Hl]]]]; [|lia].
      left. split; [now constructor|lia].
  - destruct (live s !! i) as [e|] eqn:Hi; [|now split].
    pose proof (length_list_delete _ _ _ Hi) as Hlen.
    unfold dtor. destruct e; simpl.
    + destruct Hs as [[Hf Hc]|[Hf [Hn [Hc Hl]]]].
      * rewrite Forall_forall in Hf.
        assert (true = false) by (apply Hf; eapply list_elem_of_lookup_2, Hi).
        discriminate.
      * split; [simpl; lia|]. simpl. destruct Hl as [Hl|Hl].
        -- left.
           assert (delete i (live s) = []) as ->
             by (destruct (delete i (live s)); [easy|simpl in Hlen; lia]).
           split; [constructor|reflexivity].
        -- destruct (delete i (live s)) as [|e' l'] eqn:Hd.
           ++ left. split; [constructor|simpl; lia].
           ++ right. repeat split.
              ** rewrite <- Hd. now apply Forall_list_delete.
              ** easy.
              ** lia.
              ** now right.
    + destruct Hs as [[Hf Hc]|[Hf [Hn [Hc Hl]]]].
      * unfold size_t_wrap. rewrite Z.mod_small by lia.
        split; [simpl; lia|]. simpl. left.
        split; [now apply Forall_list_delete|lia].
      * rewrite Forall_forall in Hf.
        assert (false = true) by (apply Hf; eapply list_elem_of_lookup_2, Hi).
        discriminate.
Qed.

Lemma guard_inv_steps (ops : list op) (s : state) :
  guard_inv max s -> guard_inv max (steps max ops s).
Proof.
  revert s. unfold steps.
  induction ops as [|o ops IH]; intros s H; simpl; [assumption|].
  apply IH, guard_inv_step, H.
Qed.

(** C2. From [cur = 0], after every sequence of constructor and destructor
    calls of admission tokens the counter lies in [[0, max]]; in such a
    state an exclusive acquisition throws exactly when [cur <> 0] and
    otherwise sets [cur] to [max], a non-exclusive one throws exactly when
    [cur = max] and otherwise adds one; the release of an exclusive token
    sets [cur] to 0 and that of a non-exclusive token subtracts one. *)
Theorem admission_counter_bounded (ops : list op) :
  let s := steps max ops initial in
  0 <= cur s <= max
  /\ ((exists m, ctor max (cur s) true = inl (too_many_executions m))
      <-> cur s <> 0)
  /\ (cur s = 0 -> ctor max (cur s) true = inr max)
  /\ ((exists m, ctor max (cur s) false = inl (too_many_executions m))
      <-> cur s = max)
  /\ (cur s <> max -> ctor max (cur s) false = inr (cur s + 1))
  /\ (forall i, live s !! i = Some true ->
        cur (step max s (Release i)) = 0)
  /\ (forall i, live s !! i = Some false ->
        cur (step max s (Release i)) = cur s - 1).
Proof.
  intros s.
  assert (guard_inv max s) as [Hr Hs] by apply guard_inv_steps, guard_inv_initial.
  split; [exact Hr|].
  split.
  { unfold ctor. destruct (Z.eqb_spec (cur s) 0) as [E|E]; simpl.
    - split; [intros [m H]; discriminate|congruence].
    - split; [easy|]. intros _. eexists. reflexivity. }
  split.
  { intros E. unfold ctor. now rewrite E. }
  split.
  { unfold ctor. destruct (Z.eqb_spec (cur s) max) as [E|E]; simpl.
    - split; [easy|]. intros _. eexists. reflexivity.
    - split; [intros [m H]; discriminate|congruence]. }
  split.
  { intros E. unfold ctor. destruct (Z.eqb_spec (cur s) max); [easy|].
    unfold size_t_wrap. rewrite Z.mod_small by lia. reflexivity. }
  split.
  { intros i Hi. simpl. now rewrite Hi. }
  intros i Hi. simpl. rewrite Hi. simpl.
  destruct Hs as [[Hf Hc]|[Hf _]].
  - pose proof (length_list_delete _ _ _ Hi).
    unfold size_t_wrap. rewrite Z.mod_small by lia. reflexivity.
  - rewrite Forall_forall in Hf.
    assert (false = true) by (apply Hf; eapply list_elem_of_lookup_2, Hi).
    discriminate.
Qed.

End ThreadGuardFacts.

(** A worker with four slots: a shared token, then a refused exclusive
    one, releases and an exclusive token. *)
Lemma admission_counter_bounded_witness :
  let ops := [ThreadGuard.Acquire false; ThreadGuard.Acquire true;
              ThreadGuard.Acquire false; ThreadGuard.Release 0;
              ThreadGuard.Release 0; ThreadGuard.Acquire true] in
  0 <= 4 < 2 ^ 64
  /\ ThreadGuard.steps 4 ops ThreadGuard.initial
     = ThreadGuard.mkState 4 [true]
  /\ 0 <= ThreadGuard.cur (ThreadGuard.steps 4 ops ThreadGuard.initial) <= 4.
Proof.
  intros ops.
  assert (H : 0 <= 4 < 2 ^ 64) by lia.
  split; [exact H|]. split; [reflexivity|].
  exact (proj1 (admission_counter_bounded 4 H ops)).
Defined.

(* ===================================================================== *)
(** ** EventQueue *)
(* ===================================================================== *)

Section EventQueueFacts.

Context {Event : Type}.

Import EventQueue.

Local Abbreviation state := (EventQueue.state Event).

Lemma Dequeue_nonempty (q : state) event rest :
  queue_ q = event :: rest ->
  Dequeue q = Some (Some event, mkState rest (stopped_ q)).
Proof.
  intros Hq. unfold Dequeue, cond. rewrite Hq. simpl.
  now rewrite orb_true_r.
Qed.

Lemma Dequeue_stopped_empty (q : state) :
  stopped_ q = true -> queue_ q = [] -> Dequeue q = Some (None, q).
Proof.
  intros Hs Hq. unfold Dequeue, cond. now rewrite Hs, Hq.
Qed.

(** A stopped queue holding [l] answers [length l] calls with the events
    of [l], front first, and is empty afterwards. *)
Lemma Dequeue_n_stopped (l : list Event) :
  Dequeue_n (length l) (mkState l true) = Some (map Some l, mkState [] true).
Proof.
  induction l as [|e l IH]; simpl; [reflexivity|].
  now rewrite IH.
Qed.

Lemma Dequeue_n_app (n m : nat) (q : state) rs q' :
  Dequeue_n n q = Some (rs, q') ->
  Dequeue_n (n + m) q =
    match Dequeue_n m q' with
    | Some (rs', q'') => Some (rs ++ rs', q'')
    | None => None
    end.
Proof.
  revert q rs q'. induction n as [|n IH]; intros q rs q' H; simpl in *.
  - inversion H; subst. now destruct (Dequeue_n m q') as [[? ?]|].
  - destruct (Dequeue q) as [[r q1]|]; [|discriminate].
    destruct (Dequeue_n n q1) as [[rs1 q2]|] eqn:E; [|discriminate].
    inversion H; subst. rewrite (IH _ _ _ E).
    now destruct (Dequeue_n m q') as [[? ?]|].
Qed.

Lemma Enqueue_all_queue (l : list Event) (q : state) :
  queue_ (fold_left (fun q e => Enqueue e q) l q) = queue_ q ++ l.
Proof.
  revert q. induction l as [|e l IH]; intros q; simpl.
  - now rewrite app_nil_r.
  - rewrite IH. simpl. now rewrite <- app_assoc.
Qed.

(** C8. Once [Stop] has been called the queue stays stopped; a stopped
    queue answers the following [Dequeue] calls with the events it holds,
    one per call, in the order they were enqueued, and then with the empty
    optional; on a stopped queue [Dequeue] returns empty exactly when the
    queue is empty; and on a non-empty queue [Dequeue] pops and returns the
    front event, stopped or not. *)
Theorem Dequeue_after_Stop_drains_in_order (q : state) :
  (stopped_ (Stop q) = true /\ queue_ (Stop q) = queue_ q)
  /\ (forall s : state, forall e,
        stopped_ (Enqueue e s) = stopped_ s
        /\ forall r s', Dequeue s = Some (r, s') -> stopped_ s' = stopped_ s)
  /\ (forall l : list Event,
        queue_ (fold_left (fun s e => Enqueue e s) l initial) = l)
  /\ Dequeue_n (length (queue_ q) + 1) (Stop q)
     = Some (map Some (queue_ q) ++ [None], mkState [] true)
  /\ (forall l : list Event,
        (exists s', Dequeue (mkState l true) = Some (None, s')) <-> l = [])
  /\ (forall (b : bool) (event : Event) rest,
        Dequeue (mkState (event :: rest) b)
        = Some (Some event, mkState rest b)).
Proof.
  split; [now split|].
  split.
  { intros s e. split; [reflexivity|].
    intros r s'. unfold Dequeue. destruct (cond s); [|discriminate].
    destruct (queue_ s); intros H; inversion H; reflexivity. }
  split.
  { intros l. rewrite Enqueue_all_queue. reflexivity. }
  split.
  { unfold Stop. simpl.
    rewrite (Dequeue_n_app _ 1 _ _ _ (Dequeue_n_stopped (queue_ q))).
    reflexivity. }
  split.
  { intros l. split.
    - intros [s' H]. destruct l; [reflexivity|]. discriminate H.
    - intros ->. exists (mkState [] true). reflexivity. }
  intros b event rest. now apply Dequeue_nonempty.
Qed.

(** C9. [Enqueue] after [Stop] still appends the event: the queue stays
    stopped, holds the earlier events followed by the new one, and the
    following [Dequeue] calls return all of them, the new event last,
    before [Dequeue] returns the empty optional. *)
Theorem Enqueue_after_Stop_is_delivered (q : state) (event : Event) :
  let s := Enqueue event (Stop q) in
  queue_ s = queue_ q ++ [event]
  /\ stopped_ s = true
  /\ Dequeue_n (length (queue_ q) + 2) s
     = Some (map Some (queue_ q) ++ [Some event; None], mkState [] true).
Proof.
  simpl. split; [reflexivity|]. split; [reflexivity|].
  unfold Enqueue, Stop. simpl.
  replace (length (queue_ q) + 2)%nat
    with (length (queue_ q ++ [event]) + 1)%nat
    by (rewrite length_app; simpl; lia).
  rewrite (Dequeue_n_app _ 1 _ _ _ (Dequeue_n_stopped (queue_ q ++ [event]))).
  simpl. rewrite map_app. simpl. now rewrite <- app_assoc.
Qed.

End EventQueueFacts.

(* ===================================================================== *)
(** ** LocalExecutor: the commands of each phase *)
(* ===================================================================== *)

(** Goes through a program built from calls, binds, loops, scopes and
    case distinctions, for a predicate that computes on each command. *)
Ltac issues_only_tac :=
  repeat first
    [ exact I
    | apply issues_only_call; reflexivity
    | apply issues_only_bind
    | apply issues_only_for_each
    | apply issues_only_with_destructor
    | apply issues_only_try_catch
    | progress intros
    | match goal with
      | |- issues_only _ (if ?b then _ else _) => destruct b
      | |- issues_only _ (match ?x with _ => _ end) => destruct x
      | |- issues_only _ (let '_ := ?x in _) => destruct x
      end ].

(** The same for programs without destructors. *)
Ltac no_destructor_tac :=
  repeat first
    [ exact I
    | apply no_destructor_call
    | apply no_destructor_bind
    | apply no_destructor_for_each
    | apply no_destructor_try_catch
    | progress intros
    | match goal with
      | |- no_destructor (if ?b then _ else _) => destruct b
      | |- no_destructor (match ?x with _ => _ end) => destruct x
      | |- no_destructor (let '_ := ?x in _) => destruct x
      end ].

Section Phases.

Import LocalExecutor.

Context {num : Numerics}.

Variable self : Executor.

Lemma materialize_inputs_kinds request :
  issues_only (of_kinds [KFileSize; KFileWriteContents; KFileWriteFetched])
    (materialize_inputs self request).
Proof. unfold materialize_inputs, MaybeRequestFile. issues_only_tac. Qed.

Lemma TempDir_ctor_kinds base :
  issues_only (of_kinds [KFileMakeDirs; KOsTempDir; KErrno]) (TempDir.ctor base).
Proof. unfold TempDir.ctor. issues_only_tac. Qed.

Lemma PrepareFile_kinds info tmpdir options input_files :
  issues_only (of_kinds [KFileCopy; KFileMakeExecutable])
    (PrepareFile self info tmpdir options input_files).
Proof. unfold PrepareFile. issues_only_tac. Qed.

Lemma stage_inputs_kinds request tmp l st :
  issues_only (of_kinds [KFileCopy; KFileMakeExecutable])
    (for_each l (stage_input self request tmp) st).
Proof.
  apply issues_only_for_each. intros [[o fs] b] a. unfold stage_input.
  apply issues_only_bind; [apply PrepareFile_kinds|]. issues_only_tac.
Qed.

Lemma guarded_execute_kinds request options :
  issues_only
    (of_kinds [KThreadGuardAcquire; KSandboxExecute; KThreadGuardRelease])
    (guarded_execute request options).
Proof. unfold guarded_execute. issues_only_tac. Qed.

Lemma retrieve_outputs_kinds request tmp response :
  issues_only (of_kinds [KFileHash; KFileCopy])
    (retrieve_outputs self request tmp response).
Proof.
  unfold retrieve_outputs, retrieve_declared, RetrieveFile. issues_only_tac.
Qed.

Lemma execute_sandbox_kinds request tmp :
  issues_only
    (of_kinds [KWriteCommandFile; KFileMakeDirs; KFileCopy;
               KFileMakeExecutable; KSandboxCreate;
               KSandboxPrepareForExecution; KThreadGuardAcquire;
               KSandboxExecute; KThreadGuardRelease])
    (execute_sandbox self request tmp).
Proof.
  unfold execute_sandbox.
  apply issues_only_bind; [issues_only_tac|]. intros _.
  apply issues_only_bind; [issues_only_tac|]. intros _.
  apply issues_only_bind.
  { eapply issues_only_impl; [|apply stage_inputs_kinds]. now intros []. }
  intros [[o fs] b].
  apply issues_only_bind; [issues_only_tac|]. intros _.
  apply issues_only_bind; [issues_only_tac|]. intros _.
  eapply issues_only_impl; [|apply guarded_execute_kinds]. now intros [].
Qed.

Lemma Execute_in_kinds request tmp :
  issues_only
    (of_kinds [KWriteCommandFile; KFileMakeDirs; KFileCopy;
               KFileMakeExecutable; KSandboxCreate;
               KSandboxPrepareForExecution; KThreadGuardAcquire;
               KSandboxExecute; KThreadGuardRelease; KFileHash])
    (Execute_in self request tmp).
Proof.
  unfold Execute_in. apply issues_only_bind.
  - eapply issues_only_impl; [|apply execute_sandbox_kinds]. now intros [].
  - intros info. eapply issues_only_impl; [|apply retrieve_outputs_kinds].
    now intros [].
Qed.

End Phases.

(* ===================================================================== *)
(** ** LocalExecutor: the temporary directory *)
(* ===================================================================== *)

Lemma view_app ks (a b : list event) : view ks (a ++ b) = view ks a ++ view ks b.
Proof. apply List.filter_app. Qed.

Lemma view_nil_of_kinds ks ks' (tr : list event) :
  Forall (fun ev => of_kinds ks (ev_cmd ev) = true) tr ->
  (forall c, of_kinds ks c = true -> of_kinds ks' c = false) ->
  view ks' tr = [].
Proof.
  intros H Hd. induction H as [|ev tr Hev _ IH]; [reflexivity|].
  unfold view in *. cbn [List.filter]. now rewrite (Hd _ Hev).
Qed.

Lemma in_of_kinds ks (tr : list event) ev :
  Forall (fun ev => of_kinds ks (ev_cmd ev) = true) tr -> In ev tr ->
  of_kinds ks (ev_cmd ev) = true.
Proof.
  intros H Hin. rewrite Forall_forall in H. apply H. now apply list_elem_of_In.
Qed.

Lemma in_view ks (tr : list event) ev :
  In ev tr -> of_kinds ks (ev_cmd ev) = true -> In ev (view ks tr).
Proof. intros Hin Hk. apply List.filter_In. now split. Qed.

Section TempDirectory.

Import LocalExecutor.

Context {num : Numerics} {W : Type}.

Variable self : Executor.
Variable h : handler W.

(** The runs of [TempDir::TempDir]: the directory it returns is not the
    empty path and is the answer of [OsTempDir]; when it throws, no
    directory was created. *)
Lemma TempDir_ctor_runs base (w : W) :
  let r := run h (TempDir.ctor base) w in
  match result_of r with
  | inr tmp =>
      tmp <> "" /\ In (Ev (OsTempDir base) (inr tmp)) (trace_of r)
      /\ forall ev t, In ev (trace_of r) -> created_directory ev = Some t ->
                      t = tmp
  | inl _ =>
      forall ev t, In ev (trace_of r) -> created_directory ev = Some t ->
                   t = ""
  end.
Proof.
  unfold TempDir.ctor. cbn [bind run call].
  destruct (h (FileMakeDirs base) w) as [w1 [e|u]]; cbn.
  { intros ev t [<-|[]]. discriminate. }
  destruct (h (OsTempDir base) w1) as [w2 [e|tmp]]; cbn.
  { intros ev t [<-|[<-|[]]]; discriminate. }
  destruct (String.eqb_spec tmp "") as [->|Hne]; cbn.
  - destruct (h Errno w2) as [w3 [e|errno]]; cbn;
      intros ev t [<-|[<-|[<-|[]]]]; cbn; congruence.
  - split; [exact Hne|]. split; [tauto|].
    intros ev t [<-|[<-|[]]]; cbn; congruence.
Qed.

Lemma TempDir_dtor_trace tmp keep_ (w : W) :
  trace_of (run h (TempDir.dtor tmp keep_) w)
  = if keep_ then []
    else [Ev (FileRemoveTree tmp) (snd (h (FileRemoveTree tmp) w))].
Proof.
  unfold TempDir.dtor, TempDir.RemoveTree. destruct keep_; [reflexivity|].
  cbn [negb run call]. now destruct (h (FileRemoveTree tmp) w) as [w1 [e|u]].
Qed.

Lemma releases_cleanly_of_kinds ks (tr : list event) :
  existsb (kind_eqb KThreadGuardRelease) ks = false ->
  Forall (fun ev => of_kinds ks (ev_cmd ev) = true) tr ->
  releases_cleanly tr.
Proof.
  intros Hk Htr. eapply Forall_impl; [exact Htr|].
  intros ev Hev E. unfold of_kinds in Hev. rewrite E in Hev. congruence.
Qed.

Lemma ends_at_release_bind_before {A B} e ks (p : Prog A) (f : A -> Prog B)
    (w : W) :
  no_destructor p -> issues_only (of_kinds ks) p ->
  existsb (kind_eqb KThreadGuardRelease) ks = false ->
  (forall a w1, ends_at_release e (trace_of (run h (f a) w1))
                  (terminated h (f a) w1)) ->
  ends_at_release e (trace_of (run h (bind p f) w))
    (terminated h (bind p f) w).
Proof.
  intros Hn Hp Hk Hf. rewrite run_bind, terminated_bind.
  pose proof (issues_only_run h _ _ w Hp) as Htr.
  apply (releases_cleanly_of_kinds _ _ Hk) in Htr.
  rewrite (no_destructor_run h p w Hn).
  destruct (run h p w) as [[tr w1] [x|a]]; cbn [trace_of fst] in *.
  - exact Htr.
  - specialize (Hf a w1). destruct (run h (f a) w1) as [[tr2 w2] res].
    cbn [trace_of fst] in *. unfold ends_at_release in *.
    destruct (terminated h (f a) w1).
    + destruct Hf as (tr0 & x & -> & Hc). exists (tr ++ tr0), x.
      split; [now rewrite <- app_assoc|]. apply Forall_app. now split.
    + apply Forall_app. now split.
Qed.

Lemma ends_at_release_bind_after {A B} e ks (p : Prog A) (f : A -> Prog B)
    (w : W) :
  ends_at_release e (trace_of (run h p w)) (terminated h p w) ->
  (forall a, no_destructor (f a)) -> (forall a, issues_only (of_kinds ks) (f a)) ->
  existsb (kind_eqb KThreadGuardRelease) ks = false ->
  ends_at_release e (trace_of (run h (bind p f) w))
    (terminated h (bind p f) w).
Proof.
  intros Hp Hn Hf Hk. rewrite run_bind, terminated_bind.
  pose proof (terminated_result h p w) as Ht.
  destruct (run h p w) as [[tr w1] [x|a]]; cbn [trace_of result_of fst snd] in *.
  - exact Hp.
  - destruct (terminated h p w); [now discriminate Ht|].
    pose proof (issues_only_run h _ _ w1 (Hf a)) as Htr.
    apply (releases_cleanly_of_kinds _ _ Hk) in Htr.
    rewrite (no_destructor_run h (f a) w1 (Hn a)).
    destruct (run h (f a) w1) as [[tr2 w2] res]. cbn [trace_of fst] in *.
    apply Forall_app. now split.
Qed.

Lemma guarded_execute_ends request options (w : W) :
  ends_at_release (exclusive request)
    (trace_of (run h (guarded_execute request options) w))
    (terminated h (guarded_execute request options) w).
Proof.
  unfold guarded_execute.
  cbn [bind run terminated call with_destructor after_destructor].
  destruct (h (ThreadGuardAcquire (exclusive request)) w) as [w1 [x|[]]].
  { cbn. constructor; [discriminate|constructor]. }
  cbn [bind run terminated call with_destructor after_destructor].
  destruct (h (SandboxExecute options) w1) as [w2 r].
  assert (Hshape : forall rr,
             ends_at_release (exclusive request)
               [Ev (ThreadGuardAcquire (exclusive request)) (inr tt);
                Ev (SandboxExecute options) r;
                Ev (ThreadGuardRelease (exclusive request)) rr]
               (match rr with inl _ => true | inr _ => false end)).
  { intros [x|u]; cbn.
    - exists [Ev (ThreadGuardAcquire (exclusive request)) (inr tt);
              Ev (SandboxExecute options) r], x.
      split; [reflexivity|]. repeat constructor; discriminate.
    - repeat constructor; discriminate. }
  destruct r as [x|[[ok info] msg]];
    cbn [bind run terminated call with_destructor after_destructor];
    [|destruct ok;
      cbn [bind run terminated call with_destructor after_destructor]];
    specialize (Hshape
                  (snd (h (ThreadGuardRelease (exclusive request)) w2)));
    destruct (h (ThreadGuardRelease (exclusive request)) w2) as [w3 [er|[]]];
    exact Hshape.
Qed.

Lemma stage_inputs_no_destructor request tmp l st :
  no_destructor (for_each l (stage_input self request tmp) st).
Proof.
  apply no_destructor_for_each. intros [[o fs] b] a.
  unfold stage_input, PrepareFile. no_destructor_tac.
Qed.

Lemma retrieve_outputs_no_destructor request tmp response :
  no_destructor (retrieve_outputs self request tmp response).
Proof.
  unfold retrieve_outputs, retrieve_declared, RetrieveFile. no_destructor_tac.
Qed.

(** How a run of the body of [Execute] ends: by the release of the token
    that threw, when the process was terminated. *)
Lemma Execute_in_ends request tmp (w : W) :
  ends_at_release (exclusive request)
    (trace_of (run h (Execute_in self request tmp) w))
    (terminated h (Execute_in self request tmp) w).
Proof.
  unfold Execute_in.
  eapply (ends_at_release_bind_after _ [KFileHash; KFileCopy]);
    [|intros; apply retrieve_outputs_no_destructor
     |intros; apply retrieve_outputs_kinds|reflexivity].
  unfold execute_sandbox.
  eapply (ends_at_release_bind_before _ [KWriteCommandFile]);
    [no_destructor_tac|issues_only_tac|reflexivity|]. intros _ w1.
  eapply (ends_at_release_bind_before _ [KFileMakeDirs]);
    [no_destructor_tac|issues_only_tac|reflexivity|]. intros _ w2.
  eapply ends_at_release_bind_before;
    [apply stage_inputs_no_destructor|apply stage_inputs_kinds|reflexivity|].
  intros [[o fs] b] w3.
  eapply (ends_at_release_bind_before _ [KSandboxCreate]);
    [no_destructor_tac|issues_only_tac|reflexivity|]. intros _ w4.
  eapply (ends_at_release_bind_before _ [KSandboxPrepareForExecution]);
    [no_destructor_tac|issues_only_tac|reflexivity|]. intros _ w5.
  apply guarded_execute_ends.
Qed.

(** X1. The temporary directory of a request is removed on every exit
    path of [Execute] that unwinds, by return or by exception, unless the
    request keeps its sandbox: [RemoveTree] of the created directory is
    then the last command of the run and the only removal.  The exception
    is a release of the admission token that throws: it ends the process
    as the last command of the run, and the directory is not removed.
    When the sandbox is kept nothing is removed; and nothing but the
    directory [OsTempDir] returned is ever removed. *)
Theorem temp_directory_removed_on_every_exit (request : Request) (w : W) :
  let r := run h (Execute self request) w in
  let tr := trace_of r in
  (keep_sandbox request = true -> view [KFileRemoveTree] tr = [])
  /\ (keep_sandbox request = false ->
      forall tmp, tmp <> "" ->
        In (Ev (OsTempDir (temp_directory_ self)) (inr tmp)) tr ->
        (exists tr0 outcome,
            tr = tr0 ++ [Ev (FileRemoveTree tmp) outcome]
            /\ view [KFileRemoveTree] tr0 = []
            /\ releases_cleanly tr0)
        \/ (exists tr0 x,
              tr = tr0 ++ [Ev (ThreadGuardRelease (exclusive request)) (inl x)]))
  /\ (forall x,
        In (Ev (ThreadGuardRelease (exclusive request)) (inl x)) tr ->
        (exists tr0,
            tr = tr0 ++ [Ev (ThreadGuardRelease (exclusive request)) (inl x)])
        /\ view [KFileRemoveTree] tr = []
        /\ result_of r = inl std_terminate)
  /\ (forall path outcome,
        In (Ev (FileRemoveTree path) outcome) tr ->
        In (Ev (OsTempDir (temp_directory_ self)) (inr path)) tr).
Proof.
  cbv zeta. unfold Execute. destruct (negb (fifo_size request =? 0)).
  { cbn. split; [reflexivity|].
    split; [intros _ tmp _ []|]. split; [intros ? []|intros ? ? []]. }
  rewrite run_bind.
  pose proof (issues_only_run h _ _ w (materialize_inputs_kinds self request))
    as Hm.
  destruct (run h (materialize_inputs self request) w) as [[trm wm] [e|u]].
  { cbn [trace_of fst] in *. split; [|split; [|split]].
    - intros _. eapply view_nil_of_kinds; [exact Hm|]. now intros [].
    - intros _ tmp _ Hin. pose proof (in_of_kinds _ _ _ Hm Hin) as Hk.
      discriminate Hk.
    - intros x Hin. pose proof (in_of_kinds _ _ _ Hm Hin) as Hk.
      discriminate Hk.
    - intros path outcome Hin. pose proof (in_of_kinds _ _ _ Hm Hin) as Hk.
      discriminate Hk. }
  rewrite run_bind.
  pose proof (TempDir_ctor_runs (temp_directory_ self) wm) as Hc.
  pose proof (issues_only_run h _ _ wm (TempDir_ctor_kinds (temp_directory_ self)))
    as Hck.
  cbv zeta in Hc.
  destruct (run h (TempDir.ctor (temp_directory_ self)) wm)
    as [[trc wc] [e|tmp]]; cbn [trace_of result_of fst snd] in *.
  { split; [|split; [|split]].
    - intros _. rewrite view_app. erewrite !view_nil_of_kinds;
        [reflexivity|exact Hck|now intros []|exact Hm|now intros []].
    - intros _ tmp Hne Hin. exfalso. apply Hne.
      apply in_app_or in Hin as [Hin|Hin].
      + pose proof (in_of_kinds _ _ _ Hm Hin) as Hk. discriminate Hk.
      + now apply (Hc _ tmp Hin).
    - intros x Hin. exfalso.
      apply in_app_or in Hin as [Hin|Hin].
      + pose proof (in_of_kinds _ _ _ Hm Hin) as Hk. discriminate Hk.
      + pose proof (in_of_kinds _ _ _ Hck Hin) as Hk. discriminate Hk.
    - intros path outcome Hin. exfalso.
      apply in_app_or in Hin as [Hin|Hin].
      + pose proof (in_of_kinds _ _ _ Hm Hin) as Hk. discriminate Hk.
      + pose proof (in_of_kinds _ _ _ Hck Hin) as Hk. discriminate Hk. }
  destruct Hc as (Hne & Hin & Huniq).
  rewrite run_with_destructor.
  pose proof (issues_only_run h _ _ wc (Execute_in_kinds self request tmp))
    as Hi.
  pose proof (Execute_in_ends request tmp wc) as He.
  pose proof (terminated_result h (Execute_in self request tmp) wc) as Ht.
  destruct (run h (Execute_in self request tmp) wc) as [[tri wi] ri].
  cbn [trace_of result_of fst snd] in Hi, He, Ht.
  assert (Hpre : view [KFileRemoveTree] (trm ++ trc ++ tri) = []).
  { rewrite !view_app. erewrite !view_nil_of_kinds;
      [reflexivity|exact Hi|now intros []|exact Hck|now intros []
      |exact Hm|now intros []]. }
  assert (Hcreated : forall tmp',
             In (Ev (OsTempDir (temp_directory_ self)) (inr tmp'))
               (trm ++ trc ++ tri) -> tmp' = tmp).
  { intros tmp' Hin'.
    apply in_app_or in Hin' as [Hin'|Hin'].
    { pose proof (in_of_kinds _ _ _ Hm Hin') as Hk. discriminate Hk. }
    apply in_app_or in Hin' as [Hin'|Hin'];
      [now apply (Huniq _ tmp' Hin')|].
    pose proof (in_of_kinds _ _ _ Hi Hin') as Hk. discriminate Hk. }
  assert (Hrel : forall x,
             In (Ev (ThreadGuardRelease (exclusive request)) (inl x))
               (trm ++ trc ++ tri) ->
             In (Ev (ThreadGuardRelease (exclusive request)) (inl x)) tri).
  { intros x Hx.
    apply in_app_or in Hx as [Hx|Hx].
    { pose proof (in_of_kinds _ _ _ Hm Hx) as Hk. discriminate Hk. }
    apply in_app_or in Hx as [Hx|Hx]; [|exact Hx].
    pose proof (in_of_kinds _ _ _ Hck Hx) as Hk. discriminate Hk. }
  assert (Hclean : forall (tr0 : list event) x,
             releases_cleanly tr0 ->
             ~ In (Ev (ThreadGuardRelease (exclusive request)) (inl x)) tr0).
  { intros tr0 x Hc Hx. unfold releases_cleanly in Hc.
    rewrite Forall_forall in Hc. apply list_elem_of_In in Hx.
    specialize (Hc _ Hx eq_refl). discriminate Hc. }
  destruct (terminated h (Execute_in self request tmp) wc).
  - (* the release of the token threw *)
    cbn [trace_of result_of fst snd]. destruct He as (tr0 & x & -> & Hc0).
    split; [intros _; exact Hpre|]. split; [|split].
    + intros _ tmp' _ _. right. exists (trm ++ trc ++ tr0), x.
      now rewrite <- !app_assoc.
    + intros x' Hx'. split; [|split; [exact Hpre|now apply Ht]].
      apply Hrel in Hx'. exists (trm ++ trc ++ tr0).
      rewrite <- !app_assoc.
      apply in_app_or in Hx' as [Hx'|[Hx'|[]]];
        [now apply Hclean in Hx'|now rewrite Hx'].
    + intros path outcome Hp. exfalso.
      pose proof (in_view [KFileRemoveTree] _ _ Hp eq_refl) as Hv.
      now rewrite Hpre in Hv.
  - pose proof (TempDir_dtor_trace tmp (keep_sandbox request) wi) as Hd.
    destruct (run h (TempDir.dtor tmp (keep_sandbox request)) wi)
      as [[trd wd] rd].
    cbn [trace_of result_of fst snd] in *. subst trd.
    assert (Hall : releases_cleanly (trm ++ trc ++ tri)).
    { repeat (apply Forall_app; split); [| |exact He].
      - eapply releases_cleanly_of_kinds; [|exact Hm]. reflexivity.
      - eapply releases_cleanly_of_kinds; [|exact Hck]. reflexivity. }
    destruct (keep_sandbox request).
    + rewrite app_nil_r. split; [intros _; exact Hpre|].
      split; [discriminate|]. split.
      * intros x Hx. now apply Hclean in Hx.
      * intros path outcome Hp. exfalso.
        pose proof (in_view [KFileRemoveTree] _ _ Hp eq_refl) as Hv.
        now rewrite Hpre in Hv.
    + set (o := snd (h (FileRemoveTree tmp) wi)).
      split; [discriminate|]. split; [|split].
      * intros _ tmp' Hne' Hin'.
        assert (tmp' = tmp) as ->.
        { apply Hcreated. rewrite !app_assoc in Hin'.
          apply in_app_or in Hin' as [Hin'|[Hin'|[]]];
            [now rewrite <- !app_assoc in Hin'|].
          apply (f_equal ev_cmd) in Hin'. discriminate Hin'. }
        left. exists (trm ++ trc ++ tri), o.
        split; [now rewrite <- !app_assoc|]. now split.
      * intros x Hx. exfalso. rewrite !app_assoc in Hx.
        apply in_app_or in Hx as [Hx|[Hx|[]]].
        -- rewrite <- !app_assoc in Hx. now apply Hclean in Hx.
        -- apply (f_equal ev_cmd) in Hx. discriminate Hx.
      * intros path outcome Hp.
        assert (path = tmp) as ->.
        { rewrite !app_assoc in Hp.
          apply in_app_or in Hp as [Hp|[Hp|[]]].
          - rewrite <- !app_assoc in Hp.
            pose proof (in_view [KFileRemoveTree] _ _ Hp eq_refl) as Hv.
            now rewrite Hpre in Hv.
          - apply (f_equal ev_cmd) in Hp. cbn in Hp. congruence. }
        apply in_or_app. right. apply in_or_app. now left.
Qed.

End TempDirectory.

(* ===================================================================== *)
(** ** LocalExecutor: the phases of a run *)
(* ===================================================================== *)

Lemma Forall_of_kinds_incl ks ks' (tr : list event) :
  (forall c, of_kinds ks c = true -> of_kinds ks' c = true) ->
  Forall (fun ev => of_kinds ks (ev_cmd ev) = true) tr ->
  Forall (fun ev => of_kinds ks' (ev_cmd ev) = true) tr.
Proof. intros H Htr. eapply Forall_impl; [exact Htr|]. intros ev. apply H. Qed.

Section Phased.

Context {W : Type}.

Variable h : handler W.
Variable exclusive_ : bool.

Lemma phased_bind_before {A B} ks (p : Prog A) (f : A -> Prog B) (w : W) :
  issues_only (of_kinds ks) p ->
  (forall c, of_kinds ks c = true -> of_kinds before_kinds c = true) ->
  (forall a w1, phased exclusive_ (trace_of (run h (f a) w1))
                  (result_of (run h (f a) w1))) ->
  phased exclusive_ (trace_of (run h (bind p f) w))
    (result_of (run h (bind p f) w)).
Proof.
  intros Hp Hk Hf. rewrite run_bind.
  pose proof (issues_only_run h _ _ w Hp) as Htr.
  apply (Forall_of_kinds_incl _ _ _ Hk) in Htr.
  destruct (run h p w) as [[tr w1] [e|a]]; cbn [trace_of fst] in Htr.
  - exists tr, [], []. cbn. rewrite app_nil_r.
    split; [reflexivity|]. split; [exact Htr|]. split; [constructor|].
    left. split; [reflexivity|]. split; [now exists e|constructor].
  - specialize (Hf a w1).
    destruct (run h (f a) w1) as [[tr2 w2] res].
    destruct Hf as (before & g & after & Heq & Hb & Ha & Hs).
    cbn [trace_of result_of fst snd] in *. subst tr2.
    exists (tr ++ before), g, after. rewrite <- app_assoc.
    split; [reflexivity|]. split; [now apply Forall_app|]. now split.
Qed.

Lemma phased_bind_after {A B} ks (p : Prog A) (f : A -> Prog B) (w : W) :
  phased exclusive_ (trace_of (run h p w)) (result_of (run h p w)) ->
  (forall a, issues_only (of_kinds ks) (f a)) ->
  (forall c, of_kinds ks c = true -> of_kinds after_kinds c = true) ->
  phased exclusive_ (trace_of (run h (bind p f) w))
    (result_of (run h (bind p f) w)).
Proof.
  intros Hp Hf Hk. rewrite run_bind.
  destruct (run h p w) as [[tr w1] [e|a]];
    cbn [trace_of result_of fst snd] in *.
  - destruct Hp as (before & g & after & Heq & Hb & Ha & Hs).
    exists before, g, after. repeat split; try assumption.
    destruct Hs as [(-> & _ & Hr)|[(x & -> & Hx & Hr)|(o & r & rr & -> & Hs)]].
    + left. split; [reflexivity|]. split; [now exists e|exact Hr].
    + right. left. exists x. split; [reflexivity|]. split; [|exact Hr].
      destruct Hx as [Hx|Hx]; inversion Hx; auto.
    + right. right. exists o, r, rr. split; [reflexivity|].
      destruct rr as [er|ur]; [|destruct r as [x|[[[] info] msg]]]; try exact I.
      * destruct Hs as [Hs Hr]. inversion Hs. now split.
      * destruct Hs as [[Hs|Hs] Hr]; inversion Hs; auto.
      * destruct Hs as [[Hs|Hs] Hr]; inversion Hs; auto.
  - pose proof (issues_only_run h _ _ w1 (Hf a)) as Htr.
    apply (Forall_of_kinds_incl _ _ _ Hk) in Htr.
    destruct (run h (f a) w1) as [[tr2 w2] res].
    cbn [trace_of fst] in Htr.
    destruct Hp as (before & g & after & -> & Hb & Ha & Hs).
    exists before, g, (after ++ tr2). rewrite <- !app_assoc.
    split; [reflexivity|]. split; [exact Hb|]. split; [now apply Forall_app|].
    destruct Hs as [(_ & [e He] & _)|[(x & _ & [Hx|Hx] & _)|(o & r & rr & -> & Hs)]];
      try discriminate.
    right. right. exists o, r, rr. split; [reflexivity|].
    destruct rr as [er|ur]; [|destruct r as [x|[[[] info] msg]]]; try exact I.
    + destruct Hs as [Hs _]. discriminate.
    + destruct Hs as [[Hs|Hs] _]; discriminate.
    + destruct Hs as [[Hs|Hs] _]; discriminate.
Qed.

Lemma phased_with_destructor {A} (p : Prog A) (d : Prog unit) (w : W) :
  phased exclusive_ (trace_of (run h p w)) (result_of (run h p w)) ->
  issues_only (of_kinds [KFileRemoveTree]) d ->
  phased exclusive_ (trace_of (run h (with_destructor p d) w))
    (result_of (run h (with_destructor p d) w)).
Proof.
  intros Hp Hd. rewrite run_with_destructor.
  destruct (run h p w) as [[tr w1] res].
  destruct (terminated h p w); [exact Hp|].
  pose proof (issues_only_run h _ _ w1 Hd) as Htr.
  destruct (run h d w1) as [[trd wd] rd].
  cbn [trace_of result_of fst snd] in *.
  destruct Hp as (before & g & after & -> & Hb & Ha & Hs).
  exists before, g, (after ++ trd). rewrite <- !app_assoc.
  split; [reflexivity|]. split; [exact Hb|].
  split.
  { apply Forall_app. split; [exact Ha|].
    eapply Forall_of_kinds_incl; [|exact Htr]. now intros []. }
  assert (Hres : forall x : exn,
             res = inl x \/ res = inl std_terminate ->
             match rd with inl _ => inl std_terminate | inr _ => res end
             = @inl exn A x
             \/ match rd with inl _ => inl std_terminate | inr _ => res end
                = @inl exn A std_terminate)
    by (intros x Hx; destruct rd; auto).
  destruct Hs as [(-> & [e He] & Hr)|[(x & -> & Hx & Hr)|(o & r & rr & -> & Hs)]].
  - left. split; [reflexivity|]. split; [|now apply Forall_app].
    destruct rd; eauto.
  - right. left. exists x. split; [reflexivity|].
    split; [now apply Hres|now apply Forall_app].
  - right. right. exists o, r, rr. split; [reflexivity|].
    destruct rr as [er|ur]; [|destruct r as [x|[[[] info] msg]]]; try exact I.
    + destruct Hs as [-> Hr]. split; [now destruct rd|now apply Forall_app].
    + destruct Hs as [Hs Hr]. split; [now apply Hres|now apply Forall_app].
    + destruct Hs as [Hs Hr]. split; [now apply Hres|now apply Forall_app].
Qed.

End Phased.

Section ExecutePhases.

Import LocalExecutor.

Context {num : Numerics} {W : Type}.

Variable self : Executor.
Variable h : handler W.

Lemma guarded_execute_phased request options (w : W) :
  phased (exclusive request)
    (trace_of (run h (guarded_execute request options) w))
    (result_of (run h (guarded_execute request options) w)).
Proof.
  unfold guarded_execute. cbn [bind run call with_destructor after_destructor].
  destruct (h (ThreadGuardAcquire (exclusive request)) w) as [w1 [x|[]]].
  - cbn. exists [], [Ev (ThreadGuardAcquire (exclusive request)) (inl x)], [].
    split; [reflexivity|]. split; [constructor|]. split; [constructor|].
    right. left. exists x. split; [reflexivity|]. split; [now left|constructor].
  - cbn [bind run call with_destructor after_destructor].
    destruct (h (SandboxExecute options) w1) as [w2 r].
    assert (Hshape : forall (res : exn + ExecutionInfo) rr,
               match rr, r with
               | inl _, _ => res = inl std_terminate
               | inr _, inl x => res = inl x
               | inr _, inr (false, _, msg) => res = inl (runtime_error msg)
               | inr _, inr (true, info, _) => res = inr info
               end ->
               phased (exclusive request)
                 [Ev (ThreadGuardAcquire (exclusive request)) (inr tt);
                  Ev (SandboxExecute options) r;
                  Ev (ThreadGuardRelease (exclusive request)) rr] res).
    { intros res rr Hres.
      exists [], [Ev (ThreadGuardAcquire (exclusive request)) (inr tt);
                  Ev (SandboxExecute options) r;
                  Ev (ThreadGuardRelease (exclusive request)) rr], [].
      split; [reflexivity|].
      split; [constructor|]. split; [constructor|].
      right. right. exists options, r, rr. split; [reflexivity|].
      destruct rr as [er|ur]; [|destruct r as [x|[[[] info] msg]]];
        try exact I; (split; [auto|constructor]). }
    destruct r as [x|[[ok info] msg]];
      cbn [bind run call with_destructor after_destructor];
      [|destruct ok; cbn [bind run call with_destructor after_destructor]];
      destruct (h (ThreadGuardRelease (exclusive request)) w2) as [w3 [er|[]]];
      cbn; apply Hshape; reflexivity.
Qed.

Lemma execute_sandbox_phased request tmp (w : W) :
  phased (exclusive request)
    (trace_of (run h (execute_sandbox self request tmp) w))
    (result_of (run h (execute_sandbox self request tmp) w)).
Proof.
  unfold execute_sandbox.
  eapply (phased_bind_before _ _ [KWriteCommandFile]);
    [issues_only_tac|now intros []|]. intros _ w1.
  eapply (phased_bind_before _ _ [KFileMakeDirs]);
    [issues_only_tac|now intros []|]. intros _ w2.
  eapply phased_bind_before;
    [apply stage_inputs_kinds|now intros []|]. intros [[o fs] b] w3.
  eapply (phased_bind_before _ _ [KSandboxCreate]);
    [issues_only_tac|now intros []|]. intros _ w4.
  eapply (phased_bind_before _ _ [KSandboxPrepareForExecution]);
    [issues_only_tac|now intros []|]. intros _ w5.
  apply guarded_execute_phased.
Qed.

(** Every run of [Execute] is in three phases: the commands before the
    guarded block, the block, and the commands after it. *)
Lemma Execute_phased request (w : W) :
  phased (exclusive request) (trace_of (run h (Execute self request) w))
    (result_of (run h (Execute self request) w)).
Proof.
  unfold Execute. destruct (negb (fifo_size request =? 0)).
  { cbn. exists [], [], []. split; [reflexivity|]. split; [constructor|].
    split; [constructor|]. left. split; [reflexivity|].
    split; [eauto|constructor]. }
  eapply phased_bind_before;
    [apply materialize_inputs_kinds|now intros []|]. intros _ w1.
  eapply phased_bind_before;
    [apply TempDir_ctor_kinds|now intros []|]. intros tmp w2.
  apply phased_with_destructor.
  - unfold Execute_in.
    eapply phased_bind_after;
      [apply execute_sandbox_phased
      |intros info; apply retrieve_outputs_kinds
      |now intros []].
  - unfold TempDir.dtor, TempDir.RemoveTree. issues_only_tac.
Qed.

End ExecutePhases.

Lemma view_id ks (tr : list event) :
  Forall (fun ev => of_kinds ks (ev_cmd ev) = true) tr -> view ks tr = tr.
Proof.
  induction 1 as [|ev tr Hev _ IH]; [reflexivity|].
  unfold view in *. cbn [List.filter]. now rewrite Hev, IH.
Qed.

(** A trace with a single event of kind [k] splits at it in one way. *)
Lemma split_at_kind (k : kind) (l1 l2 pre post : list event) x ev :
  l1 ++ x :: l2 = pre ++ ev :: post ->
  kind_of (ev_cmd x) = k -> kind_of (ev_cmd ev) = k ->
  Forall (fun e => kind_of (ev_cmd e) <> k) l1 ->
  Forall (fun e => kind_of (ev_cmd e) <> k) l2 ->
  pre = l1 /\ post = l2.
Proof.
  intros Heq Hx Hev H1 H2. revert pre Heq.
  induction H1 as [|y l1 Hy _ IH]; intros pre Heq.
  - destruct pre as [|p pre]; cbn in Heq.
    + inversion Heq. now split.
    + inversion Heq; subst. rewrite Forall_forall in H2.
      exfalso. apply (H2 ev); [|exact Hev].
      apply list_elem_of_In, in_or_app. right. now left.
  - destruct pre as [|p pre]; cbn in Heq.
    + inversion Heq; subst. now contradict Hy.
    + inversion Heq; subst. destruct (IH pre) as [-> ->]; [assumption|].
      now split.
Qed.

Lemma of_kinds_not_kind ks k (tr : list event) :
  existsb (kind_eqb k) ks = false ->
  Forall (fun ev => of_kinds ks (ev_cmd ev) = true) tr ->
  Forall (fun e => kind_of (ev_cmd e) <> k) tr.
Proof.
  intros Hk Htr. eapply Forall_impl; [exact Htr|].
  intros ev Hev E. unfold of_kinds in Hev. rewrite E in Hev. congruence.
Qed.

Section GuardedBlock.

Import LocalExecutor.

Context {num : Numerics} {W : Type}.

Variable self : Executor.
Variable h : handler W.

(** X2. The admission token never leaks and the sandbox runs under it:
    among the commands of a run of [Execute], those of the guard and of the
    sandbox's execution are none at all, or one refused acquisition, or one
    acquisition, one execution of the sandbox and one release, in this
    order and with the request's flag, whatever the sandbox and the output
    files do. *)
Theorem admission_token_is_released (request : Request) (w : W) :
  let tr := trace_of (run h (Execute self request) w) in
  let e := exclusive request in
  view guard_kinds tr = []
  \/ (exists x, view guard_kinds tr = [Ev (ThreadGuardAcquire e) (inl x)])
  \/ (exists options r rr,
        view guard_kinds tr
        = [Ev (ThreadGuardAcquire e) (inr tt); Ev (SandboxExecute options) r;
           Ev (ThreadGuardRelease e) rr]).
Proof.
  cbv zeta.
  destruct (Execute_phased self h request w)
    as (before & g & after & -> & Hb & Ha & Hs).
  rewrite !view_app.
  rewrite (view_nil_of_kinds _ guard_kinds _ Hb) by now intros [].
  rewrite (view_nil_of_kinds _ guard_kinds _ Ha) by now intros [].
  rewrite app_nil_r. cbn [app].
  destruct Hs as [(-> & _)|[(x & -> & _)|(o & r & rr & -> & _)]].
  - now left.
  - right. left. now exists x.
  - right. right. now exists o, r, rr.
Qed.

(** X3. When the guarded block fails, [Execute] raises the failure and
    extracts no output: a refused admission token is raised as it is and
    the sandbox is not run; an exception of [Sandbox::Execute] is raised as
    it is; and when [Sandbox::Execute] reports failure, the runtime error
    carries its message.  Only a failing removal of the temporary directory
    or release of the token ends the process instead. *)
Theorem guarded_block_failure_raises (request : Request) (w : W) :
  let tr := trace_of (run h (Execute self request) w) in
  let res := result_of (run h (Execute self request) w) in
  (forall x,
     In (Ev (ThreadGuardAcquire (exclusive request)) (inl x)) tr ->
     (res = inl x \/ res = inl std_terminate)
     /\ view [KSandboxExecute; KThreadGuardRelease; KFileHash] tr = [])
  /\ (forall options x,
        In (Ev (SandboxExecute options) (inl x)) tr ->
        (res = inl x \/ res = inl std_terminate)
        /\ view [KFileHash] tr = [])
  /\ (forall options info msg,
        In (Ev (SandboxExecute options) (inr (false, info, msg))) tr ->
        (res = inl (runtime_error msg) \/ res = inl std_terminate)
        /\ view [KFileHash] tr = []).
Proof.
  cbv zeta.
  destruct (Execute_phased self h request w)
    as (before & g & after & Heq & Hb & Ha & Hs).
  rewrite Heq.
  assert (Hin : forall ev,
             In ev (before ++ g ++ after) ->
             of_kinds guard_kinds (ev_cmd ev) = true -> In ev g).
  { intros ev Hev Hk.
    apply in_app_or in Hev as [Hev|Hev]; [|apply in_app_or in Hev as [Hev|Hev]].
    - pose proof (in_of_kinds _ _ _ Hb Hev) as Hk'.
      destruct (ev_cmd ev); discriminate.
    - exact Hev.
    - pose proof (in_of_kinds _ _ _ Ha Hev) as Hk'.
      destruct (ev_cmd ev); discriminate. }
  assert (Hview : forall ks,
             (forall c, of_kinds before_kinds c = true -> of_kinds ks c = false) ->
             (forall c, of_kinds [KFileRemoveTree] c = true ->
                        of_kinds ks c = false) ->
             Forall (fun ev => of_kinds [KFileRemoveTree] (ev_cmd ev) = true)
               after ->
             view ks (before ++ g ++ after) = view ks g).
  { intros ks H1 H2 Hr. rewrite !view_app.
    rewrite (view_nil_of_kinds _ ks _ Hb H1), (view_nil_of_kinds _ ks _ Hr H2).
    now rewrite app_nil_r. }
  split; [|split].
  - intros x Hx. apply Hin in Hx; [|reflexivity].
    destruct Hs as [(-> & _)|[(x' & -> & Hres & Hr)|(o & r & rr & -> & _)]].
    + destruct Hx.
    + destruct Hx as [Hx|[]]. apply (f_equal refused_with) in Hx.
      cbn in Hx. injection Hx as <-. split; [exact Hres|].
      rewrite Hview; [reflexivity|now intros []|now intros []|exact Hr].
    + destruct Hx as [Hx|[Hx|[Hx|[]]]]; apply (f_equal refused_with) in Hx;
        cbn in Hx; discriminate Hx.
  - intros options x Hx. apply Hin in Hx; [|reflexivity].
    destruct Hs as [(-> & _)|[(x' & -> & _)|(o & r & rr & -> & Hs)]].
    + destruct Hx.
    + destruct Hx as [Hx|[]]. apply (f_equal sandbox_outcome) in Hx.
      discriminate Hx.
    + destruct Hx as [Hx|[Hx|[Hx|[]]]]; apply (f_equal sandbox_outcome) in Hx;
        cbn in Hx; try discriminate Hx. injection Hx as ->.
      destruct rr as [er|ur]; destruct Hs as [Hres Hr].
      * split; [now right|].
        rewrite Hview; [reflexivity|now intros []|now intros []|exact Hr].
      * split; [exact Hres|].
        rewrite Hview; [reflexivity|now intros []|now intros []|exact Hr].
  - intros options info msg Hx. apply Hin in Hx; [|reflexivity].
    destruct Hs as [(-> & _)|[(x' & -> & _)|(o & r & rr & -> & Hs)]].
    + destruct Hx.
    + destruct Hx as [Hx|[]]. apply (f_equal sandbox_outcome) in Hx.
      discriminate Hx.
    + destruct Hx as [Hx|[Hx|[Hx|[]]]]; apply (f_equal sandbox_outcome) in Hx;
        cbn in Hx; try discriminate Hx. injection Hx as ->.
      destruct rr as [er|ur]; destruct Hs as [Hres Hr].
      * split; [now right|].
        rewrite Hview; [reflexivity|now intros []|now intros []|exact Hr].
      * split; [exact Hres|].
        rewrite Hview; [reflexivity|now intros []|now intros []|exact Hr].
Qed.

(** The commands on either side of the execution of the sandbox, by their
    kinds. *)
Lemma sandbox_between_phases
    (request : Request) (w : W) (pre post : list event) (ev : event) :
  trace_of (run h (Execute self request) w) = pre ++ ev :: post ->
  kind_of (ev_cmd ev) = KSandboxExecute ->
  Forall (fun e => of_kinds (KThreadGuardAcquire :: before_kinds) (ev_cmd e)
                   = true) pre
  /\ Forall (fun e => of_kinds (KThreadGuardRelease :: after_kinds) (ev_cmd e)
                      = true) post.
Proof.
  intros Heq Hev.
  destruct (Execute_phased self h request w)
    as (before & g & after & Htr & Hb & Ha & Hs).
  rewrite Htr in Heq.
  assert (Hg : exists o r rr,
             g = [Ev (ThreadGuardAcquire (exclusive request)) (inr tt);
                  Ev (SandboxExecute o) r;
                  Ev (ThreadGuardRelease (exclusive request)) rr]).
  { assert (Hin : In ev g).
    { assert (Hin : In ev (before ++ g ++ after))
        by (rewrite Heq; apply in_or_app; right; now left).
      apply in_app_or in Hin as [Hin|Hin];
        [|apply in_app_or in Hin as [Hin|Hin]; [exact Hin|]].
      - pose proof (in_of_kinds _ _ _ Hb Hin) as Hk.
        unfold of_kinds in Hk. rewrite Hev in Hk. discriminate.
      - pose proof (in_of_kinds _ _ _ Ha Hin) as Hk.
        unfold of_kinds in Hk. rewrite Hev in Hk. discriminate. }
    destruct Hs as [(-> & _)|[(x & -> & _)|(o & r & rr & -> & _)]]; [| |eauto].
    - destruct Hin.
    - destruct Hin as [<-|[]]. discriminate. }
  destruct Hg as (o & r & rr & ->).
  change (before ++ [Ev (ThreadGuardAcquire (exclusive request)) (inr tt);
                     Ev (SandboxExecute o) r;
                     Ev (ThreadGuardRelease (exclusive request)) rr] ++ after)
    with (before ++ Ev (ThreadGuardAcquire (exclusive request)) (inr tt)
            :: Ev (SandboxExecute o) r
            :: Ev (ThreadGuardRelease (exclusive request)) rr :: after) in Heq.
  replace (before ++ Ev (ThreadGuardAcquire (exclusive request)) (inr tt)
             :: Ev (SandboxExecute o) r
             :: Ev (ThreadGuardRelease (exclusive request)) rr :: after)
    with ((before ++ [Ev (ThreadGuardAcquire (exclusive request)) (inr tt)])
            ++ Ev (SandboxExecute o) r
            :: (Ev (ThreadGuardRelease (exclusive request)) rr :: after)) in Heq
    by now rewrite <- app_assoc.
  apply (split_at_kind KSandboxExecute) in Heq as [-> ->];
    [|reflexivity|exact Hev| |].
  - split.
    + apply Forall_app. split; [|now repeat constructor].
      eapply Forall_of_kinds_incl; [|exact Hb]. now intros [].
    + constructor; [reflexivity|].
      eapply Forall_of_kinds_incl; [|exact Ha]. now intros [].
  - apply Forall_app. split; [|now repeat constructor].
    apply (of_kinds_not_kind before_kinds KSandboxExecute); [reflexivity|exact Hb].
  - constructor; [discriminate|].
    apply (of_kinds_not_kind after_kinds KSandboxExecute); [reflexivity|exact Ha].
Qed.

End GuardedBlock.

(* ===================================================================== *)
(** ** LocalExecutor: the stages of a run *)
(* ===================================================================== *)

Section BindCases.

Context {W : Type}.

Variable h : handler W.

Lemma run_bind_cases {A B} (p : Prog A) (f : A -> Prog B) (w : W) tr w' res :
  run h (bind p f) w = (tr, w', res) ->
  (exists e, run h p w = (tr, w', inl e) /\ res = inl e)
  \/ (exists tr1 w1 a tr2,
        run h p w = (tr1, w1, inr a) /\ run h (f a) w1 = (tr2, w', res)
        /\ tr = tr1 ++ tr2).
Proof.
  rewrite run_bind. destruct (run h p w) as [[tr1 w1] [e|a]].
  - intros H. inversion H; subst. left. now exists e.
  - destruct (run h (f a) w1) as [[tr2 w2] r2] eqn:E. intros H.
    inversion H; subst. right. now exists tr1, w1, a, tr2.
Qed.

Lemma issues_only_run_eq (P : Cmd -> bool) {A} (p : Prog A) (w : W) tr w' res :
  issues_only P p -> run h p w = (tr, w', res) ->
  Forall (fun ev => P (ev_cmd ev) = true) tr.
Proof.
  intros Hp E. pose proof (issues_only_run h P p w Hp) as H.
  now rewrite E in H.
Qed.

End BindCases.

Section Stages.

Import LocalExecutor.

Context {num : Numerics} {W : Type}.

Variable self : Executor.
Variable h : handler W.

Lemma TempDir_dtor_kinds tmp keep_ :
  issues_only (of_kinds [KFileRemoveTree]) (TempDir.dtor tmp keep_).
Proof. unfold TempDir.dtor, TempDir.RemoveTree. issues_only_tac. Qed.

(** The run of [Execute] in terms of the runs of its parts. *)
Lemma Execute_stages request (w : W) :
  fifo_size request = 0 ->
  let r := run h (Execute self request) w in
  exists tr_m w1 res_m,
    run h (materialize_inputs self request) w = (tr_m, w1, res_m)
    /\ ((exists e, res_m = inl e /\ trace_of r = tr_m /\ result_of r = inl e)
        \/ exists tr_c w2 res_c,
             res_m = inr tt
             /\ run h (TempDir.ctor (temp_directory_ self)) w1
                = (tr_c, w2, res_c)
             /\ ((exists e, res_c = inl e /\ trace_of r = tr_m ++ tr_c
                            /\ result_of r = inl e)
                 \/ exists tmp tr_s w3 res_s tr_post,
                      res_c = inr tmp
                      /\ run h (execute_sandbox self request tmp) w2
                         = (tr_s, w3, res_s)
                      /\ trace_of r = tr_m ++ tr_c ++ tr_s ++ tr_post
                      /\ Forall (fun ev => of_kinds after_kinds (ev_cmd ev)
                                           = true) tr_post
                      /\ forall e, res_s = inl e ->
                                   result_of r = inl e
                                   \/ result_of r = inl std_terminate)).
Proof.
  intros Hf r. subst r. unfold Execute. rewrite Hf. cbn [Z.eqb negb].
  rewrite run_bind.
  destruct (run h (materialize_inputs self request) w)
    as [[tr_m w1] [e|[]]] eqn:Em.
  { exists tr_m, w1, (inl e). split; [reflexivity|]. left. now exists e. }
  exists tr_m, w1, (inr tt). split; [reflexivity|]. right.
  rewrite run_bind.
  destruct (run h (TempDir.ctor (temp_directory_ self)) w1)
    as [[tr_c w2] [e|tmp]] eqn:Ec.
  { exists tr_c, w2, (inl e). split; [reflexivity|]. split; [reflexivity|].
    left. now exists e. }
  exists tr_c, w2, (inr tmp). split; [reflexivity|]. split; [reflexivity|].
  right. rewrite run_with_destructor. unfold Execute_in. rewrite run_bind.
  destruct (run h (execute_sandbox self request tmp) w2)
    as [[tr_s w3] [e|info]] eqn:Es.
  - destruct (terminated h _ w2).
    { exists tmp, tr_s, w3, (inl e), []. cbn [trace_of result_of fst snd].
      split; [reflexivity|]. split; [exact Es|].
      split; [now rewrite app_nil_r|]. split; [constructor|].
      intros e' He'. injection He' as <-. now left. }
    destruct (run h (TempDir.dtor tmp (keep_sandbox request)) w3)
      as [[tr_d w4] rd] eqn:Ed.
    exists tmp, tr_s, w3, (inl e), tr_d. cbn [trace_of result_of fst snd].
    split; [reflexivity|]. split; [exact Es|].
    split; [now rewrite <- ?app_assoc|]. split.
    + eapply Forall_of_kinds_incl;
        [|eapply issues_only_run_eq; [apply TempDir_dtor_kinds|exact Ed]].
      now intros [].
    + intros e' He'. injection He' as <-. destruct rd; [now right|now left].
  - destruct (run h (retrieve_outputs self request tmp
                       (classify request info (response_of_result info))) w3)
      as [[tr_r w4] rr] eqn:Er.
    assert (Hkr : Forall (fun ev => of_kinds after_kinds (ev_cmd ev) = true)
                    tr_r).
    { eapply Forall_of_kinds_incl;
        [|eapply issues_only_run_eq; [apply retrieve_outputs_kinds|exact Er]].
      now intros []. }
    destruct (terminated h _ w2).
    { exists tmp, tr_s, w3, (inr info), tr_r.
      cbn [trace_of result_of fst snd].
      split; [reflexivity|]. split; [exact Es|].
      split; [now rewrite <- ?app_assoc|]. split; [exact Hkr|discriminate]. }
    destruct (run h (TempDir.dtor tmp (keep_sandbox request)) w4)
      as [[tr_d w5] rd] eqn:Ed.
    exists tmp, tr_s, w3, (inr info), (tr_r ++ tr_d).
    cbn [trace_of result_of fst snd].
    split; [reflexivity|]. split; [exact Es|].
    split; [now rewrite <- ?app_assoc|]. split; [|discriminate].
    apply Forall_app. split; [exact Hkr|].
    eapply Forall_of_kinds_incl;
      [|eapply issues_only_run_eq; [apply TempDir_dtor_kinds|exact Ed]].
    now intros [].
Qed.

End Stages.

(* ===================================================================== *)
(** ** LocalExecutor: materialisation of the inputs *)
(* ===================================================================== *)

Section Materialisation.

Import LocalExecutor.

Context {num : Numerics} {W : Type}.

Variable self : Executor.
Variable h : handler W.

Local Abbreviation store_kinds :=
  [KFileSize; KFileWriteContents; KFileWriteFetched].
Local Abbreviation write_kinds := [KFileWriteContents; KFileWriteFetched].

Lemma MaybeRequestFile_chunk input (w : W) tr w1 res :
  run h (MaybeRequestFile self input) w = (tr, w1, res) ->
  chunk_of self input tr.
Proof.
  unfold chunk_of, fetch_of, MaybeRequestFile. cbn [bind run call].
  destruct (h (FileSize (ProtoSHAToPath self (store_directory_ self)
                           (hash input))) w) as [w2 [e|size]].
  { cbn. intros H. inversion H; subst. left. now exists (inl e). }
  cbn [bind run].
  destruct (0 <=? size) eqn:Hs; [apply Z.leb_le in Hs|apply Z.leb_gt in Hs].
  { cbn. intros H. inversion H; subst. left. now exists (inr size). }
  destruct (contents input) as [c|]; cbn [bind run call].
  - destruct (h (FileWriteContents
                   (ProtoSHAToPath self (store_directory_ self) (hash input))
                   c false false) w2) as [w3 r] eqn:E.
    intros H. right. exists size, r. split; [exact Hs|].
    destruct r as [e|[]]; cbn in H; now inversion H.
  - destruct (h (FileWriteFetched
                   (ProtoSHAToPath self (store_directory_ self) (hash input))
                   (hash input) false false) w2) as [w3 r] eqn:E.
    intros H. right. exists size, r. split; [exact Hs|].
    destruct r as [e|[]]; cbn in H; now inversion H.
Qed.

Lemma materialize_chunks (l : list FileInfo) (w : W) tr w1 res :
  run h (for_each l (fun _ input => MaybeRequestFile self input) tt) w
  = (tr, w1, res) ->
  exists chunks l1 l2,
    l = l1 ++ l2 /\ tr = concat chunks
    /\ Forall2 (chunk_of self) l1 chunks.
Proof.
  revert w tr w1 res. induction l as [|a l IH]; intros w tr w1 res H.
  - cbn in H. inversion H; subst. exists [], [], [].
    split; [reflexivity|]. split; [reflexivity|constructor].
  - cbn [for_each] in H.
    apply run_bind_cases in H
      as [(e & H & ->)|(tr1 & w2 & [] & tr2 & H1 & H2 & ->)].
    + apply MaybeRequestFile_chunk in H. exists [tr], [a], l.
      split; [reflexivity|]. split; [cbn; now rewrite app_nil_r|].
      constructor; [exact H|constructor].
    + apply MaybeRequestFile_chunk in H1.
      apply IH in H2 as (chunks & l1 & l2 & -> & -> & Hc).
      exists (tr1 :: chunks), (a :: l1), l2.
      split; [reflexivity|]. split; [reflexivity|]. now constructor.
Qed.

Lemma chunks_split (l : list FileInfo) chunks rest pre ev post :
  Forall2 (chunk_of self) l chunks ->
  Forall (fun e => of_kinds write_kinds (ev_cmd e) = false) rest ->
  concat chunks ++ rest = pre ++ ev :: post ->
  of_kinds write_kinds (ev_cmd ev) = true ->
  exists pre' size input,
    pre = pre' ++ [Ev (FileSize (ProtoSHAToPath self (store_directory_ self)
                                   (hash input))) (inr size)]
    /\ size < 0 /\ In input l /\ ev_cmd ev = fetch_of self input
    /\ Forall (fun e => of_kinds store_kinds (ev_cmd e) = true) pre.
Proof.
  intros Hc Hrest. revert pre.
  induction Hc as [|a c l chunks Ha _ IH]; intros pre Heq Hev.
  - cbn in Heq. exfalso. rewrite Forall_forall in Hrest.
    assert (Hin : In ev rest) by (rewrite Heq; apply in_or_app; right; now left).
    apply list_elem_of_In, Hrest in Hin. congruence.
  - assert (Hwk : of_kinds write_kinds (fetch_of self a) = true
                  /\ of_kinds store_kinds (fetch_of self a) = true).
    { unfold fetch_of. now destruct (contents a). }
    assert (Hnext : forall pre1,
               concat chunks ++ rest = pre1 ++ ev :: post ->
               forall front,
                 Forall (fun e => of_kinds store_kinds (ev_cmd e) = true) front ->
                 pre = front ++ pre1 ->
                 exists pre' size input,
                   pre = pre' ++ [Ev (FileSize
                                        (ProtoSHAToPath self (store_directory_ self)
                                           (hash input))) (inr size)]
                   /\ size < 0 /\ In input (a :: l)
                   /\ ev_cmd ev = fetch_of self input
                   /\ Forall (fun e => of_kinds store_kinds (ev_cmd e) = true)
                        pre).
    { intros pre1 Heq1 front Hfront ->.
      destruct (IH pre1 Heq1 Hev) as (pre' & size & input & -> & Hs & Hin & Hcmd & Hk).
      exists (front ++ pre'), size, input. split; [now rewrite app_assoc|].
      split; [exact Hs|]. split; [now right|]. split; [exact Hcmd|].
      apply Forall_app. now split. }
    cbn [concat] in Heq.
    destruct Ha as [(r & -> & _)|(size & r & Hs & ->)]; cbn [app] in Heq.
    + destruct pre as [|p pre]; cbn [app] in Heq.
      * injection Heq as Hhd _. subst ev. discriminate Hev.
      * injection Heq as Hhd Htl. subst p.
        apply (Hnext pre Htl
                 [Ev (FileSize (ProtoSHAToPath self (store_directory_ self)
                                  (hash a))) r]); [|reflexivity].
        now repeat constructor.
    + destruct pre as [|p [|p' pre]]; cbn [app] in Heq.
      * injection Heq as Hhd _. subst ev. discriminate Hev.
      * injection Heq as Hhd Hhd' _. subst p. exists [], size, a.
        split; [reflexivity|]. split; [exact Hs|]. split; [now left|].
        split; [now subst ev|]. now repeat constructor.
      * injection Heq as Hhd Hhd' Htl. subst p p'.
        apply (Hnext pre Htl
                 [Ev (FileSize (ProtoSHAToPath self (store_directory_ self)
                                  (hash a))) (inr size);
                  Ev (fetch_of self a) r]); [|reflexivity].
        constructor; [reflexivity|]. constructor; [apply Hwk|constructor].
Qed.

(** X6. The store is written only to materialise inputs that it lacks:
    a write of an input's inline contents or of what the callback delivers
    occurs in a run of [Execute] only right after [File::Size] answered
    negative for the store path of that input's digest, it has
    [overwrite] and [exist_ok] false, the callback is asked only for an
    input without inline contents, and nothing but size queries and such
    writes comes before it. *)
Theorem store_written_only_for_absent_inputs
    (request : Request) (w : W) (pre post : list event) (ev : event) :
  trace_of (run h (Execute self request) w) = pre ++ ev :: post ->
  of_kinds write_kinds (ev_cmd ev) = true ->
  exists pre' size file,
    pre = pre' ++ [Ev (FileSize (ProtoSHAToPath self (store_directory_ self)
                                   (hash file))) (inr size)]
    /\ size < 0 /\ In file (input request)
    /\ ev_cmd ev = fetch_of self file
    /\ Forall (fun e => of_kinds store_kinds (ev_cmd e) = true) pre.
Proof.
  intros Heq Hev.
  destruct (Z.eqb_spec (fifo_size request) 0) as [Hf|Hf].
  2:{ exfalso. unfold Execute in Heq.
      apply Z.eqb_neq in Hf. rewrite Hf in Heq. cbn in Heq.
      now destruct pre. }
  destruct (Execute_stages self h request w Hf)
    as (tr_m & w1 & res_m & Em & Hst).
  unfold materialize_inputs in Em.
  apply materialize_chunks in Em as (chunks & l1 & l2 & Hl & -> & Hc).
  assert (Hrest : exists rest,
             trace_of (run h (Execute self request) w) = concat chunks ++ rest
             /\ Forall (fun e => of_kinds write_kinds (ev_cmd e) = false) rest).
  { assert (Hno : forall ks tr,
               (forall c, of_kinds ks c = true -> of_kinds write_kinds c = false) ->
               Forall (fun e => of_kinds ks (ev_cmd e) = true) tr ->
               Forall (fun e => of_kinds write_kinds (ev_cmd e) = false) tr).
    { intros ks tr Hks Htr. eapply Forall_impl; [exact Htr|].
      intros e. apply Hks. }
    destruct Hst as [(e & _ & -> & _)|(tr_c & w2 & res_c & _ & Ec & Hst)].
    { exists []. split; [now rewrite app_nil_r|constructor]. }
    pose proof (issues_only_run_eq h _ _ _ _ _ _
                  (TempDir_ctor_kinds (temp_directory_ self)) Ec) as Hkc.
    destruct Hst as [(e & _ & -> & _)
                    |(tmp & tr_s & w3 & res_s & tr_post & _ & Es & -> & Hp & _)].
    { exists tr_c. split; [reflexivity|].
      eapply Hno; [|exact Hkc]; now intros []. }
    pose proof (issues_only_run_eq h _ _ _ _ _ _
                  (execute_sandbox_kinds self request tmp) Es) as Hks.
    exists (tr_c ++ tr_s ++ tr_post). split; [reflexivity|].
    rewrite !Forall_app. split; [|split].
    - eapply Hno; [|exact Hkc]; now intros [].
    - eapply Hno; [|exact Hks]; now intros [].
    - eapply Hno; [|exact Hp]; now intros []. }
  destruct Hrest as (rest & Htr & Hrest). rewrite Htr in Heq.
  destruct (chunks_split l1 chunks rest pre ev post Hc Hrest Heq Hev)
    as (pre' & size & file & Hpre & Hs & Hin & Hcmd & Hk).
  exists pre', size, file. split; [exact Hpre|]. split; [exact Hs|].
  split; [rewrite Hl; apply in_or_app; now left|]. now split.
Qed.

End Materialisation.

(* ===================================================================== *)
(** ** LocalExecutor: the preparation of the executable *)
(* ===================================================================== *)

Section Preparation.

Import LocalExecutor.

Context {num : Numerics} {W : Type}.

Variable self : Executor.
Variable h : handler W.

Local Abbreviation staging_kinds :=
  [KWriteCommandFile; KFileMakeDirs; KFileCopy; KFileMakeExecutable;
   KSandboxCreate].

(** What a run of [execute_sandbox] in [tmp] shows of
    [PrepareForExecution]. *)
Local Abbreviation prepares request tmp tr res :=
  ((forall ev p, In ev tr -> prepared ev = Some p ->
      names_executable request = true
      /\ fst p = File.JoinPath (File.JoinPath tmp kBoxDir)
                   (req_executable request)
      /\ match snd p with
         | inl e => res = inl e /\ view guard_kinds tr = []
         | inr (false, msg) =>
             res = inl (runtime_error msg) /\ view guard_kinds tr = []
         | inr (true, _) => True
         end)
   /\ (names_executable request = true ->
       forall ev, In ev tr -> kind_of (ev_cmd ev) = KSandboxExecute ->
       exists msg,
         In (Ev (SandboxPrepareForExecution
                   (File.JoinPath (File.JoinPath tmp kBoxDir)
                      (req_executable request)))
               (inr (true, msg))) tr)).

Lemma prepared_kind ev p :
  prepared ev = Some p -> kind_of (ev_cmd ev) = KSandboxPrepareForExecution.
Proof. destruct ev as [[] r]; cbn; congruence. Qed.

Lemma kind_not_of_kinds ks (tr : list event) ev k :
  Forall (fun ev => of_kinds ks (ev_cmd ev) = true) tr ->
  In ev tr -> kind_of (ev_cmd ev) = k -> existsb (kind_eqb k) ks = false ->
  False.
Proof.
  intros Hk Hin Hev Hks. pose proof (in_of_kinds _ _ _ Hk Hin) as H.
  unfold of_kinds in H. rewrite Hev in H. congruence.
Qed.

Lemma prepares_staging {A} request tmp tr (res : exn + A) :
  Forall (fun ev => of_kinds staging_kinds (ev_cmd ev) = true) tr ->
  prepares request tmp tr res.
Proof.
  intros Hk. split.
  - intros ev p Hin Hp. exfalso.
    now apply (kind_not_of_kinds _ _ _ _ Hk Hin (prepared_kind _ _ Hp)).
  - intros _ ev Hin Hev. exfalso.
    now apply (kind_not_of_kinds _ _ _ _ Hk Hin Hev).
Qed.

Lemma prepares_app {A} request tmp tr1 tr2 (res : exn + A) :
  Forall (fun ev => of_kinds staging_kinds (ev_cmd ev) = true) tr1 ->
  prepares request tmp tr2 res -> prepares request tmp (tr1 ++ tr2) res.
Proof.
  intros Hk [H1 H2].
  assert (Hv : view guard_kinds (tr1 ++ tr2) = view guard_kinds tr2).
  { rewrite view_app, (view_nil_of_kinds _ guard_kinds _ Hk); [reflexivity|].
    now intros []. }
  split.
  - intros ev p Hin Hp. apply in_app_or in Hin as [Hin|Hin].
    { exfalso.
      now apply (kind_not_of_kinds _ _ _ _ Hk Hin (prepared_kind _ _ Hp)). }
    rewrite Hv. now apply (H1 ev).
  - intros Hn ev Hin Hev. apply in_app_or in Hin as [Hin|Hin].
    { exfalso. now apply (kind_not_of_kinds _ _ _ _ Hk Hin Hev). }
    destruct (H2 Hn ev Hin Hev) as [msg Hm]. exists msg.
    apply in_or_app. now right.
Qed.

Lemma stage_inputs_loaded request tmp (l : list FileInfo) st (w : W)
    tr w1 st' :
  run h (for_each l (stage_input self request tmp) st) w = (tr, w1, inr st') ->
  snd st' = snd st
            || existsb (fun i => String.eqb (name i) (req_executable request)) l.
Proof.
  revert st w tr. induction l as [|a l IH]; intros st w tr H.
  - cbn in H. inversion H; subst. cbn. now rewrite orb_false_r.
  - cbn [for_each] in H.
    apply run_bind_inr in H as (tr1 & w2 & st1 & tr2 & H1 & H2 & ->).
    apply IH in H2. rewrite H2. cbn [existsb].
    destruct st as [[o fs] b]. unfold stage_input in H1.
    apply run_bind_inr in H1 as (tr3 & w3 & [o' fs'] & tr4 & _ & H1 & _).
    destruct (String.eqb (name a) (req_executable request));
      cbn in H1; inversion H1; subst; cbn [snd].
    + now rewrite orb_true_r.
    + now rewrite orb_assoc, orb_false_r.
Qed.

Lemma execute_sandbox_prepares request tmp (w : W) tr w1 res :
  run h (execute_sandbox self request tmp) w = (tr, w1, res) ->
  prepares request tmp tr res.
Proof.
  unfold execute_sandbox. intros H.
  apply run_bind_cases in H
    as [(e & H & ->)|(tr1 & w2 & [] & tr' & H1 & H & ->)].
  { apply prepares_staging.
    eapply issues_only_run_eq; [|exact H]. issues_only_tac. }
  assert (Hk1 : Forall (fun ev => of_kinds staging_kinds (ev_cmd ev) = true) tr1).
  { eapply issues_only_run_eq; [|exact H1]. issues_only_tac. }
  apply prepares_app; [exact Hk1|]. clear H1 Hk1 tr1.
  apply run_bind_cases in H
    as [(e & H & ->)|(tr1 & w3 & [] & tr'' & H1 & H & ->)].
  { apply prepares_staging.
    eapply issues_only_run_eq; [|exact H]. issues_only_tac. }
  assert (Hk1 : Forall (fun ev => of_kinds staging_kinds (ev_cmd ev) = true) tr1).
  { eapply issues_only_run_eq; [|exact H1]. issues_only_tac. }
  apply prepares_app; [exact Hk1|]. clear H1 Hk1 tr1.
  assert (Hstage : forall w tr w' (r : exn + ExecutionOptions * list string * bool),
             run h (for_each (input request) (stage_input self request tmp)
                      (initial_options request (File.JoinPath tmp kBoxDir),
                       [], false)) w = (tr, w', r) ->
             Forall (fun ev => of_kinds staging_kinds (ev_cmd ev) = true) tr).
  { intros w0 tr0 w0' r0 H0. eapply Forall_of_kinds_incl;
      [|eapply issues_only_run_eq; [apply stage_inputs_kinds|exact H0]].
    now intros []. }
  apply run_bind_cases in H
    as [(e & H & ->)|(tr1 & w4 & [[o fs] b] & tr3 & H1 & H & ->)].
  { apply prepares_staging. eapply Hstage, H. }
  apply prepares_app; [eapply Hstage, H1|].
  apply stage_inputs_loaded in H1. cbn [snd orb] in H1.
  change (b = names_executable request) in H1. clear Hstage tr1.
  apply run_bind_cases in H
    as [(e & H & ->)|(tr1 & w5 & [] & tr4 & H2 & H & ->)].
  { apply prepares_staging.
    eapply issues_only_run_eq; [|exact H]. issues_only_tac. }
  assert (Hk1 : Forall (fun ev => of_kinds staging_kinds (ev_cmd ev) = true) tr1).
  { eapply issues_only_run_eq; [|exact H2]. issues_only_tac. }
  apply prepares_app; [exact Hk1|]. clear H2 Hk1 tr1.
  set (opts := set_stdout_stderr _ _ o) in H.
  assert (Hguard : forall w tr w' (r : exn + ExecutionInfo),
             run h (guarded_execute request opts) w = (tr, w', r) ->
             Forall (fun ev => of_kinds guard_kinds (ev_cmd ev) = true) tr).
  { intros w0 tr0 w0' r0 H0.
    eapply issues_only_run_eq; [apply guarded_execute_kinds|exact H0]. }
  destruct b.
  - symmetry in H1. cbn [bind run call] in H.
    destruct (h (SandboxPrepareForExecution
                   (File.JoinPath (File.JoinPath tmp kBoxDir)
                      (req_executable request))) w5)
      as [w6 [e|[[] msg]]].
    + cbn in H. inversion H; subst. split.
      * intros ev p [<-|[]] Hp. cbn in Hp. injection Hp as <-. now cbn.
      * intros _ ev [<-|[]] Hev. discriminate Hev.
    + cbn [bind run] in H.
      destruct (run h (guarded_execute request opts) w6)
        as [[tr_g w7] rg] eqn:Eg.
      apply Hguard in Eg. inversion H; subst. split.
      * intros ev p [<-|Hin] Hp.
        { cbn in Hp. injection Hp as <-. now cbn. }
        exfalso.
        now apply (kind_not_of_kinds _ _ _ _ Eg Hin (prepared_kind _ _ Hp)).
      * intros _ ev _ _. exists msg. now left.
    + cbn in H. inversion H; subst. split.
      * intros ev p [<-|[]] Hp. cbn in Hp. injection Hp as <-. now cbn.
      * intros _ ev [<-|[]] Hev. discriminate Hev.
  - cbn [bind run] in H. apply Hguard in H. split.
    + intros ev p Hin Hp. exfalso.
      now apply (kind_not_of_kinds _ _ _ _ H Hin (prepared_kind _ _ Hp)).
    + intros Hn. congruence.
Qed.

(** When [PrepareForExecution] is asked, and what follows from its
    outcome. *)
Lemma preparation_precedes_admission (request : Request) (w : W) :
  let tr := trace_of (run h (Execute self request) w) in
  let res := result_of (run h (Execute self request) w) in
  (forall path outcome,
     In (Ev (SandboxPrepareForExecution path) outcome) tr ->
     names_executable request = true
     /\ exists tmp,
          In (Ev (OsTempDir (temp_directory_ self)) (inr tmp)) tr
          /\ path = File.JoinPath (File.JoinPath tmp kBoxDir)
                      (req_executable request))
  /\ (forall path msg,
        In (Ev (SandboxPrepareForExecution path) (inr (false, msg))) tr ->
        (res = inl (runtime_error msg) \/ res = inl std_terminate)
        /\ view guard_kinds tr = [])
  /\ (names_executable request = true ->
      forall options outcome,
        In (Ev (SandboxExecute options) outcome) tr ->
        exists path msg,
          In (Ev (SandboxPrepareForExecution path) (inr (true, msg))) tr).
Proof.
  cbv zeta.
  destruct (Z.eqb_spec (fifo_size request) 0) as [Hf|Hf].
  2:{ unfold Execute. apply Z.eqb_neq in Hf. rewrite Hf. cbn.
      split; [intros ? ? []|]. split; [intros ? ? []|]. intros _ ? ? []. }
  destruct (Execute_stages self h request w Hf)
    as (tr_m & w1 & res_m & Em & Hst).
  pose proof (issues_only_run_eq h _ _ _ _ _ _
                (materialize_inputs_kinds self request) Em) as Hkm.
  assert (Hearly : forall tr0 : list event,
             Forall (fun ev => of_kinds
                                 [KFileSize; KFileWriteContents;
                                  KFileWriteFetched; KFileMakeDirs; KOsTempDir;
                                  KErrno] (ev_cmd ev) = true) tr0 ->
             (forall path outcome,
                 In (Ev (SandboxPrepareForExecution path) outcome) tr0 -> False)
             /\ (forall options outcome,
                    In (Ev (SandboxExecute options) outcome) tr0 -> False)).
  { intros tr0 Hk. split; intros ? ? Hin;
      now apply (kind_not_of_kinds _ _ _ _ Hk Hin eq_refl). }
  destruct Hst as [(e & _ & -> & _)|(tr_c & w2 & res_c & _ & Ec & Hst)].
  { destruct (Hearly tr_m) as [Hp He].
    { eapply Forall_of_kinds_incl; [|exact Hkm]. now intros []. }
    split; [intros ? ? Hin; now apply Hp in Hin|].
    split; [intros ? ? Hin; now apply Hp in Hin|].
    intros _ ? ? Hin. now apply He in Hin. }
  pose proof (issues_only_run_eq h _ _ _ _ _ _
                (TempDir_ctor_kinds (temp_directory_ self)) Ec) as Hkc.
  assert (Hkmc : Forall (fun ev => of_kinds
                                 [KFileSize; KFileWriteContents;
                                  KFileWriteFetched; KFileMakeDirs; KOsTempDir;
                                  KErrno] (ev_cmd ev) = true) (tr_m ++ tr_c)).
  { apply Forall_app. split.
    - eapply Forall_of_kinds_incl; [|exact Hkm]. now intros [].
    - eapply Forall_of_kinds_incl; [|exact Hkc]. now intros []. }
  destruct Hst as [(e & _ & -> & _)
                  |(tmp & tr_s & w3 & res_s & tr_post & -> & Es & -> & Hp & Hres)].
  { destruct (Hearly _ Hkmc) as [Hp He].
    split; [intros ? ? Hin; now apply Hp in Hin|].
    split; [intros ? ? Hin; now apply Hp in Hin|].
    intros _ ? ? Hin. now apply He in Hin. }
  destruct (execute_sandbox_prepares request tmp w2 tr_s w3 res_s Es)
    as [Hs1 Hs2].
  assert (Htmp : In (Ev (OsTempDir (temp_directory_ self)) (inr tmp)) tr_c).
  { pose proof (TempDir_ctor_runs h (temp_directory_ self) w1) as Hc.
    cbv zeta in Hc. rewrite Ec in Hc. cbn in Hc. apply Hc. }
  assert (Hin_s : forall ev,
             In ev (tr_m ++ tr_c ++ tr_s ++ tr_post) ->
             of_kinds [KSandboxPrepareForExecution; KSandboxExecute] (ev_cmd ev)
             = true -> In ev tr_s).
  { intros ev Hin Hev. rewrite app_assoc in Hin.
    apply in_app_or in Hin as [Hin|Hin];
      [|apply in_app_or in Hin as [Hin|Hin]; [exact Hin|]].
    - pose proof (in_of_kinds _ _ _ Hkmc Hin) as Hk.
      destruct (ev_cmd ev); discriminate.
    - pose proof (in_of_kinds _ _ _ Hp Hin) as Hk.
      destruct (ev_cmd ev); discriminate. }
  split; [|split].
  - intros path outcome Hin. apply Hin_s in Hin; [|reflexivity].
    destruct (Hs1 _ (path, outcome) Hin eq_refl) as (Hn & Hpath & _).
    split; [exact Hn|]. exists tmp. split; [|exact Hpath].
    apply in_or_app. right. apply in_or_app. now left.
  - intros path msg Hin. apply Hin_s in Hin; [|reflexivity].
    destruct (Hs1 _ (path, inr (false, msg)) Hin eq_refl)
      as (_ & _ & Hr & Hv).
    split; [now apply Hres|].
    rewrite !view_app, Hv.
    rewrite (view_nil_of_kinds _ guard_kinds _ Hkm) by now intros [].
    rewrite (view_nil_of_kinds _ guard_kinds _ Hkc) by now intros [].
    rewrite (view_nil_of_kinds _ guard_kinds _ Hp) by now intros [].
    reflexivity.
  - intros Hn options outcome Hin. apply Hin_s in Hin; [|reflexivity].
    destruct (Hs2 Hn _ Hin eq_refl) as [msg Hm]. eexists _, msg.
    apply in_or_app. right. apply in_or_app. right. apply in_or_app.
    left. exact Hm.
Qed.

End Preparation.

(* ===================================================================== *)
(** ** LocalExecutor: the run, command by command *)
(* ===================================================================== *)

Section Anatomy.

Import LocalExecutor.

Context {num : Numerics} {W : Type}.

Variable self : Executor.
Variable h : handler W.

(** No callee threw. *)
Local Abbreviation clean tr := (Forall (fun ev => threw ev = false) tr).

(** An input that [PrepareFile] accepts. *)
Local Abbreviation legal_input i :=
  (FileType_eqb (type i) STDIN = false -> has_illegal_char (name i) = false).

Lemma run_call_inr (c : Cmd) (w : W) tr w1 a :
  run h (call c) w = (tr, w1, inr a) -> tr = [Ev c (inr a)].
Proof.
  rewrite run_call. destruct (h c w) as [w2 [e|a']]; intros H; [discriminate|].
  now inversion H.
Qed.

Lemma PrepareFile_staged info tmp o fs (w : W) tr w1 r :
  run h (PrepareFile self info tmp o fs) w = (tr, w1, inr r) ->
  map ev_cmd tr = staging_of self tmp info /\ clean tr /\ legal_input info.
Proof.
  intros H. split; [|split].
  2:{ eapply catches_nothing_run; [apply catches_nothing_PrepareFile|exact H]. }
  - unfold PrepareFile in H. unfold staging_of, target_of.
    set (n := if FileType_eqb (type info) STDIN then "stdin"
              else File.JoinPath kBoxDir (name info)).
    set (p := if FileType_eqb (type info) STDIN then _ else _) in H.
    assert (Hp : (exists x, p = Throw x) \/ exists o', p = Ret (n, o')).
    { subst p n. destruct (FileType_eqb (type info) STDIN); [eauto|].
      destruct (has_illegal_char (name info)); eauto. }
    destruct Hp as [[x ->] | [o' ->]]; [discriminate H|].
    cbn [bind run call] in H.
    destruct (h (FileCopy _ (File.JoinPath tmp n)) w) as [w2 [e|[]]];
      [discriminate H|].
    cbn [bind run call] in H. destruct (executable info).
    + cbn [bind run call] in H.
      destruct (h (FileMakeExecutable (File.JoinPath tmp n)) w2)
        as [w3 [e|[]]]; [discriminate H|].
      cbn in H. now inversion H.
    + cbn in H. now inversion H.
  - intros Ht. unfold PrepareFile in H. rewrite Ht in H.
    destruct (has_illegal_char (name info)); [discriminate H|reflexivity].
Qed.

Lemma stage_inputs_staged request tmp (l : list FileInfo) st (w : W)
    tr w1 st' :
  run h (for_each l (stage_input self request tmp) st) w = (tr, w1, inr st') ->
  map ev_cmd tr = concat (map (staging_of self tmp) l) /\ clean tr
  /\ Forall (fun i => legal_input i) l.
Proof.
  revert st w tr. induction l as [|a l IH]; intros st w tr H.
  - cbn in H. inversion H; subst. repeat split; constructor.
  - cbn [for_each] in H.
    apply run_bind_inr in H as (tr1 & w2 & st1 & tr2 & H1 & H2 & ->).
    apply IH in H2 as (Hs2 & Hc2 & Hl2).
    destruct st as [[o fs] b]. unfold stage_input in H1.
    apply run_bind_inr in H1 as (tr3 & w3 & [o' fs'] & tr4 & H1 & H3 & ->).
    apply PrepareFile_staged in H1 as (Hs1 & Hc1 & Hl1).
    assert (tr4 = []) as ->.
    { destruct (String.eqb (name a) (req_executable request));
        cbn in H3; now inversion H3. }
    rewrite app_nil_r. split; [|split].
    + rewrite map_app, Hs1, Hs2. reflexivity.
    + now apply Forall_app.
    + now constructor.
Qed.

Lemma TempDir_ctor_returns base (w : W) tr w1 tmp :
  run h (TempDir.ctor base) w = (tr, w1, inr tmp) ->
  tr = [Ev (FileMakeDirs base) (inr tt); Ev (OsTempDir base) (inr tmp)]
  /\ tmp <> "".
Proof.
  unfold TempDir.ctor. cbn [bind run call].
  destruct (h (FileMakeDirs base) w) as [w2 [e|[]]]; [discriminate|].
  cbn [bind run call].
  destruct (h (OsTempDir base) w2) as [w3 [e|path_]]; [discriminate|].
  cbn [bind run call].
  destruct (String.eqb_spec path_ "") as [->|Hne].
  - cbn [bind run call]. destruct (h Errno w3) as [w4 [e|errno]]; discriminate.
  - cbn. intros H. inversion H; subst. now split.
Qed.

Lemma materialize_inputs_returns (l : list FileInfo) (w : W) tr w1 :
  run h (for_each l (fun _ input => MaybeRequestFile self input) tt) w
  = (tr, w1, inr tt) ->
  exists chunks,
    tr = concat chunks /\ Forall2 (chunk_of self) l chunks /\ clean tr.
Proof.
  revert w tr. induction l as [|a l IH]; intros w tr H.
  - cbn in H. inversion H; subst. exists []. repeat split; constructor.
  - cbn [for_each] in H.
    apply run_bind_inr in H as (tr1 & w2 & [] & tr2 & H1 & H2 & ->).
    apply IH in H2 as (chunks & -> & Hc & Hcl).
    exists (tr1 :: chunks). split; [reflexivity|]. split.
    + constructor; [|exact Hc]. eapply MaybeRequestFile_chunk, H1.
    + apply Forall_app. split; [|exact Hcl].
      eapply catches_nothing_run;
        [apply catches_nothing_MaybeRequestFile|exact H1].
Qed.

(** A run of [execute_sandbox] that reaches the sandbox: every step in
    front of the guarded block has succeeded, and the block is the end of
    the run. *)
Lemma execute_sandbox_anatomy request tmp (w : W) tr w1 res :
  run h (execute_sandbox self request tmp) w = (tr, w1, res) ->
  (exists ev, In ev tr /\ kind_of (ev_cmd ev) = KSandboxExecute) ->
  exists staged prep options r rr,
    tr = command_file request tmp
         ++ [Ev (FileMakeDirs (File.JoinPath tmp kBoxDir)) (inr tt)]
         ++ staged
         ++ [Ev SandboxCreate (inr tt)] ++ prep
         ++ [Ev (ThreadGuardAcquire (exclusive request)) (inr tt);
             Ev (SandboxExecute options) r;
             Ev (ThreadGuardRelease (exclusive request)) rr]
    /\ map ev_cmd staged = concat (map (staging_of self tmp) (input request))
    /\ clean staged
    /\ Forall (fun i => legal_input i) (input request)
    /\ preparation request tmp prep
    /\ (forall info, res = inr info ->
          exists msg, r = inr (true, info, msg) /\ rr = inr tt).
Proof.
  unfold execute_sandbox. intros H (ev & Hin & Hk).
  assert (Hno : forall ks (tr0 : list event),
             Forall (fun ev => of_kinds ks (ev_cmd ev) = true) tr0 ->
             existsb (kind_eqb KSandboxExecute) ks = false ->
             In ev tr0 -> False).
  { intros ks tr0 Hks Hex Hin0. pose proof (in_of_kinds _ _ _ Hks Hin0) as Hc.
    unfold of_kinds in Hc. rewrite Hk in Hc. congruence. }
  (* the command file *)
  apply run_bind_cases in H
    as [(e & H & ->)|(tr1 & w2 & [] & tr' & H1 & H & ->)].
  { exfalso. eapply (Hno [KWriteCommandFile]); [|reflexivity|exact Hin].
    eapply issues_only_run_eq; [|exact H]. issues_only_tac. }
  apply in_app_or in Hin as [Hin|Hin].
  { exfalso. eapply (Hno [KWriteCommandFile]); [|reflexivity|exact Hin].
    eapply issues_only_run_eq; [|exact H1]. issues_only_tac. }
  assert (tr1 = command_file request tmp) as ->.
  { unfold command_file. destruct (keep_sandbox request).
    - now apply run_call_inr in H1.
    - cbn in H1. now inversion H1. }
  clear H1.
  (* the sandbox directory *)
  apply run_bind_cases in H
    as [(e & H & ->)|(tr1 & w3 & [] & tr'' & H1 & H & ->)].
  { exfalso. eapply (Hno [KFileMakeDirs]); [|reflexivity|exact Hin].
    eapply issues_only_run_eq; [|exact H]. issues_only_tac. }
  apply in_app_or in Hin as [Hin|Hin].
  { exfalso. eapply (Hno [KFileMakeDirs]); [|reflexivity|exact Hin].
    eapply issues_only_run_eq; [|exact H1]. issues_only_tac. }
  apply run_call_inr in H1. subst tr1.
  (* staging *)
  apply run_bind_cases in H
    as [(e & H & ->)|(staged & w4 & [[o fs] b] & tr3 & H1 & H & ->)].
  { exfalso.
    eapply (Hno [KFileCopy; KFileMakeExecutable]); [|reflexivity|exact Hin].
    eapply issues_only_run_eq; [apply stage_inputs_kinds|exact H]. }
  apply in_app_or in Hin as [Hin|Hin].
  { exfalso.
    eapply (Hno [KFileCopy; KFileMakeExecutable]); [|reflexivity|exact Hin].
    eapply issues_only_run_eq; [apply stage_inputs_kinds|exact H1]. }
  pose proof H1 as Hb. apply stage_inputs_loaded in Hb.
  cbn [snd orb] in Hb. change (b = names_executable request) in Hb.
  apply stage_inputs_staged in H1 as (Hs & Hc & Hl).
  (* the sandbox is created *)
  apply run_bind_cases in H
    as [(e & H & ->)|(tr1 & w5 & [] & tr4 & H2 & H & ->)].
  { exfalso. eapply (Hno [KSandboxCreate]); [|reflexivity|exact Hin].
    eapply issues_only_run_eq; [|exact H]. issues_only_tac. }
  apply in_app_or in Hin as [Hin|Hin].
  { exfalso. eapply (Hno [KSandboxCreate]); [|reflexivity|exact Hin].
    eapply issues_only_run_eq; [|exact H2]. issues_only_tac. }
  apply run_call_inr in H2. subst tr1.
  (* the executable is prepared *)
  apply run_bind_cases in H
    as [(e & H & ->)|(prep & w6 & [] & tr5 & H2 & H & ->)].
  { exfalso.
    eapply (Hno [KSandboxPrepareForExecution]); [|reflexivity|exact Hin].
    eapply issues_only_run_eq; [|exact H]. issues_only_tac. }
  apply in_app_or in Hin as [Hin|Hin].
  { exfalso.
    eapply (Hno [KSandboxPrepareForExecution]); [|reflexivity|exact Hin].
    eapply issues_only_run_eq; [|exact H2]. issues_only_tac. }
  assert (Hprep : preparation request tmp prep).
  { unfold preparation. rewrite <- Hb. destruct b.
    - cbn [bind run call] in H2.
      destruct (h (SandboxPrepareForExecution _) w5) as [w7 [e|[[] msg]]];
        cbn in H2; try discriminate H2.
      inversion H2; subst. now exists msg.
    - cbn in H2. now inversion H2. }
  clear H2.
  (* the guarded block *)
  unfold guarded_execute in H.
  cbn [bind run call with_destructor after_destructor] in H.
  destruct (h (ThreadGuardAcquire (exclusive request)) w6) as [w7 [e|[]]].
  { cbn in H. injection H as <- _ _. destruct Hin as [<-|[]]. discriminate Hk. }
  cbn [bind run call with_destructor after_destructor] in H.
  destruct (h (SandboxExecute _) w7) as [w8 r].
  exists staged, prep, _, r,
    (snd (h (ThreadGuardRelease (exclusive request)) w8)).
  destruct r as [e|[[[] info] msg]];
    cbn [bind run call with_destructor after_destructor] in H;
    destruct (h (ThreadGuardRelease (exclusive request)) w8) as [w9 [e'|[]]];
    cbn in H; injection H as <- _ <-;
    (split; [now rewrite <- ?app_assoc|]);
    repeat (split; [assumption|]);
    intros info' Hi; try discriminate Hi.
  injection Hi as <-. now exists msg.
Qed.

(** What output extraction leaves untouched in a response. *)
Local Abbreviation same_report r r0 :=
  (resource_usage r = resource_usage r0
   /\ rsp_status_code r = rsp_status_code r0
   /\ rsp_signal r = rsp_signal r0).

(** The standard streams and the declared outputs of a request. *)
Local Abbreviation outputs_of request :=
  (FileInfo_of_type STDOUT :: FileInfo_of_type STDERR :: output request).

(** The runs of [RetrieveFile]. *)
Lemma RetrieveFile_runs info tmp response (w : W) tr w1 res :
  run h (RetrieveFile self info tmp response) w = (tr, w1, res) ->
  (tr = [] /\ res = inl (runtime_error "Invalid file name"))
  \/ (exists e,
        tr = [Ev (FileHash (source_of tmp info)) (inl e)] /\ res = inl e)
  \/ (exists digest e,
        tr = [Ev (FileHash (source_of tmp info)) (inr digest);
              Ev (FileCopy (source_of tmp info) (stored_at self digest))
                (inl e)]
        /\ res = inl e)
  \/ (exists digest,
        tr = extraction self tmp info digest
        /\ res = inr (add_output (SetSHA digest info) response)).
Proof.
  unfold RetrieveFile, source_of, extraction, stored_at.
  set (n := if FileType_eqb (type info) STDOUT then "stdout"
            else if FileType_eqb (type info) STDERR then "stderr"
            else File.JoinPath kBoxDir (name info)).
  set (p := if _ || _ then _ else _).
  assert (Hp : p = Throw (runtime_error "Invalid file name") \/ p = Ret n).
  { subst p n. destruct (type info); cbn; eauto;
      destruct (has_illegal_char (name info)); eauto. }
  destruct Hp as [-> | ->]; cbn [bind run call]; intros H.
  - left. inversion H. now split.
  - right. destruct (h (FileHash (File.JoinPath tmp n)) w) as [w2 [e|digest]].
    + cbn in H. inversion H; subst. left. now exists e.
    + right. cbn [bind run call] in H.
      destruct (h (FileCopy (File.JoinPath tmp n)
                     (File.SHAToPath (flags_store_directory self)
                        (store_directory_ self) digest)) w2) as [w3 [e|[]]];
        cbn in H; inversion H; subst.
      * left. now exists digest, e.
      * right. now exists digest.
Qed.

Lemma retrieve_declared_retrieved tmp response info (w : W) tr w1 r :
  run h (retrieve_declared self tmp response info) w = (tr, w1, inr r) ->
  (exists digest,
      tr = extraction self tmp info digest
      /\ r = add_output (SetSHA digest info) response)
  \/ (missing self tmp info tr /\ r = demoted response).
Proof.
  intros H.
  destruct (run h (RetrieveFile self info tmp response) w)
    as [[tr0 w0] [e|r0]] eqn:E.
  - rewrite (retrieve_declared_catch self h _ _ _ _ _ _ _ E) in H.
    destruct (is_not_found e) eqn:Enf; [|discriminate].
    inversion H; subst. right. split; [|reflexivity].
    apply RetrieveFile_runs in E
      as [[_ He]|[(e' & -> & He)|[(d & e' & -> & He)|(d & _ & He)]]];
      try discriminate He; injection He as ->.
    + discriminate Enf.
    + left. now exists e'.
    + right. now exists d, e'.
  - unfold retrieve_declared in H.
    rewrite run_try_catch, E in H by reflexivity.
    inversion H; subst. left.
    apply RetrieveFile_runs in E
      as [[_ He]|[(e' & _ & He)|[(d & e' & _ & He)|(d & -> & He)]]];
      try discriminate He. injection He as ->. now exists d.
Qed.

Lemma demoted_same_report response :
  same_report (demoted response) response
  /\ rsp_output (demoted response) = rsp_output response.
Proof.
  unfold demoted. now destruct (Status_eqb (status response) SUCCESS).
Qed.

Lemma declared_outputs_retrieved tmp (outs : list FileInfo) response (w : W)
    tr w1 r :
  run h (for_each outs (retrieve_declared self tmp) response) w
  = (tr, w1, inr r) ->
  exists found,
    retrieved self tmp outs tr found
    /\ rsp_output r = rsp_output response ++ found
    /\ same_report r response.
Proof.
  revert response w tr. induction outs as [|f outs IH]; intros response w tr H.
  - cbn in H. inversion H; subst. exists [].
    rewrite app_nil_r. now repeat split.
  - cbn [for_each] in H.
    apply run_bind_inr in H as (tr1 & w2 & r1 & tr2 & H1 & H2 & ->).
    apply IH in H2 as (found & Hr & Ho & Hu & Hc & Hg).
    apply retrieve_declared_retrieved in H1 as [(digest & -> & ->)|[Hm ->]].
    + exists (SetSHA digest f :: found). split; [|split].
      * left. now exists digest, tr2, found.
      * rewrite Ho. cbn. now rewrite <- app_assoc.
      * now repeat split.
    + destruct (demoted_same_report response) as [(Hu' & Hc' & Hg') Ho'].
      exists found. split; [|split].
      * right. now exists tr1, tr2.
      * now rewrite Ho, Ho'.
      * repeat split; congruence.
Qed.

Lemma retrieve_outputs_retrieved request tmp response (w : W) tr w1 r :
  run h (retrieve_outputs self request tmp response) w = (tr, w1, inr r) ->
  exists a b declared found,
    tr = extraction self tmp (FileInfo_of_type STDOUT) a
         ++ extraction self tmp (FileInfo_of_type STDERR) b ++ declared
    /\ retrieved self tmp (output request) declared found
    /\ rsp_output r
       = rsp_output response
         ++ SetSHA a (FileInfo_of_type STDOUT)
            :: SetSHA b (FileInfo_of_type STDERR) :: found
    /\ same_report r response.
Proof.
  unfold retrieve_outputs. intros H.
  apply run_bind_inr in H as (tr1 & w2 & r1 & tr' & H1 & H & ->).
  apply run_bind_inr in H as (tr2 & w3 & r2 & tr3 & H2 & H3 & ->).
  apply RetrieveFile_runs in H1
    as [[_ He]|[(e' & _ & He)|[(d & e' & _ & He)|(a & -> & He)]]];
    try discriminate He. injection He as ->.
  apply RetrieveFile_runs in H2
    as [[_ He]|[(e' & _ & He)|[(d & e' & _ & He)|(b & -> & He)]]];
    try discriminate He. injection He as ->.
  apply declared_outputs_retrieved in H3 as (found & Hr & Ho & Hu).
  exists a, b, tr3, found. split; [reflexivity|]. split; [exact Hr|].
  split; [|exact Hu]. rewrite Ho. cbn. now rewrite <- !app_assoc.
Qed.

(** *** Every copy after the sandbox ran is a copy of output extraction *)

Lemma extraction_only_app tmp outs (tr1 tr2 : list event) :
  extraction_only self tmp outs tr1 -> extraction_only self tmp outs tr2 ->
  extraction_only self tmp outs (tr1 ++ tr2).
Proof.
  intros H1 H2 a ev b Heq.
  assert (Hcase : (exists l, tr1 = a ++ ev :: l)
                  \/ exists p2, a = tr1 ++ p2 /\ tr2 = p2 ++ ev :: b).
  { apply app_eq_app in Heq as [l [[-> Hl]|[-> Hl]]].
    - destruct l as [|x l]; cbn in Hl.
      + right. exists []. rewrite !app_nil_r. now split.
      + injection Hl as <- ->. left. now exists l.
    - right. now exists l. }
  destruct Hcase as [[l ->]|(p2 & -> & ->)].
  - exact (H1 a ev l eq_refl).
  - specialize (H2 p2 ev b eq_refl).
    destruct (ev_cmd ev); try exact H2.
    destruct H2 as (tr0 & digest & -> & ->).
    exists (tr1 ++ tr0), digest. now rewrite app_assoc.
Qed.

Lemma extraction_only_incl tmp outs outs' (tr : list event) :
  (forall o, In o outs -> In o outs') ->
  extraction_only self tmp outs tr -> extraction_only self tmp outs' tr.
Proof.
  intros Hi H a ev b Heq. specialize (H a ev b Heq).
  destruct (ev_cmd ev); try exact H.
  destruct H as (o & Ho & ->). exists o. split; [now apply Hi|reflexivity].
Qed.

Lemma extraction_only_other tmp outs ks (tr : list event) :
  Forall (fun ev => of_kinds ks (ev_cmd ev) = true) tr ->
  existsb (kind_eqb KFileHash) ks = false ->
  existsb (kind_eqb KFileCopy) ks = false ->
  extraction_only self tmp outs tr.
Proof.
  intros Hk Hh Hc a ev b ->.
  assert (Hev : of_kinds ks (ev_cmd ev) = true).
  { apply (in_of_kinds _ _ _ Hk). apply in_or_app. right. now left. }
  unfold of_kinds in Hev.
  destruct (ev_cmd ev); try exact I; cbn [kind_of] in Hev; congruence.
Qed.

Lemma RetrieveFile_extraction_only info tmp response (w : W) :
  extraction_only self tmp [info]
    (trace_of (run h (RetrieveFile self info tmp response) w)).
Proof.
  destruct (run h (RetrieveFile self info tmp response) w)
    as [[tr w1] res] eqn:E.
  cbn [trace_of fst].
  assert (Hh : exists output,
             In output [info] /\ source_of tmp info = source_of tmp output)
    by (exists info; split; [now left|reflexivity]).
  apply RetrieveFile_runs in E
    as [[-> _]|[(e & -> & _)|[(d & e & -> & _)|(d & -> & _)]]];
    unfold extraction; intros a ev b Heq.
  - now destruct a.
  - destruct a as [|x [|y a]]; try discriminate Heq.
    injection Heq as <- <-. exact Hh.
  - destruct a as [|x [|y [|z a]]]; try discriminate Heq.
    + injection Heq as <- <-. exact Hh.
    + injection Heq as <- <- <-. cbn. now exists [], d.
  - destruct a as [|x [|y [|z a]]]; try discriminate Heq.
    + injection Heq as <- <-. exact Hh.
    + injection Heq as <- <- <-. cbn. now exists [], d.
Qed.

Lemma retrieve_declared_trace tmp response info (w : W) :
  trace_of (run h (retrieve_declared self tmp response info) w)
  = trace_of (run h (RetrieveFile self info tmp response) w).
Proof.
  destruct (run h (RetrieveFile self info tmp response) w)
    as [[tr0 w0] [e|r0]] eqn:E.
  - now rewrite (retrieve_declared_catch self h _ _ _ _ _ _ _ E).
  - unfold retrieve_declared. now rewrite run_try_catch, E by reflexivity.
Qed.

Lemma declared_outputs_extraction_only tmp (outs : list FileInfo) response
    (w : W) :
  extraction_only self tmp outs
    (trace_of (run h (for_each outs (retrieve_declared self tmp) response) w)).
Proof.
  revert response w. induction outs as [|f outs IH]; intros response w.
  - cbn. intros a ev b Heq. now destruct a.
  - cbn [for_each]. rewrite run_bind.
    pose proof (retrieve_declared_trace tmp response f w) as Ht.
    pose proof (RetrieveFile_extraction_only f tmp response w) as Hf.
    rewrite <- Ht in Hf.
    destruct (run h (retrieve_declared self tmp response f) w)
      as [[tr1 w1] [e|r1]]; cbn [trace_of fst] in *.
    + eapply extraction_only_incl; [|exact Hf]. intros o [<-|[]]. now left.
    + specialize (IH r1 w1).
      destruct (run h (for_each outs (retrieve_declared self tmp) r1) w1)
        as [[tr2 w2] res]. cbn [trace_of fst] in *.
      apply extraction_only_app.
      * eapply extraction_only_incl; [|exact Hf]. intros o [<-|[]]. now left.
      * eapply extraction_only_incl; [|exact IH]. intros o Ho. now right.
Qed.

Lemma retrieve_outputs_extraction_only request tmp response (w : W) :
  extraction_only self tmp (outputs_of request)
    (trace_of (run h (retrieve_outputs self request tmp response) w)).
Proof.
  unfold retrieve_outputs. rewrite run_bind.
  pose proof (RetrieveFile_extraction_only (FileInfo_of_type STDOUT) tmp
                response w) as H1.
  destruct (run h (RetrieveFile self (FileInfo_of_type STDOUT) tmp response) w)
    as [[tr1 w1] [e|r1]]; cbn [trace_of fst] in *.
  { eapply extraction_only_incl; [|exact H1]. intros o [<-|[]]. now left. }
  rewrite run_bind.
  pose proof (RetrieveFile_extraction_only (FileInfo_of_type STDERR) tmp
                r1 w1) as H2.
  destruct (run h (RetrieveFile self (FileInfo_of_type STDERR) tmp r1) w1)
    as [[tr2 w2] [e|r2]]; cbn [trace_of fst] in *.
  { apply extraction_only_app.
    - eapply extraction_only_incl; [|exact H1]. intros o [<-|[]]. now left.
    - eapply extraction_only_incl; [|exact H2]. intros o [<-|[]].
      right. now left. }
  pose proof (declared_outputs_extraction_only tmp (output request) r2 w2)
    as H3.
  destruct (run h (for_each (output request) (retrieve_declared self tmp) r2) w2)
    as [[tr3 w3] res]. cbn [trace_of fst] in *.
  apply extraction_only_app; [|apply extraction_only_app].
  - eapply extraction_only_incl; [|exact H1]. intros o [<-|[]]. now left.
  - eapply extraction_only_incl; [|exact H2]. intros o [<-|[]].
    right. now left.
  - eapply extraction_only_incl; [|exact H3]. intros o Ho. right. now right.
Qed.

(** *** The scope of the temporary directory *)

Lemma TempDir_dtor_returns tmp request (w : W) tr w1 u :
  run h (TempDir.dtor tmp (keep_sandbox request)) w = (tr, w1, inr u) ->
  tr = removal request tmp.
Proof.
  unfold TempDir.dtor, TempDir.RemoveTree, removal.
  destruct (keep_sandbox request); cbn [negb].
  - cbn. intros H. now inversion H.
  - intros H. apply (run_call_inr (FileRemoveTree tmp) w tr w1 u) in H.
    now destruct u.
Qed.

Lemma classify_same_report request info :
  same_report (classify request info (response_of_result info))
    (response_of_result info)
  /\ rsp_output (classify request info (response_of_result info)) = [].
Proof.
  unfold classify.
  repeat match goal with |- context [if ?c then _ else _] => destruct c end;
    now repeat split.
Qed.

(** The run of the scope of the temporary directory: the run of
    [execute_sandbox], followed by the extraction of the outputs and the
    removal of the directory. *)
Lemma Execute_scope request tmp (w : W) :
  let r := run h (with_destructor (Execute_in self request tmp)
                    (TempDir.dtor tmp (keep_sandbox request))) w in
  exists tr_s w3 res_s post,
    run h (execute_sandbox self request tmp) w = (tr_s, w3, res_s)
    /\ trace_of r = tr_s ++ post
    /\ Forall (fun ev => of_kinds after_kinds (ev_cmd ev) = true) post
    /\ extraction_only self tmp (outputs_of request) post
    /\ (forall response,
          result_of r = inr response ->
          exists info a b declared found,
            res_s = inr info
            /\ post = extraction self tmp (FileInfo_of_type STDOUT) a
                      ++ extraction self tmp (FileInfo_of_type STDERR) b
                      ++ declared ++ removal request tmp
            /\ retrieved self tmp (output request) declared found
            /\ rsp_output response
               = SetSHA a (FileInfo_of_type STDOUT)
                 :: SetSHA b (FileInfo_of_type STDERR) :: found
            /\ same_report response (response_of_result info)).
Proof.
  cbv zeta. rewrite run_with_destructor.
  pose proof (terminated_result h (Execute_in self request tmp) w) as Ht.
  unfold Execute_in in *. rewrite run_bind in *.
  destruct (run h (execute_sandbox self request tmp) w)
    as [[tr_s w3] [e|info]] eqn:Es.
  - exists tr_s, w3, (inl e).
    destruct (terminated h _ w).
    { exists []. cbn [trace_of result_of fst snd].
      split; [reflexivity|]. split; [now rewrite app_nil_r|].
      split; [constructor|]. split; [|discriminate].
      intros a ev b Heq. now destruct a. }
    destruct (run h (TempDir.dtor tmp (keep_sandbox request)) w3)
      as [[tr_d w4] rd] eqn:Ed.
    pose proof (issues_only_run_eq h _ _ _ _ _ _
                  (TempDir_dtor_kinds tmp (keep_sandbox request)) Ed) as Hkd.
    exists tr_d. cbn [trace_of result_of fst snd].
    split; [reflexivity|]. split; [reflexivity|]. split; [|split].
    + eapply Forall_of_kinds_incl; [|exact Hkd]. now intros [].
    + now apply (extraction_only_other _ _ [KFileRemoveTree]).
    + intros response Hr. now destruct rd.
  - pose proof (retrieve_outputs_extraction_only request tmp
                  (classify request info (response_of_result info)) w3) as Hx.
    destruct (run h (retrieve_outputs self request tmp
                       (classify request info (response_of_result info))) w3)
      as [[tr_r w4] rr] eqn:Er.
    pose proof (issues_only_run_eq h _ _ _ _ _ _
                  (retrieve_outputs_kinds self request tmp _) Er) as Hkr.
    cbn [trace_of result_of fst snd] in *.
    exists tr_s, w3, (inr info).
    destruct (terminated h _ w).
    { exists tr_r. cbn [trace_of result_of fst snd].
      split; [reflexivity|]. split; [reflexivity|]. split; [|split].
      - eapply Forall_of_kinds_incl; [|exact Hkr]. now intros [].
      - exact Hx.
      - intros response Hr. rewrite Ht in Hr by reflexivity. discriminate Hr. }
    destruct (run h (TempDir.dtor tmp (keep_sandbox request)) w4)
      as [[tr_d w5] rd] eqn:Ed.
    pose proof (issues_only_run_eq h _ _ _ _ _ _
                  (TempDir_dtor_kinds tmp (keep_sandbox request)) Ed) as Hkd.
    exists (tr_r ++ tr_d). cbn [trace_of result_of fst snd].
    split; [reflexivity|]. split; [now rewrite app_assoc|]. split; [|split].
    + apply Forall_app. split.
      * eapply Forall_of_kinds_incl; [|exact Hkr]. now intros [].
      * eapply Forall_of_kinds_incl; [|exact Hkd]. now intros [].
    + apply extraction_only_app; [exact Hx|].
      now apply (extraction_only_other _ _ [KFileRemoveTree]).
    + intros response Hr. destruct rd as [x|u]; [discriminate Hr|].
      subst rr. apply TempDir_dtor_returns in Ed. subst tr_d.
      apply retrieve_outputs_retrieved in Er
        as (a & b & declared & found & -> & Hret & Ho & Hu & Hc & Hg).
      destruct (classify_same_report request info)
        as [(Hu' & Hc' & Hg') Ho'].
      rewrite Ho' in Ho. cbn [app] in Ho.
      exists info, a, b, declared, found. split; [reflexivity|].
      split; [now rewrite <- !app_assoc|]. split; [exact Hret|].
      split; [exact Ho|]. repeat split; congruence.
Qed.

(** A run of [Execute] that reaches the sandbox. *)
Lemma Execute_reaches_sandbox request (w : W) :
  let r := run h (Execute self request) w in
  (exists ev, In ev (trace_of r) /\ kind_of (ev_cmd ev) = KSandboxExecute) ->
  exists chunks tmp staged prep options o rr post,
    trace_of r
    = before_sandbox self request chunks tmp staged prep
      ++ Ev (SandboxExecute options) o
      :: Ev (ThreadGuardRelease (exclusive request)) rr :: post
    /\ Forall2 (chunk_of self) (input request) chunks
    /\ clean (concat chunks)
    /\ tmp <> ""
    /\ map ev_cmd staged = concat (map (staging_of self tmp) (input request))
    /\ clean staged
    /\ Forall (fun i => legal_input i) (input request)
    /\ preparation request tmp prep
    /\ Forall (fun ev => of_kinds after_kinds (ev_cmd ev) = true) post
    /\ extraction_only self tmp (outputs_of request) post
    /\ (forall response,
          result_of r = inr response ->
          exists info msg a b declared found,
            o = inr (true, info, msg) /\ rr = inr tt
            /\ post = extraction self tmp (FileInfo_of_type STDOUT) a
                      ++ extraction self tmp (FileInfo_of_type STDERR) b
                      ++ declared ++ removal request tmp
            /\ retrieved self tmp (output request) declared found
            /\ rsp_output response
               = SetSHA a (FileInfo_of_type STDOUT)
                 :: SetSHA b (FileInfo_of_type STDERR) :: found
            /\ same_report response (response_of_result info)).
Proof.
  cbv zeta. unfold Execute. destruct (negb (fifo_size request =? 0)).
  { cbn. now intros (ev & [] & _). }
  intros (ev & Hin & Hk).
  assert (Hno : forall ks (tr0 : list event),
             Forall (fun ev => of_kinds ks (ev_cmd ev) = true) tr0 ->
             existsb (kind_eqb KSandboxExecute) ks = false ->
             In ev tr0 -> False).
  { intros ks tr0 Hks Hex Hin0. pose proof (in_of_kinds _ _ _ Hks Hin0) as Hc.
    unfold of_kinds in Hc. rewrite Hk in Hc. congruence. }
  rewrite run_bind in *.
  destruct (run h (materialize_inputs self request) w)
    as [[tr_m w1] [e|[]]] eqn:Em;
    pose proof (issues_only_run_eq h _ _ _ _ _ _
                  (materialize_inputs_kinds self request) Em) as Hkm.
  { exfalso. cbn [trace_of fst] in Hin. now apply (Hno _ _ Hkm). }
  apply materialize_inputs_returns in Em as (chunks & -> & Hch & Hcm).
  rewrite run_bind in *.
  destruct (run h (TempDir.ctor (temp_directory_ self)) w1)
    as [[tr_c w2] [e|tmp]] eqn:Ec;
    pose proof (issues_only_run_eq h _ _ _ _ _ _
                  (TempDir_ctor_kinds (temp_directory_ self)) Ec) as Hkc.
  { exfalso. cbn [trace_of fst] in Hin.
    apply in_app_or in Hin as [Hin|Hin];
      [now apply (Hno _ _ Hkm)|now apply (Hno _ _ Hkc)]. }
  apply TempDir_ctor_returns in Ec as [-> Hne].
  destruct (Execute_scope request tmp w2)
    as (tr_s & w3 & res_s & post & Es & Htr & Hkp & Hxp & Hres).
  destruct (run h (with_destructor (Execute_in self request tmp)
                     (TempDir.dtor tmp (keep_sandbox request))) w2)
    as [[tr' w'] res'].
  cbn [trace_of result_of fst snd] in *. subst tr'.
  assert (Hs : In ev tr_s).
  { apply in_app_or in Hin as [Hin|Hin]; [exfalso; now apply (Hno _ _ Hkm)|].
    apply in_app_or in Hin as [Hin|Hin]; [exfalso; now apply (Hno _ _ Hkc)|].
    apply in_app_or in Hin as [Hin|Hin]; [exact Hin|].
    exfalso. now apply (Hno _ _ Hkp). }
  destruct (execute_sandbox_anatomy request tmp w2 tr_s w3 res_s Es)
    as (staged & prep & options & o & rr & -> & Hst & Hcs & Hl & Hp & Hr).
  { now exists ev. }
  exists chunks, tmp, staged, prep, options, o, rr, post.
  split; [unfold before_sandbox; now rewrite <- !app_assoc|].
  repeat (split; [assumption|]).
  intros response Hresp.
  destruct (Hres response Hresp)
    as (info & a & b & declared & found & -> & -> & Hret & Ho & Hsame).
  destruct (Hr info eq_refl) as (msg & -> & ->).
  now exists info, msg, a, b, declared, found.
Qed.

(** *** Staging is complete before the sandbox is used *)

(** The commands of the sandbox and of the admission token. *)
Local Abbreviation sandbox_kinds :=
  [KSandboxCreate; KSandboxPrepareForExecution; KThreadGuardAcquire;
   KSandboxExecute; KThreadGuardRelease].

(** A run of [execute_sandbox] that holds a command of the sandbox or of
    the token: all the inputs were staged before. *)
Lemma execute_sandbox_staged request tmp (w : W) tr w1 res :
  run h (execute_sandbox self request tmp) w = (tr, w1, res) ->
  (exists ev, In ev tr /\ of_kinds sandbox_kinds (ev_cmd ev) = true) ->
  exists staged rest,
    tr = command_file request tmp
         ++ [Ev (FileMakeDirs (File.JoinPath tmp kBoxDir)) (inr tt)]
         ++ staged ++ rest
    /\ map ev_cmd staged = concat (map (staging_of self tmp) (input request))
    /\ clean staged
    /\ Forall (fun i => legal_input i) (input request)
    /\ Forall (fun ev => of_kinds [KFileCopy; KFileMakeExecutable] (ev_cmd ev)
                         = true) staged
    /\ Forall (fun ev => of_kinds sandbox_kinds (ev_cmd ev) = true) rest.
Proof.
  unfold execute_sandbox. intros H (ev & Hin & Hk).
  assert (Hno : forall ks (tr0 : list event),
             Forall (fun ev => of_kinds ks (ev_cmd ev) = true) tr0 ->
             (forall c, of_kinds ks c = true ->
                        of_kinds sandbox_kinds c = false) ->
             In ev tr0 -> False).
  { intros ks tr0 Hks Hex Hin0. pose proof (in_of_kinds _ _ _ Hks Hin0) as Hc.
    apply Hex in Hc. congruence. }
  apply run_bind_cases in H
    as [(e & H & ->)|(tr1 & w2 & [] & tr' & H1 & H & ->)].
  { exfalso. eapply (Hno [KWriteCommandFile]); [|now intros []|exact Hin].
    eapply issues_only_run_eq; [|exact H]. issues_only_tac. }
  apply in_app_or in Hin as [Hin|Hin].
  { exfalso. eapply (Hno [KWriteCommandFile]); [|now intros []|exact Hin].
    eapply issues_only_run_eq; [|exact H1]. issues_only_tac. }
  assert (tr1 = command_file request tmp) as ->.
  { unfold command_file. destruct (keep_sandbox request).
    - now apply run_call_inr in H1.
    - cbn in H1. now inversion H1. }
  clear H1.
  apply run_bind_cases in H
    as [(e & H & ->)|(tr1 & w3 & [] & tr'' & H1 & H & ->)].
  { exfalso. eapply (Hno [KFileMakeDirs]); [|now intros []|exact Hin].
    eapply issues_only_run_eq; [|exact H]. issues_only_tac. }
  apply in_app_or in Hin as [Hin|Hin].
  { exfalso. eapply (Hno [KFileMakeDirs]); [|now intros []|exact Hin].
    eapply issues_only_run_eq; [|exact H1]. issues_only_tac. }
  apply run_call_inr in H1. subst tr1.
  apply run_bind_cases in H
    as [(e & H & ->)|(staged & w4 & [[o fs] b] & rest & H1 & H & ->)].
  { exfalso.
    eapply (Hno [KFileCopy; KFileMakeExecutable]); [|now intros []|exact Hin].
    eapply issues_only_run_eq; [apply stage_inputs_kinds|exact H]. }
  pose proof (issues_only_run_eq h _ _ _ _ _ _
                (stage_inputs_kinds self request tmp _ _) H1) as Hks.
  apply stage_inputs_staged in H1 as (Hs & Hc & Hl).
  exists staged, rest. split; [now rewrite <- ?app_assoc|].
  repeat (split; [assumption|]).
  eapply issues_only_run_eq; [|exact H].
  unfold guarded_execute. issues_only_tac.
Qed.

Lemma split_in_segment (k : kind) (A R B pre post : list event) ev :
  pre ++ ev :: post = A ++ R ++ B -> kind_of (ev_cmd ev) = k ->
  Forall (fun e => kind_of (ev_cmd e) <> k) A ->
  Forall (fun e => kind_of (ev_cmd e) <> k) B ->
  exists r1 r2, R = r1 ++ ev :: r2 /\ pre = A ++ r1 /\ post = r2 ++ B.
Proof.
  intros Heq Hev HA HB. revert pre Heq.
  induction HA as [|a A Ha _ IH]; intros pre Heq.
  - cbn [app] in Heq.
    assert (HinB : ~ In ev B).
    { intros Hin. rewrite Forall_forall in HB.
      apply list_elem_of_In in Hin. now apply (HB ev Hin). }
    apply app_eq_app in Heq as [l [[-> Hl]|[-> Hl]]].
    + exfalso. apply HinB. rewrite Hl. apply in_or_app. right. now left.
    + destruct l as [|x l]; cbn in Hl.
      * exfalso. apply HinB. rewrite <- Hl. now left.
      * injection Hl as <- ->. now exists pre, l.
  - destruct pre as [|p pre]; cbn in Heq.
    + injection Heq as -> _. now contradict Ha.
    + injection Heq as -> Heq.
      destruct (IH pre Heq) as (r1 & r2 & -> & -> & ->).
      now exists r1, r2.
Qed.

Lemma JoinPath_relative dir n :
  relative_path n -> File.JoinPath dir n = dir +:+ "/" +:+ n.
Proof.
  destruct n as [|c n]; [easy|]. cbn. intros H.
  unfold File.JoinPath. now rewrite H.
Qed.

Lemma legal_relative c n :
  has_illegal_char (String c n) = false -> relative_path (String c n).
Proof.
  unfold has_illegal_char. cbn. intros H.
  apply orb_false_iff in H as [H _]. exact H.
Qed.

Lemma JoinPath_box tmp n :
  has_illegal_char n = false ->
  File.JoinPath tmp (File.JoinPath kBoxDir n)
  = File.JoinPath (File.JoinPath tmp kBoxDir) n.
Proof.
  destruct n as [|c n]; [reflexivity|]. intros Hl.
  apply legal_relative in Hl.
  rewrite (JoinPath_relative kBoxDir _ Hl),
    (JoinPath_relative (File.JoinPath tmp kBoxDir) _ Hl).
  rewrite !JoinPath_relative by reflexivity.
  now rewrite append_assoc.
Qed.

Lemma stdin_not_prepared tmp exe :
  relative_path exe ->
  File.JoinPath tmp "stdin" <> File.JoinPath (File.JoinPath tmp kBoxDir) exe.
Proof.
  intros Hrel H.
  rewrite (JoinPath_relative _ exe Hrel) in H.
  rewrite !JoinPath_relative in H by reflexivity.
  rewrite append_assoc in H. apply append_inj_l in H.
  unfold kBoxDir in H. rewrite !append_cons, !append_nil in H.
  discriminate H.
Qed.

Lemma JoinPath_inj dir n exe :
  has_illegal_char n = false -> relative_path exe ->
  File.JoinPath dir n = File.JoinPath dir exe -> n = exe.
Proof.
  intros Hl Hrel H. rewrite (JoinPath_relative _ exe Hrel) in H.
  destruct n as [|c n].
  - exfalso. cbn in H. symmetry in H. apply append_eq_nil in H as [_ H].
    discriminate H.
  - rewrite (JoinPath_relative _ _ (legal_relative _ _ Hl)) in H.
    apply append_inj_l in H. now apply append_inj_l in H.
Qed.

(** The staged file that can be the file [PrepareForExecution] is asked
    for: that of an input other than the standard input, with the name of
    the executable. *)
Lemma target_is_prepared tmp input exe :
  legal_input input -> relative_path exe ->
  target_of tmp input = File.JoinPath (File.JoinPath tmp kBoxDir) exe ->
  type input <> STDIN /\ name input = exe.
Proof.
  intros Hl Hrel. unfold target_of.
  destruct (FileType_eqb (type input) STDIN) eqn:Et.
  - intros H. now apply stdin_not_prepared in H.
  - specialize (Hl eq_refl). rewrite (JoinPath_box _ _ Hl). intros H.
    split; [intros E; rewrite E in Et; discriminate Et|].
    now apply JoinPath_inj in H.
Qed.

Lemma clean_event (c : Cmd) (ev : event) :
  ev_cmd ev = c -> threw ev = false -> exists a, ev = Ev c (inr a).
Proof.
  destruct ev as [c' [e|a]]; cbn; intros <- H; [discriminate|]. now exists a.
Qed.

(** Every input was staged. *)
Lemma staged_input tmp (inputs : list FileInfo) (staged : list event) input :
  map ev_cmd staged = concat (map (staging_of self tmp) inputs) ->
  clean staged -> In input inputs ->
  In (Ev (FileCopy (ProtoSHAToPath self (store_directory_ self) (hash input))
            (target_of tmp input)) (inr tt)) staged.
Proof.
  intros Hs Hc Hin.
  assert (Hcmd : In (FileCopy
                       (ProtoSHAToPath self (store_directory_ self) (hash input))
                       (target_of tmp input)) (map ev_cmd staged)).
  { rewrite Hs. apply in_concat. exists (staging_of self tmp input).
    split; [now apply in_map|now left]. }
  apply in_map_iff in Hcmd as (ev & Hev & Hin').
  rewrite Forall_forall in Hc.
  destruct (clean_event _ _ Hev (Hc ev (proj2 (list_elem_of_In _ _) Hin')))
    as [[] ->].
  exact Hin'.
Qed.

(** Every copy of the staging is the copy of an input to its target. *)
Lemma staged_copy tmp (inputs : list FileInfo) (staged : list event)
    from to outcome :
  map ev_cmd staged = concat (map (staging_of self tmp) inputs) ->
  In (Ev (FileCopy from to) outcome) staged ->
  exists input, In input inputs /\ to = target_of tmp input.
Proof.
  intros Hs Hin.
  assert (Hcmd : In (FileCopy from to) (map ev_cmd staged))
    by (apply in_map_iff; eexists; split; [|exact Hin]; reflexivity).
  rewrite Hs in Hcmd. apply in_concat in Hcmd as (l & Hl & Hc).
  apply in_map_iff in Hl as (input & <- & Hi).
  exists input. split; [exact Hi|].
  unfold staging_of in Hc. destruct Hc as [Hc|Hc]; [now injection Hc|].
  destruct (executable input); [|destruct Hc].
  destruct Hc as [Hc|[]]. discriminate Hc.
Qed.

(** *** The three theorems on the course of a run *)

Lemma clean_before_sandbox request chunks tmp staged prep :
  clean (concat chunks) -> clean staged -> preparation request tmp prep ->
  clean (before_sandbox self request chunks tmp staged prep).
Proof.
  intros Hc Hs Hp. unfold before_sandbox. rewrite !Forall_app.
  split; [exact Hc|]. split; [now repeat constructor|].
  split.
  { unfold command_file. destruct (keep_sandbox request);
      now repeat constructor. }
  split; [now repeat constructor|]. split; [exact Hs|].
  split; [now repeat constructor|]. split; [|now repeat constructor].
  unfold preparation in Hp.
  destruct (names_executable request); [destruct Hp as [msg ->]|subst prep];
    now repeat constructor.
Qed.

(** X4. Staging is complete before the sandbox runs, and extraction
    starts only after it.  In a run of [Execute] that executes the sandbox,
    the commands in front of [Sandbox::Execute] are, in this order and all
    of them successful: the materialisation of every input, the creation of
    the temporary directory, the command file of a sandbox that is kept,
    the sandbox directory, the staging of every input of the request (the
    copy of its blob to its place in the temporary directory, and the
    change of mode of an executable one), the creation of the sandbox, the
    preparation of the executable, and the acquisition of the token.  The
    command behind [Sandbox::Execute] is the release of the token, and
    after it every [File::Hash] is of the file of an output of the request
    and every [File::Copy] puts the file that was just hashed into the
    store, under its digest; the only other command is the removal of the
    temporary directory. *)
Theorem sandbox_runs_between_staging_and_extraction
    (request : Request) (w : W) (pre post : list event) (ev : event) :
  trace_of (run h (Execute self request) w) = pre ++ ev :: post ->
  kind_of (ev_cmd ev) = KSandboxExecute ->
  (Forall (fun e => of_kinds (KThreadGuardAcquire :: before_kinds) (ev_cmd e)
                    = true) pre
   /\ Forall (fun e => of_kinds (KThreadGuardRelease :: after_kinds) (ev_cmd e)
                       = true) post)
  /\ exists chunks tmp staged prep rr post',
       pre = before_sandbox self request chunks tmp staged prep
       /\ Forall2 (chunk_of self) (input request) chunks
       /\ tmp <> ""
       /\ map ev_cmd staged
          = concat (map (staging_of self tmp) (input request))
       /\ preparation request tmp prep
       /\ Forall (fun e => threw e = false) pre
       /\ post = Ev (ThreadGuardRelease (exclusive request)) rr :: post'
       /\ Forall (fun e => of_kinds after_kinds (ev_cmd e) = true) post'
       /\ extraction_only self tmp (outputs_of request) post'.
Proof.
  intros Heq Hev.
  destruct (sandbox_between_phases self h request w pre post ev Heq Hev)
    as [Hpre Hpost].
  split; [now split|].
  destruct (Execute_reaches_sandbox request w)
    as (chunks & tmp & staged & prep & options & o & rr & post0 & Htr & Hch
        & Hcm & Hne & Hst & Hcs & Hl & Hp & Hkp & Hxp & _).
  { exists ev. split; [|exact Hev]. rewrite Heq. apply in_or_app.
    right. now left. }
  rewrite Heq in Htr.
  apply (split_at_kind KSandboxExecute) in Htr as [HP HQ];
    [|exact Hev|reflexivity| |].
  - exists chunks, tmp, staged, prep, rr, post0.
    split; [now rewrite HP|]. repeat (split; [assumption|]).
    split; [rewrite <- HP; now apply clean_before_sandbox|].
    split; [now rewrite HQ|]. now split.
  - apply (of_kinds_not_kind (KThreadGuardAcquire :: before_kinds));
      [reflexivity|exact Hpre].
  - apply (of_kinds_not_kind (KThreadGuardRelease :: after_kinds));
      [reflexivity|exact Hpost].
Qed.

(** X5. What a returned response describes was ingested.  A run of
    [Execute] that returns a response ends, behind the successful
    [Sandbox::Execute] and the release of the token, with the extraction
    of the standard output, of the standard error and of the declared
    outputs in the request's order, and the removal of the temporary
    directory.  The outputs of the response are the two streams and then
    those declared outputs that were not missing, each with the digest that
    [File::Hash] computed of its file in the temporary directory, under
    which [File::Copy] has put that file into the store; a declared output
    is missing, and left out, when its [File::Hash] or its [File::Copy]
    threw the not-found error.  The usage, the status code and the signal
    of the response are those the sandbox reported. *)
Theorem response_describes_ingested_outputs (request : Request) (w : W)
    (response : Response) :
  result_of (run h (Execute self request) w) = inr response ->
  exists chunks tmp staged prep options info msg a b declared found,
    trace_of (run h (Execute self request) w)
    = before_sandbox self request chunks tmp staged prep
      ++ [Ev (SandboxExecute options) (inr (true, info, msg));
          Ev (ThreadGuardRelease (exclusive request)) (inr tt)]
      ++ extraction self tmp (FileInfo_of_type STDOUT) a
      ++ extraction self tmp (FileInfo_of_type STDERR) b
      ++ declared ++ removal request tmp
    /\ retrieved self tmp (output request) declared found
    /\ rsp_output response
       = SetSHA a (FileInfo_of_type STDOUT)
         :: SetSHA b (FileInfo_of_type STDERR) :: found
    /\ resource_usage response = resource_usage (response_of_result info)
    /\ rsp_status_code response = status_code info
    /\ rsp_signal response = signal info.
Proof.
  intros Hr.
  destruct (Execute_response self h request w response Hr)
    as (tmp0 & options0 & info0 & msg0 & a0 & b0 & Hin & _).
  destruct (Execute_reaches_sandbox request w)
    as (chunks & tmp & staged & prep & options & o & rr & post & Htr & _
        & _ & _ & _ & _ & _ & _ & _ & _ & Hres).
  { eexists. split; [exact Hin|reflexivity]. }
  destruct (Hres response Hr)
    as (info & msg & a & b & declared & found & -> & -> & -> & Hret & Ho
        & Hu & Hc & Hg).
  exists chunks, tmp, staged, prep, options, info, msg, a, b, declared, found.
  split; [exact Htr|]. split; [exact Hret|]. split; [exact Ho|].
  now repeat split.
Qed.


End Anatomy.

(* ===================================================================== *)
(** ** LocalExecutor: the options of the sandbox *)
(* ===================================================================== *)

Section SandboxOptions.

Import LocalExecutor.

Context {num : Numerics} {W : Type}.

Variable self : Executor.
Variable h : handler W.

Local Abbreviation with_stdin tmp b o :=
  (if b : bool then set_stdin_file (File.JoinPath tmp "stdin") o else o).

Lemma PrepareFile_options info tmp o fs (w : W) tr w1 o' fs' :
  run h (PrepareFile self info tmp o fs) w = (tr, w1, inr (o', fs')) ->
  o' = with_stdin tmp (FileType_eqb (type info) STDIN) o.
Proof.
  unfold PrepareFile. intros H.
  apply run_bind_inr in H as (tr1 & w2 & [n o1] & tr2 & H1 & H2 & _).
  apply run_bind_inr in H2 as (tr3 & w3 & u & tr4 & _ & H2 & _).
  apply run_bind_inr in H2 as (tr5 & w4 & u' & tr6 & _ & H2 & _).
  cbn in H2. injection H2 as _ _ <- _.
  destruct (FileType_eqb (type info) STDIN).
  - cbn in H1. now injection H1 as _ _ _ <-.
  - destruct (has_illegal_char (name info)); [discriminate H1|].
    cbn in H1. now injection H1 as _ _ _ <-.
Qed.

Lemma stage_inputs_options request tmp (l : list FileInfo) o fs b (w : W)
    tr w1 o' fs' b' :
  run h (for_each l (stage_input self request tmp) (o, fs, b)) w
  = (tr, w1, inr (o', fs', b')) ->
  o' = with_stdin tmp (existsb (fun i => FileType_eqb (type i) STDIN) l) o.
Proof.
  revert o fs b w tr. induction l as [|a l IH]; intros o fs b w tr H.
  - cbn in H. now injection H as _ _ <- _ _.
  - cbn [for_each] in H.
    apply run_bind_inr in H as (tr1 & w2 & [[o1 fs1] b1] & tr2 & H1 & H2 & ->).
    apply IH in H2. unfold stage_input in H1.
    apply run_bind_inr in H1 as (tr3 & w3 & [o2 fs2] & tr4 & H1 & H3 & _).
    apply PrepareFile_options in H1.
    assert (o1 = o2) as ->.
    { destruct (String.eqb (name a) (req_executable request));
        cbn in H3; now injection H3 as _ _ <- _ _. }
    subst o' o2. cbn [existsb].
    destruct (FileType_eqb (type a) STDIN); cbn [orb]; [|reflexivity].
    now destruct (existsb _ l).
Qed.

Lemma executed_with_kind ev o :
  executed_with ev = Some o -> kind_of (ev_cmd ev) = KSandboxExecute.
Proof. destruct ev as [[] r]; cbn; congruence. Qed.

(** The options [execute_sandbox] runs the sandbox with. *)
Local Abbreviation options_of request tmp :=
  (set_stdout_stderr (File.JoinPath tmp "stdout") (File.JoinPath tmp "stderr")
     (with_stdin tmp (has_stdin request)
        (initial_options request (File.JoinPath tmp kBoxDir)))).

Lemma execute_sandbox_options request tmp (w : W) tr w1 res ev o :
  run h (execute_sandbox self request tmp) w = (tr, w1, res) ->
  In ev tr -> executed_with ev = Some o -> o = options_of request tmp.
Proof.
  unfold execute_sandbox. intros H Hin Ho.
  pose proof (executed_with_kind _ _ Ho) as Hk.
  assert (Hno : forall ks (tr0 : list event),
             Forall (fun ev => of_kinds ks (ev_cmd ev) = true) tr0 ->
             existsb (kind_eqb KSandboxExecute) ks = false ->
             In ev tr0 -> False).
  { intros ks tr0 Hks Hex Hin0. pose proof (in_of_kinds _ _ _ Hks Hin0) as Hc.
    unfold of_kinds in Hc. rewrite Hk in Hc. congruence. }
  apply run_bind_cases in H
    as [(e & H & ->)|(tr1 & w2 & [] & tr' & H1 & H & ->)].
  { exfalso. eapply (Hno [KWriteCommandFile]); [|reflexivity|exact Hin].
    eapply issues_only_run_eq; [|exact H]. issues_only_tac. }
  apply in_app_or in Hin as [Hin|Hin].
  { exfalso. eapply (Hno [KWriteCommandFile]); [|reflexivity|exact Hin].
    eapply issues_only_run_eq; [|exact H1]. issues_only_tac. }
  clear H1 tr1. apply run_bind_cases in H
    as [(e & H & ->)|(tr1 & w3 & [] & tr'' & H1 & H & ->)].
  { exfalso. eapply (Hno [KFileMakeDirs]); [|reflexivity|exact Hin].
    eapply issues_only_run_eq; [|exact H]. issues_only_tac. }
  apply in_app_or in Hin as [Hin|Hin].
  { exfalso. eapply (Hno [KFileMakeDirs]); [|reflexivity|exact Hin].
    eapply issues_only_run_eq; [|exact H1]. issues_only_tac. }
  clear H1 tr1. apply run_bind_cases in H
    as [(e & H & ->)|(tr1 & w4 & [[o1 fs] b] & tr3 & H1 & H & ->)].
  { exfalso.
    eapply (Hno [KFileCopy; KFileMakeExecutable]); [|reflexivity|exact Hin].
    eapply issues_only_run_eq; [apply stage_inputs_kinds|exact H]. }
  apply in_app_or in Hin as [Hin|Hin].
  { exfalso.
    eapply (Hno [KFileCopy; KFileMakeExecutable]); [|reflexivity|exact Hin].
    eapply issues_only_run_eq; [apply stage_inputs_kinds|exact H1]. }
  apply stage_inputs_options in H1. subst o1. clear tr1.
  apply run_bind_cases in H
    as [(e & H & ->)|(tr1 & w5 & [] & tr4 & H2 & H & ->)].
  { exfalso. eapply (Hno [KSandboxCreate]); [|reflexivity|exact Hin].
    eapply issues_only_run_eq; [|exact H]. issues_only_tac. }
  apply in_app_or in Hin as [Hin|Hin].
  { exfalso. eapply (Hno [KSandboxCreate]); [|reflexivity|exact Hin].
    eapply issues_only_run_eq; [|exact H2]. issues_only_tac. }
  clear H2 tr1. apply run_bind_cases in H
    as [(e & H & ->)|(tr1 & w6 & [] & tr5 & H2 & H & ->)].
  { exfalso.
    eapply (Hno [KSandboxPrepareForExecution]); [|reflexivity|exact Hin].
    eapply issues_only_run_eq; [|exact H]. issues_only_tac. }
  apply in_app_or in Hin as [Hin|Hin].
  { exfalso.
    eapply (Hno [KSandboxPrepareForExecution]); [|reflexivity|exact Hin].
    eapply issues_only_run_eq; [|exact H2]. issues_only_tac. }
  clear H2 tr1. unfold guarded_execute in H. cbn [bind run call] in H.
  destruct (h (ThreadGuardAcquire (exclusive request)) w6) as [w7 [e|[]]].
  { cbn in H. injection H as <- _ _. destruct Hin as [<-|[]]. discriminate Ho. }
  cbn [bind run call with_destructor after_destructor] in H.
  destruct (h (SandboxExecute _) w7) as [w8 r].
  destruct r as [e|[[[] info] msg]];
    cbn [bind run call with_destructor after_destructor] in H;
    destruct (h (ThreadGuardRelease (exclusive request)) w8) as [w9 [e'|[]]];
    cbn in H; injection H as <- _ _;
    (destruct Hin as [<-|[<-|[<-|[]]]];
     [discriminate Ho|cbn in Ho; now injection Ho as <-|discriminate Ho]).
Qed.

(** X8. The sandbox works in the temporary directory of the run: the
    options [Execute] hands to [Sandbox::Execute] have the [box] of this
    run's temporary directory as root, the executable and the arguments of
    the request, the files [stdout] and [stderr] of the temporary
    directory for the output streams, its file [stdin] for the input
    stream exactly when the request has an input of type [STDIN], and the
    limits derived from the request. *)
Theorem sandbox_works_in_the_temporary_directory
    (request : Request) (w : W) (options : ExecutionOptions) outcome :
  let tr := trace_of (run h (Execute self request) w) in
  In (Ev (SandboxExecute options) outcome) tr ->
  exists tmp,
    In (Ev (OsTempDir (temp_directory_ self)) (inr tmp)) tr
    /\ root options = File.JoinPath tmp kBoxDir
    /\ opt_executable options = req_executable request
    /\ args options = arg request
    /\ stdout_file options = File.JoinPath tmp "stdout"
    /\ stderr_file options = File.JoinPath tmp "stderr"
    /\ stdin_file options
       = (if has_stdin request then File.JoinPath tmp "stdin" else "")
    /\ limits_of options = requested_limits request.
Proof.
  cbv zeta. intros Hin.
  destruct (Z.eqb_spec (fifo_size request) 0) as [Hf|Hf].
  2:{ unfold Execute in Hin. apply Z.eqb_neq in Hf. rewrite Hf in Hin.
      destruct Hin. }
  destruct (Execute_stages self h request w Hf)
    as (tr_m & w1 & res_m & Em & Hst).
  pose proof (issues_only_run_eq h _ _ _ _ _ _
                (materialize_inputs_kinds self request) Em) as Hkm.
  assert (Hno : forall ks (tr0 : list event),
             Forall (fun ev => of_kinds ks (ev_cmd ev) = true) tr0 ->
             existsb (kind_eqb KSandboxExecute) ks = false ->
             In (Ev (SandboxExecute options) outcome) tr0 -> False).
  { intros ks tr0 Hks Hex Hin0. pose proof (in_of_kinds _ _ _ Hks Hin0) as Hc.
    unfold of_kinds in Hc. cbn [ev_cmd kind_of] in Hc. congruence. }
  destruct Hst as [(e & _ & Htr & _)|(tr_c & w2 & res_c & _ & Ec & Hst)].
  { rewrite Htr in Hin. exfalso. now apply (Hno _ _ Hkm). }
  pose proof (issues_only_run_eq h _ _ _ _ _ _
                (TempDir_ctor_kinds (temp_directory_ self)) Ec) as Hkc.
  destruct Hst as [(e & _ & Htr & _)
                  |(tmp & tr_s & w3 & res_s & tr_post & -> & Es & Htr & Hp & _)].
  { rewrite Htr in Hin. exfalso. apply in_app_or in Hin as [Hin|Hin].
    - now apply (Hno _ _ Hkm).
    - now apply (Hno _ _ Hkc). }
  rewrite Htr in *.
  assert (Hs : In (Ev (SandboxExecute options) outcome) tr_s).
  { apply in_app_or in Hin as [Hin|Hin]; [exfalso; now apply (Hno _ _ Hkm)|].
    apply in_app_or in Hin as [Hin|Hin]; [exfalso; now apply (Hno _ _ Hkc)|].
    apply in_app_or in Hin as [Hin|Hin]; [exact Hin|].
    exfalso. now apply (Hno _ _ Hp). }
  pose proof (execute_sandbox_options request tmp w2 tr_s w3 res_s _ options
                Es Hs eq_refl) as ->.
  exists tmp. split.
  { apply in_or_app. right. apply in_or_app. left.
    pose proof (TempDir_ctor_runs h (temp_directory_ self) w1) as Hc.
    cbv zeta in Hc. rewrite Ec in Hc. cbn in Hc. apply Hc. }
  destruct (has_stdin request); now repeat split.
Qed.

End SandboxOptions.

(* ===================================================================== *)
(** ** LocalExecutor: illegal names of output files *)
(* ===================================================================== *)

Section IllegalOutputs.

Import LocalExecutor.

Context {num : Numerics} {W : Type}.

Variable self : Executor.
Variable h : handler W.

(** The run [r] is the run [r'] but for failing with [x] where [r']
    returns. *)
Local Abbreviation fails_like x r r' :=
  (r = (trace_of r', snd (fst r'), fails_where_returns x (result_of r'))).

Lemma fails_like_bind {A B} (x : exn) (p : Prog A) (q q' : A -> Prog B)
    (w : W) :
  (forall a w1, fails_like x (run h (q a) w1) (run h (q' a) w1)) ->
  fails_like x (run h (bind p q) w) (run h (bind p q') w).
Proof.
  intros Hq. rewrite !run_bind.
  destruct (run h p w) as [[tr w1] [e|a]]; [reflexivity|].
  rewrite (Hq a w1).
  now destruct (run h (q' a) w1) as [[tr2 w2] r2].
Qed.

Lemma fails_like_with_destructor {A} (x : exn) (p p' : Prog A)
    (d : Prog unit) (w : W) :
  terminated h p w = terminated h p' w ->
  fails_like x (run h p w) (run h p' w) ->
  fails_like x (run h (with_destructor p d) w)
    (run h (with_destructor p' d) w).
Proof.
  intros Ht Hp. rewrite !run_with_destructor, Hp, Ht.
  destruct (run h p' w) as [[tr w1] r]. cbn [trace_of result_of fst snd].
  destruct (terminated h p' w); [reflexivity|].
  destruct (run h d w1) as [[tr2 w2] [e|u]]; cbn; [reflexivity|].
  reflexivity.
Qed.

Lemma retrieve_declared_illegal tmp response bad :
  illegal_output bad ->
  retrieve_declared self tmp response bad
  = Throw (runtime_error "Invalid file name").
Proof.
  intros (Ho & He & Hc). unfold retrieve_declared, RetrieveFile.
  assert (FileType_eqb (type bad) STDOUT = false) as ->
    by (destruct (type bad); try reflexivity; now contradict Ho).
  assert (FileType_eqb (type bad) STDERR = false) as ->
    by (destruct (type bad); try reflexivity; now contradict He).
  now rewrite Hc.
Qed.

Lemma declared_outputs_illegal tmp (pre post : list FileInfo) bad response
    (w : W) :
  illegal_output bad ->
  fails_like (runtime_error "Invalid file name")
    (run h (for_each (pre ++ bad :: post) (retrieve_declared self tmp)
              response) w)
    (run h (for_each pre (retrieve_declared self tmp) response) w).
Proof.
  intros Hbad. revert response w.
  induction pre as [|a pre IH]; intros response w.
  - cbn [app for_each]. now rewrite (retrieve_declared_illegal _ _ _ Hbad).
  - cbn [app for_each]. apply fails_like_bind. intros r w1. apply IH.
Qed.

(** X9. The names of the declared outputs are looked at only when the
    outputs are extracted: a request with a declared output of illegal
    name runs exactly like the request that declares only the outputs
    before it, the sandbox included, and raises the runtime error
    [Invalid file name] where that run returns its response; the [catch]
    clause for missing files does not take it. *)
Theorem illegal_output_name_fails_after_the_run
    (request : Request) (pre post : list FileInfo) (bad : FileInfo) (w : W) :
  output request = pre ++ bad :: post ->
  illegal_output bad ->
  let r := run h (Execute self request) w in
  let r' := run h (Execute self (with_outputs request pre)) w in
  trace_of r = trace_of r'
  /\ result_of r
     = fails_where_returns (runtime_error "Invalid file name") (result_of r').
Proof.
  intros Hout Hbad r r'.
  assert (H : fails_like (runtime_error "Invalid file name") r r').
  { subst r r'. unfold Execute. cbn [fifo_size with_outputs].
    destruct (negb (fifo_size request =? 0)); [reflexivity|].
    change (materialize_inputs self (with_outputs request pre))
      with (materialize_inputs self request).
    apply fails_like_bind. intros _ w1.
    cbn [keep_sandbox with_outputs].
    apply fails_like_bind. intros tmp w2.
    apply fails_like_with_destructor; unfold Execute_in;
      change (execute_sandbox self (with_outputs request pre) tmp)
        with (execute_sandbox self request tmp).
    { rewrite !terminated_bind.
      destruct (run h (execute_sandbox self request tmp) w2)
        as [[trs w3] [e|info]]; [reflexivity|].
      now rewrite !no_destructor_run
        by apply retrieve_outputs_no_destructor. }
    apply fails_like_bind. intros info w3.
    change (classify (with_outputs request pre) info (response_of_result info))
      with (classify request info (response_of_result info)).
    unfold retrieve_outputs. cbn [output with_outputs]. rewrite Hout.
    apply fails_like_bind. intros r1 w4.
    apply fails_like_bind. intros r2 w5.
    now apply declared_outputs_illegal. }
  rewrite H. now split.
Qed.

End IllegalOutputs.

(* ===================================================================== *)
(** ** ThreadGuard: exclusion *)
(* ===================================================================== *)

Section ThreadGuardExclusion.

Import ThreadGuard.

(** X10. On a worker with at least one slot an exclusive token excludes:
    after every sequence of constructor and destructor calls from
    [cur = 0], an exclusive token that is alive is the only token alive,
    and the tokens alive are never more than the slots. *)
Theorem exclusive_token_excludes (max : Z) (ops : list op) :
  1 <= max < 2 ^ 64 ->
  let s := steps max ops initial in
  (In true (live s) -> live s = [true])
  /\ Z.of_nat (length (live s)) <= max.
Proof.
  intros Hmax s.
  assert (guard_inv max s) as [Hr Hs].
  { apply guard_inv_steps, guard_inv_initial; lia. }
  destruct Hs as [[Hf Hc]|(Hf & Hn & Hc & [Hl|Hl])]; [| |lia].
  - split; [|lia]. intros Hin. rewrite Forall_forall in Hf.
    apply list_elem_of_In, Hf in Hin. discriminate.
  - destruct (live s) as [|e [|e' l]]; try discriminate Hl.
    apply Forall_inv in Hf. subst e. split; [reflexivity|simpl; lia].
Qed.

(** X11. A worker with no slot ([MaxThreads()] is 0, its initial value and
    what [hardware_concurrency] may return) refuses every shared token and
    grants every exclusive one, so that exclusive tokens do not exclude
    each other: after every sequence of calls the counter is 0 and only
    exclusive tokens are alive, and [n] exclusive acquisitions in a row
    leave [n] exclusive tokens alive. *)
Theorem zero_slot_worker_grants_every_exclusive_token (ops : list op) :
  let s := steps 0 ops initial in
  cur s = 0
  /\ Forall (fun e => e = true) (live s)
  /\ ctor 0 (cur s) false
     = inl (too_many_executions "Execution failed: worker busy")
  /\ ctor 0 (cur s) true = inr 0
  /\ forall n, live (steps 0 (repeat (Acquire true) n) s)
               = repeat true n ++ live s.
Proof.
  intros s.
  assert (H0 : 0 <= 0 < 2 ^ 64) by lia.
  assert (guard_inv 0 s) as [Hr Hs]
    by (apply guard_inv_steps, guard_inv_initial; exact H0).
  assert (Hc : cur s = 0) by lia.
  assert (Hl : Forall (fun e => e = true) (live s)).
  { destruct Hs as [[Hf Hlen]|[Hf _]]; [|exact Hf].
    destruct (live s); [constructor|simpl in Hlen; lia]. }
  split; [exact Hc|]. split; [exact Hl|].
  rewrite Hc. split; [reflexivity|]. split; [reflexivity|].
  intros n. clearbody s. clear Hr Hs Hl. revert s Hc.
  induction n as [|n IH]; intros s Hc; [reflexivity|].
  cbn [repeat]. unfold steps in *. cbn [fold_left].
  assert (Hstep : step 0 s (Acquire true) = mkState 0 (true :: live s)).
  { unfold step, ctor. now rewrite Hc. }
  rewrite Hstep, IH by reflexivity. cbn [live].
  change (true :: live s) with ([true] ++ live s).
  rewrite app_assoc. f_equal. clear. induction n; [reflexivity|].
  cbn [repeat app]. now rewrite IHn.
Qed.

End ThreadGuardExclusion.

(** A worker with four slots: an exclusive token is refused while a shared
    one is alive, and granted alone. *)
Lemma exclusive_token_excludes_witness :
  let ops := [ThreadGuard.Acquire false; ThreadGuard.Acquire true;
              ThreadGuard.Release 0; ThreadGuard.Acquire true;
              ThreadGuard.Acquire false] in
  ThreadGuard.live (ThreadGuard.steps 4 ops ThreadGuard.initial) = [true]
  /\ Z.of_nat (length (ThreadGuard.live
                         (ThreadGuard.steps 4 ops ThreadGuard.initial))) <= 4.
Proof.
  intros ops. split; [reflexivity|].
  apply (exclusive_token_excludes 4 ops). lia.
Defined.

(* ===================================================================== *)
(** ** EventQueue: the writer loops *)
(* ===================================================================== *)

Section EventQueueWriterFacts.

Context {Event : Type}.

Import EventQueue EventQueueWriter.

Local Abbreviation system := (EventQueueWriter.system Event).

Lemma writer_inv_act (b : bool) (all : list Event) (s : system)
    (a : action Event) :
  writer_inv all s -> writer_inv (all ++ enqueued [a]) (act b s a).
Proof.
  intros [Hc Hr]. destruct s as [[q st] w m wr]. unfold pending in *.
  cbn in Hc, Hr. subst all.
  destruct a as [e| | | |]; cbn [enqueued omap act]; rewrite ?app_nil_r.
  - split; [|exact Hr]. cbn. unfold pending; cbn. now rewrite <- !app_assoc.
  - split; [reflexivity|]. reflexivity.
  - now split.
  - now split.
  - unfold BindWriter_step; cbn [writer queue mutex_held written].
    destruct w as [|e|].
    + unfold Dequeue, cond; cbn [stopped_ queue_].
      destruct q as [|e q].
      * destruct st; cbn; [now split|]. now split.
      * rewrite orb_true_r. split; [reflexivity|discriminate].
    + destruct (b && m); [now split|]. split; [|discriminate].
      cbn. unfold pending; cbn. now rewrite <- app_assoc.
    + now split.
Qed.

Lemma enqueued_app (l1 l2 : list (action Event)) :
  enqueued (l1 ++ l2) = enqueued l1 ++ enqueued l2.
Proof. apply omap_app. Qed.

Lemma writer_inv_acts (b : bool) (l : list (action Event)) (all : list Event)
    (s : system) :
  writer_inv all s -> writer_inv (all ++ enqueued l) (acts b l s).
Proof.
  revert all s. induction l as [|a l IH]; intros all s H.
  - cbn. now rewrite app_nil_r.
  - change (a :: l) with ([a] ++ l). rewrite enqueued_app, app_assoc.
    apply IH, writer_inv_act, H.
Qed.

Lemma acts_cons (b : bool) (a : action Event) (l : list (action Event))
    (s : system) :
  acts b (a :: l) s = acts b l (act b s a).
Proof. reflexivity. Qed.

(** Writer steps alone drain a stopped queue and leave the loop. *)
Lemma writer_drains (b : bool) (s : system) (n : nat) :
  stopped_ (queue s) = true ->
  b && mutex_held s = false ->
  writer s <> Returned ->
  (2 * length (queue_ (queue s)) + 2 <= n)%nat ->
  writer (acts b (repeat DoWriter n) s) = Returned
  /\ queue_ (queue (acts b (repeat DoWriter n) s)) = [].
Proof.
  destruct s as [[q st] w m wr]. cbn [queue stopped_ queue_ mutex_held writer].
  intros -> Hm Hw.
  pose (sys := fun (l : list Event) w wr =>
                 mkSystem (EventQueue.mkState l true) w m wr).
  assert (Hret : forall k wr,
             acts b (repeat DoWriter k) (sys [] Returned wr)
             = sys [] Returned wr).
  { induction k as [|k IH]; intros wr'; [reflexivity|]. cbn. apply IH. }
  assert (Hempty : forall k wr, (1 <= k)%nat ->
             acts b (repeat DoWriter k) (sys [] AtDequeue wr)
             = sys [] Returned wr).
  { intros [|k] wr' Hk; [lia|]. cbn. apply Hret. }
  assert (Hwrite : forall l e wr,
             BindWriter_step b (sys l (AtWrite e) wr)
             = sys l AtDequeue (wr ++ [e])).
  { intros l e wr'. unfold BindWriter_step, sys; cbn. now rewrite Hm. }
  assert (Hpop : forall l e wr,
             BindWriter_step b (sys (e :: l) AtDequeue wr)
             = sys l (AtWrite e) wr) by reflexivity.
  change (2 * length q + 2 <= n ->
          writer (acts b (repeat DoWriter n) (sys q w wr)) = Returned
          /\ queue_ (queue (acts b (repeat DoWriter n) (sys q w wr))) = [])%nat.
  revert w wr n Hw.
  induction q as [|e q IH]; intros w wr n Hw Hn; cbn [length] in Hn.
  - destruct w as [|e|]; [| |easy].
    + rewrite Hempty by lia. now split.
    + destruct n as [|n]; [lia|]. cbn [repeat]. rewrite !acts_cons.
      cbn [act]. rewrite Hwrite.
      rewrite Hempty by lia. now split.
  - destruct w as [|e'|]; [| |easy].
    + destruct n as [|n]; [lia|]. cbn [repeat]. rewrite !acts_cons.
      cbn [act]. rewrite Hpop.
      apply IH; [discriminate|lia].
    + destruct n as [|[|n]]; [lia|lia|].
      cbn [repeat]. rewrite !acts_cons. cbn [act]. rewrite Hwrite, Hpop.
      apply IH; [discriminate|lia].
Qed.

(** X12. [BindWriter] and [BindWriterUnlocked] write the events in the
    order of their enqueueing, each once: under every interleaving of the
    writer's steps with [Enqueue], [Stop] and other users of the writer's
    mutex, the events written, the one the writer holds and those still
    queued are together the events enqueued so far, in order; the loop is
    left only on a stopped queue; and once the queue is stopped and the
    writer's mutex is free, the writer alone writes everything enqueued
    and leaves the loop. *)
Theorem BindWriter_writes_in_enqueue_order
    (with_mutex : bool) (l : list (action Event)) :
  let s := acts with_mutex l start in
  written s ++ pending s ++ queue_ (queue s) = enqueued l
  /\ (writer s = Returned -> stopped_ (queue s) = true)
  /\ (stopped_ (queue s) = true ->
      with_mutex && mutex_held s = false ->
      writer s <> Returned ->
      forall n, (2 * length (queue_ (queue s)) + 2 <= n)%nat ->
        let s' := acts with_mutex (repeat DoWriter n) s in
        writer s' = Returned /\ written s' = enqueued l
        /\ queue_ (queue s') = []).
Proof.
  intros s.
  assert (Hinv : writer_inv (enqueued l) s).
  { apply (writer_inv_acts with_mutex l [] start). now split. }
  destruct Hinv as [Hc Hr]. split; [exact Hc|]. split; [exact Hr|].
  intros Hs Hm Hw n Hn s'.
  destruct (writer_drains with_mutex s n Hs Hm Hw Hn) as [Hret Hq].
  split; [exact Hret|]. split; [|exact Hq].
  assert (Hinv' : writer_inv (enqueued l ++ enqueued (repeat DoWriter n)) s').
  { apply writer_inv_acts. now split. }
  destruct Hinv' as [Hc' _]. fold s' in Hret, Hq.
  unfold pending in Hc'. rewrite Hret, Hq, !app_nil_r in Hc'.
  rewrite Hc'. clear. induction n as [|n IH]; cbn; [now rewrite app_nil_r|].
  exact IH.
Qed.

End EventQueueWriterFacts.

(* ===================================================================== *)
(** ** util::File: paths *)
(* ===================================================================== *)

Section Paths.

Import File FilePath.

Lemma find_last_of_app (a b : string) :
  find_last_of (a +:+ b)
  = match find_last_of b with
    | Some i => Some (String.length a + i)%nat
    | None => find_last_of a
    end.
Proof.
  induction a as [|c a IH]; rewrite ?append_nil, ?append_cons; cbn.
  - now destruct (find_last_of b).
  - rewrite IH. now destruct (find_last_of b).
Qed.

Lemma find_last_of_legal (name : string) :
  LocalExecutor.has_illegal_char name = false -> find_last_of name = None.
Proof.
  unfold LocalExecutor.has_illegal_char.
  induction name as [|c name IH]; cbn; [reflexivity|].
  unfold LocalExecutor.IsIllegalChar at 1.
  intros H. apply orb_false_iff in H as [Hc H].
  apply orb_false_iff in Hc as [Hc _]. now rewrite IH, Hc.
Qed.

Lemma substring_prefix (a b : string) :
  substring 0 (String.length a) (a +:+ b) = a.
Proof.
  induction a as [|c a IH]; rewrite ?append_nil, ?append_cons; cbn;
    [now destruct b|]. now rewrite IH.
Qed.

Lemma substring_whole (s : string) : substring 0 (String.length s) s = s.
Proof. induction s as [|c s IH]; cbn; [reflexivity|]. now rewrite IH. Qed.

Lemma substring_suffix (a b : string) :
  substring (String.length a) (String.length b) (a +:+ b) = b.
Proof.
  induction a as [|c a IH]; rewrite ?append_nil, ?append_cons; cbn;
    [apply substring_whole|exact IH].
Qed.

Lemma length_append (a b : string) :
  String.length (a +:+ b) = (String.length a + String.length b)%nat.
Proof.
  induction a as [|c a IH]; rewrite ?append_nil, ?append_cons; cbn;
    [reflexivity|]. now rewrite IH.
Qed.

Lemma JoinPath_legal (dir name : string) :
  name <> "" -> LocalExecutor.has_illegal_char name = false ->
  JoinPath dir name = dir +:+ "/" +:+ name.
Proof.
  intros Hne Hl. destruct name as [|c name]; [easy|].
  unfold JoinPath, is_separator.
  unfold LocalExecutor.has_illegal_char in Hl. cbn in Hl.
  apply orb_false_iff in Hl as [Hc _].
  unfold LocalExecutor.IsIllegalChar in Hc. now rewrite Hc.
Qed.

(** X13. A legal file name joined to a directory comes apart again: for
    a non-empty [name] without [/] and NUL, the directory of
    [JoinPath dir name] is [dir] and its base name is [name], whatever
    [dir] is. *)
Theorem BaseDir_BaseName_of_JoinPath (dir name : string) :
  name <> "" -> LocalExecutor.has_illegal_char name = false ->
  BaseDir (JoinPath dir name) = dir /\ BaseName (JoinPath dir name) = name.
Proof.
  intros Hne Hl. rewrite (JoinPath_legal dir name Hne Hl).
  assert (Hf : find_last_of (dir +:+ "/" +:+ name)
               = Some (String.length dir)).
  { rewrite find_last_of_app. change ("/" +:+ name) with (String "/" name).
    cbn [find_last_of]. rewrite (find_last_of_legal name Hl). cbn.
    f_equal. lia. }
  unfold BaseDir, BaseName. rewrite Hf. split.
  - apply substring_prefix.
  - change (dir +:+ "/" +:+ name) with (dir +:+ String "/" name).
    replace (dir +:+ String "/" name) with ((dir +:+ "/") +:+ name).
    2:{ clear. induction dir as [|c d IH]; rewrite ?append_nil, ?append_cons;
          [reflexivity|]. now rewrite IH. }
    replace (S (String.length dir)) with (String.length (dir +:+ "/"))
      by (rewrite length_append; cbn; lia).
    replace (String.length ((dir +:+ "/") +:+ name)
             - String.length (dir +:+ "/"))%nat
      with (String.length name) by (rewrite (length_append (dir +:+ "/")); lia).
    apply substring_suffix.
Qed.

End Paths.

(** The staged executable of the fourth scenario. *)
Lemma BaseDir_BaseName_of_JoinPath_witness :
  FilePath.BaseDir (File.JoinPath "tmp/XXXXXX/box" "bin") = "tmp/XXXXXX/box"
  /\ FilePath.BaseName (File.JoinPath "tmp/XXXXXX/box" "bin") = "bin".
Proof.
  apply (BaseDir_BaseName_of_JoinPath "tmp/XXXXXX/box" "bin");
    [discriminate|reflexivity].
Defined.

Section StoreLayout.

Import File FilePath.

Lemma PathForHash_layout (flags h : string) :
  digest_like h ->
  PathForHash flags h
  = flags +:+ "/" +:+ substring 0 2 h +:+ "/" +:+ substring 2 2 h +:+ "/" +:+ h.
Proof.
  intros [Hlen Hl].
  destruct h as [|c1 [|c2 [|c3 [|c4 h]]]]; cbn in Hlen; try lia.
  unfold LocalExecutor.has_illegal_char in Hl. cbn in Hl.
  apply orb_false_iff in Hl as [H1 Hl]. apply orb_false_iff in Hl as [_ Hl].
  apply orb_false_iff in Hl as [H3 _].
  unfold LocalExecutor.IsIllegalChar in H1, H3.
  assert (H0 : substring 0 0 h = "") by (now destruct h).
  unfold PathForHash. cbn [substring]. rewrite H0.
  unfold JoinPath, is_separator.
  repeat (rewrite ?H1, ?H3, ?append_cons, ?append_nil). reflexivity.
Qed.

(** X14. The layout of the store: the blob of a digest [h] lies at
    [ab/cd/h] under [Flags::store_directory], where [ab] and [cd] are the
    first two pairs of characters of [h]; [SHAToPath] puts its own
    directory in front only when [Flags::store_directory] is relative and
    not empty, and ignores it otherwise; and two digests have the same
    path only if they are equal. *)
Theorem store_path_of_digest (flags store h h' : string) :
  digest_like h -> digest_like h' ->
  PathForHash flags h
  = flags +:+ "/" +:+ substring 0 2 h +:+ "/" +:+ substring 2 2 h +:+ "/" +:+ h
  /\ SHAToPath flags store h
     = (if match flags with
           | EmptyString => true
           | String c _ => is_separator c
           end
        then PathForHash flags h
        else store +:+ "/" +:+ PathForHash flags h)
  /\ (SHAToPath flags store h = SHAToPath flags store h' -> h = h').
Proof.
  intros Hh Hh'.
  assert (Hs : forall d, digest_like d ->
             SHAToPath flags store d
             = (if match flags with
                   | EmptyString => true
                   | String c _ => is_separator c
                   end
                then PathForHash flags d
                else store +:+ "/" +:+ PathForHash flags d)).
  { intros d Hd. unfold SHAToPath. rewrite (PathForHash_layout flags d Hd).
    destruct flags as [|c f]; rewrite ?append_nil, ?append_cons; [reflexivity|].
    unfold JoinPath. now destruct (is_separator c). }
  split; [now apply PathForHash_layout|]. split; [now apply Hs|].
  rewrite (Hs h Hh), (Hs h' Hh').
  intros Heq.
  assert (Hp : PathForHash flags h = PathForHash flags h').
  { destruct (match flags with
              | EmptyString => true
              | String c _ => is_separator c
              end); [exact Heq|].
    now apply append_inj_l, append_inj_l in Heq. }
  rewrite (PathForHash_layout flags h Hh), (PathForHash_layout flags h' Hh') in Hp.
  apply append_inj_l, append_inj_l in Hp.
  destruct Hh as [Hlen _], Hh' as [Hlen' _].
  destruct h as [|c1 [|c2 [|c3 [|c4 h]]]]; cbn in Hlen; try lia.
  destruct h' as [|d1 [|d2 [|d3 [|d4 h']]]]; cbn in Hlen'; try lia.
  assert (H0 : substring 0 0 h = "") by (now destruct h).
  assert (H0' : substring 0 0 h' = "") by (now destruct h').
  cbn [substring] in Hp. rewrite H0, H0' in Hp.
  rewrite ?append_cons, ?append_nil in Hp.
  injection Hp. intros. congruence.
Qed.

End StoreLayout.

(** A store directory given relative to the worker's. *)
Lemma store_path_of_digest_witness :
  File.PathForHash "store" "0a1b2c" = "store/0a/1b/0a1b2c"
  /\ File.SHAToPath "store" "work" "0a1b2c" = "work/store/0a/1b/0a1b2c"
  /\ File.SHAToPath "/store" "work" "0a1b2c" = "/store/0a/1b/0a1b2c".
Proof.
  assert (H : FilePath.digest_like "0a1b2c")
    by (split; [cbn; lia|reflexivity]).
  split; [|split].
  - exact (proj1 (store_path_of_digest "store" "work" "0a1b2c" "0a1b2c" H H)).
  - exact (proj1 (proj2 (store_path_of_digest "store" "work" "0a1b2c"
                           "0a1b2c" H H))).
  - reflexivity.
Defined.

(* ===================================================================== *)
(** ** util::File: runs over the operating system *)
(* ===================================================================== *)

Section OsRuns.

Import Os.

Local Open Scope os_scope.

Context {W : Type}.

Variable h : handler W.

Lemma os_run_bind {A B} (p : prog A) (f : A -> prog B) (w : W) (e : Z) :
  run h (bind p f) w e =
    let '(tr, s, r) := run h p w e in
    match r with
    | inl x => (tr, s, inl x)
    | inr a =>
        let '(tr2, s2, r2) := run h (f a) (fst s) (snd s) in
        (tr ++ tr2, s2, r2)
    end.
Proof.
  revert w e. induction p as [a|x|c k IH|k IH]; intros w e; cbn.
  - now destruct (run h (f a) w e) as [[tr2 s2] r2].
  - reflexivity.
  - destruct (h c w) as [w1 r]. rewrite IH.
    destruct (run h (k r) w1 (errno_after c r e)) as [[tr s] [x|a]];
      [reflexivity|].
    now destruct (run h (f a) (fst s) (snd s)) as [[tr2 s2] r2].
  - apply IH.
Qed.

(** What [MkDir] does: one [mkdir]; it reports the directory made when the
    call succeeded or failed with [EEXIST]. *)
Lemma run_MkDir (dir : string) (w : W) (e : Z) :
  run h (MkDir dir) w e =
    let '(w1, r) := h (mkdir dir) w in
    ([Ev (mkdir dir) r], (w1, errno_after (mkdir dir) r e),
     inr (match r with inl e1 => e1 =? EEXIST | inr _ => true end)).
Proof.
  unfold MkDir. cbn. destruct (h (mkdir dir) w) as [w1 [e1|u]]; reflexivity.
Qed.

End OsRuns.

Section MakeDirsFacts.

Import Os.

Local Open Scope os_scope.

Lemma find_first_of_app (pre rest : string) (k : nat) :
  find_first_of (pre +:+ rest) (String.length pre + k)
  = option_map (fun i => (String.length pre + i)%nat) (find_first_of rest k).
Proof.
  induction pre as [|c pre IH]; rewrite ?append_nil, ?append_cons; cbn.
  - now destruct (find_first_of rest k).
  - rewrite IH. now destruct (find_first_of rest k).
Qed.

Lemma MakeDirs_loop_dirs {W : Type} (h : handler W) (rest pre : string)
    (fuel pos : nat) (w : W) (e : Z) :
  String.length pre = S pos -> (String.length rest < fuel)%nat ->
  run h (MakeDirs_loop fuel (pre +:+ rest) pos) w e
  = run h (mkdirs (dirs_from pre rest)) w e.
Proof.
  revert pre fuel pos w e.
  induction rest as [|c rest IH]; intros pre fuel pos w e Hpre Hfuel.
  - destruct fuel as [|fuel]; [cbn in Hfuel; lia|].
    cbn [MakeDirs_loop dirs_from mkdirs].
    replace (pos + 1)%nat with (String.length pre + 0)%nat by lia.
    rewrite find_first_of_app. cbn [find_first_of option_map substr0].
    rewrite append_nil_r, !os_run_bind.
    destruct (run h (MkDir pre) w e) as [[tr s] [x|[]]]; reflexivity.
  - destruct fuel as [|fuel]; [cbn in Hfuel; lia|].
    assert (Hpath : pre +:+ String c rest = (pre +:+ String c "") +:+ rest).
    { now rewrite append_assoc. }
    assert (Hlen : String.length (pre +:+ String c "") = S (S pos)).
    { rewrite length_append. cbn. lia. }
    cbn [dirs_from]. destruct (Ascii.eqb_spec c "/"%char) as [->|Hc].
    + assert (Hne : String.eqb pre "" = false).
      { destruct pre; [discriminate Hpre|reflexivity]. }
      rewrite Hne. cbn [andb negb app mkdirs MakeDirs_loop].
      replace (pos + 1)%nat with (String.length pre + 0)%nat by lia.
      rewrite find_first_of_app. cbn [find_first_of].
      rewrite Ascii.eqb_refl. cbn [option_map substr0].
      rewrite Nat.add_0_r, substring_prefix, !os_run_bind.
      destruct (run h (MkDir pre) w e) as [[tr [w1 e1]] [x|[]]];
        [reflexivity| |reflexivity].
      cbn [negb fst snd]. rewrite Hpath.
      rewrite (IH (pre +:+ "/") fuel (String.length pre) w1 e1);
        [reflexivity|rewrite Hlen; lia|cbn in Hfuel; lia].
    + cbn [andb app].
      assert (Hnext : find_first_of (pre +:+ String c rest) (pos + 1)
                      = find_first_of ((pre +:+ String c "") +:+ rest)
                          (S pos + 1)).
      { replace (pos + 1)%nat with (String.length pre + 0)%nat by lia.
        replace (S pos + 1)%nat
          with (String.length (pre +:+ String c "") + 0)%nat by lia.
        rewrite !find_first_of_app. cbn [find_first_of].
        apply Ascii.eqb_neq in Hc. rewrite Hc.
        destruct (find_first_of rest 0); cbn; [|reflexivity].
        f_equal. lia. }
      rewrite <- (IH (pre +:+ String c "") (S fuel) (S pos) w e Hlen);
        [|cbn in Hfuel; lia].
      cbn [MakeDirs_loop]. now rewrite Hnext, Hpath.
Qed.

Lemma MakeDirs_mkdirs {W : Type} (h : handler W) (path : string) (w : W)
    (e : Z) :
  run h (MakeDirs path) w e = run h (mkdirs (dirs path)) w e.
Proof.
  unfold MakeDirs, dirs. destruct path as [|c path].
  - cbn [String.length MakeDirs_loop dirs_from mkdirs find_first_of substr0].
    rewrite !os_run_bind.
    destruct (run h (MkDir "") w e) as [[tr s] [x|[]]]; reflexivity.
  - cbn [dirs_from String.eqb negb andb app]. rewrite andb_false_r.
    rewrite append_nil. cbn [app].
    change (String c path) with (String c "" +:+ path) at 2.
    apply MakeDirs_loop_dirs; [reflexivity|cbn; lia].
Qed.

End MakeDirsFacts.

Section MakeDirsTheorem.

Import Os.

Local Open Scope os_scope.

Context {W : Type}.

Variable h : handler W.

Lemma mkdirs_run (ds : list string) (w : W) (e : Z) :
  let r := run h (mkdirs ds) w e in
  map ev_cmd (trace_of r) = map mkdir (take (length (trace_of r)) ds)
  /\ match result_of r with
     | inr _ => length (trace_of r) = length ds /\ Forall made (trace_of r)
     | inl x =>
         exists tr0 ev e1,
           trace_of r = tr0 ++ [ev] /\ Forall made tr0
           /\ failure ev = Some e1 /\ e1 <> EEXIST
           /\ x = system_error e1 "mkdir"
     end.
Proof.
  cbv zeta. revert w e. induction ds as [|d ds IH]; intros w e.
  - cbn. repeat split; constructor.
  - cbn [mkdirs]. rewrite os_run_bind, run_MkDir.
    destruct (h (mkdir d) w) as [w1 [e1|[]]]; cbn [fst snd errno_after].
    + destruct (Z.eqb_spec e1 EEXIST) as [->|Hne]; cbn [negb].
      * specialize (IH w1 EEXIST).
        destruct (run h (mkdirs ds) w1 EEXIST) as [[tr s] res].
        cbn [trace_of result_of fst snd app length take map] in *.
        destruct IH as [IH1 IH2]. split; [cbn; f_equal; exact IH1|].
        destruct res as [x|u].
        -- destruct IH2 as (tr0 & ev & e2 & -> & Hm & Hf & Hne & ->).
           exists (Ev (mkdir d) (inl EEXIST) :: tr0), ev, e2.
           split; [reflexivity|]. split; [|now repeat split].
           constructor; [now right|exact Hm].
        -- destruct IH2 as [Hl Hm]. split; [now rewrite Hl|].
           constructor; [now right|exact Hm].
      * cbn. split; [reflexivity|].
        exists [], (Ev (mkdir d) (inl e1)), e1. now repeat split.
    + cbn [negb]. specialize (IH w1 e).
      destruct (run h (mkdirs ds) w1 e) as [[tr s] res].
      cbn [trace_of result_of fst snd app length take map negb] in *.
      destruct IH as [IH1 IH2]. split; [cbn; f_equal; exact IH1|].
      destruct res as [x|u].
      * destruct IH2 as (tr0 & ev & e2 & -> & Hm & Hf & Hne & ->).
        exists (Ev (mkdir d) (inr tt) :: tr0), ev, e2.
        split; [reflexivity|]. split; [|now repeat split].
        constructor; [now left|exact Hm].
      * destruct IH2 as [Hl Hm]. split; [now rewrite Hl|].
        constructor; [now left|exact Hm].
Qed.

End MakeDirsTheorem.

Section Dirs.

Import Os.

Lemma in_dirs_from (acc rest d : string) :
  In d (dirs_from acc rest)
  <-> d = acc +:+ rest
      \/ (d <> "" /\ exists r1 r2, rest = r1 +:+ "/" +:+ r2 /\ d = acc +:+ r1).
Proof.
  revert acc. induction rest as [|c rest IH]; intros acc.
  - cbn. rewrite append_nil_r. split.
    + intros [<-|[]]. now left.
    + intros [->|(_ & r1 & r2 & H & _)]; [now left|].
      symmetry in H. apply append_eq_nil in H as [_ H]. discriminate.
  - cbn [dirs_from]. rewrite in_app_iff, IH, append_assoc.
    rewrite append_cons, append_nil. split.
    + intros [Hx|[->|(Hd & r1 & r2 & -> & ->)]].
      * destruct (Ascii.eqb_spec c "/"%char) as [->|]; [|destruct Hx].
        destruct (String.eqb_spec acc "") as [|Hne]; [destruct Hx|].
        destruct Hx as [<-|[]]. right. split; [exact Hne|].
        exists "", rest. now rewrite append_nil, append_nil_r.
      * now left.
      * right. split; [exact Hd|]. exists (String c r1), r2.
        split; [reflexivity|]. now rewrite append_assoc.
    + intros [->|(Hd & r1 & r2 & Hr & ->)]; [right; now left|].
      destruct r1 as [|c1 r1]; rewrite ?append_nil, ?append_cons in Hr.
      * injection Hr as -> ->. left. rewrite append_nil_r in *.
        cbn. destruct (String.eqb_spec acc ""); [easy|]. now left.
      * injection Hr as -> ->. right. right. split; [exact Hd|].
        exists r1, r2. split; [reflexivity|]. now rewrite append_assoc.
Qed.

Lemma dirs_from_sorted (acc rest : string) :
  StronglySorted (fun a b => (String.length a < String.length b)%nat)
    (dirs_from acc rest).
Proof.
  revert acc. induction rest as [|c rest IH]; intros acc.
  - repeat constructor.
  - cbn [dirs_from].
    destruct (Ascii.eqb c "/" && negb (String.eqb acc "")); [|apply IH].
    cbn [app]. constructor; [apply IH|].
    rewrite Forall_forall. intros d Hd. apply list_elem_of_In in Hd.
    apply in_dirs_from in Hd as [->|(_ & r1 & r2 & _ & ->)];
      rewrite !length_append; cbn; lia.
Qed.

End Dirs.

Section MakeDirsSpec.

Import Os.

Context {W : Type}.

Variable h : handler W.

(** X15. [File::MakeDirs] makes the directories of a path from the
    outermost inwards: it calls [mkdir] for every prefix of the path that
    ends before a [/] (the empty one apart) and then for the path itself,
    shorter ones first, treating [EEXIST] as success; it stops at the first
    [mkdir] that fails otherwise and raises the system error of that
    [errno]; and it returns only when every directory was made. *)
Theorem MakeDirs_makes_every_prefix (path : string) (w : W) (e : Z) :
  let r := run h (MakeDirs path) w e in
  (forall d, In d (dirs path)
             <-> d = path
                 \/ (d <> "" /\ exists rest, path = d +:+ "/" +:+ rest))
  /\ StronglySorted (fun a b => (String.length a < String.length b)%nat)
       (dirs path)
  /\ map ev_cmd (trace_of r) = map mkdir (take (length (trace_of r)) (dirs path))
  /\ match result_of r with
     | inr _ =>
         length (trace_of r) = length (dirs path) /\ Forall made (trace_of r)
     | inl x =>
         exists tr0 ev e1,
           trace_of r = tr0 ++ [ev] /\ Forall made tr0
           /\ failure ev = Some e1 /\ e1 <> EEXIST
           /\ x = system_error e1 "mkdir"
     end.
Proof.
  cbv zeta. split; [|split; [apply dirs_from_sorted|]].
  - intros d. unfold dirs. rewrite in_dirs_from, append_nil.
    split; (intros [->|(Hd & H)]; [now left|right; split; [exact Hd|]]).
    + destruct H as (r1 & r2 & -> & ->). exists r2. now rewrite append_nil.
    + destruct H as (r2 & ->). exists d, r2. now rewrite append_nil.
  - rewrite MakeDirs_mkdirs. apply (mkdirs_run h).
Qed.

End MakeDirsSpec.

Section OsIssues.

Import Os.

Local Open Scope os_scope.

Context {W : Type}.

Variable h : handler W.

Lemma os_issues_only_bind (P : Sys -> bool) {A B} (p : prog A)
    (f : A -> prog B) :
  issues_only P p -> (forall a, issues_only P (f a)) ->
  issues_only P (bind p f).
Proof.
  intros Hp Hf. induction p as [a|x|c k IH|k IH]; cbn in *.
  - apply Hf.
  - exact I.
  - destruct Hp as [Hc Hk]. split; [exact Hc|]. intros r. now apply IH.
  - intros e. now apply IH.
Qed.

Lemma os_issues_only_run (P : Sys -> bool) {A} (p : prog A) (w : W) (e : Z) :
  issues_only P p ->
  Forall (fun ev => P (ev_cmd ev) = true) (trace_of (run h p w e)).
Proof.
  revert w e. induction p as [a|x|c k IH|k IH]; intros w e Hp; cbn in *.
  - constructor.
  - constructor.
  - destruct Hp as [Hc Hk]. destruct (h c w) as [w1 r].
    specialize (IH r w1 (errno_after c r e) (Hk r)).
    destruct (run h (k r) w1 (errno_after c r e)) as [[tr s] res].
    cbn in *. now constructor.
  - now apply IH.
Qed.

Lemma os_issues_only_impl (P Q : Sys -> bool) {A} (p : prog A) :
  (forall c, P c = true -> Q c = true) -> issues_only P p -> issues_only Q p.
Proof.
  intros HPQ. induction p as [a|x|c k IH|k IH]; cbn; [easy|easy| |].
  - intros [Hc Hk]. split; [now apply HPQ|]. intros r. now apply IH.
  - intros Hk e. now apply IH.
Qed.

Lemma MkDir_issues dir : issues_only is_mkdir (MkDir dir).
Proof.
  unfold MkDir. cbn. split; [reflexivity|]. intros [e|u]; cbn; [|exact I].
  intros e'. exact I.
Qed.

Lemma MakeDirs_loop_issues fuel path pos :
  issues_only is_mkdir (MakeDirs_loop fuel path pos).
Proof.
  revert pos. induction fuel as [|fuel IH]; intros pos; cbn [MakeDirs_loop];
    [exact I|].
  apply os_issues_only_bind; [apply MkDir_issues|].
  intros []; cbn [negb].
  - destruct (find_first_of path (pos + 1)); [apply IH|exact I].
  - cbn. intros e. exact I.
Qed.

Lemma MakeDirs_issues path : issues_only is_mkdir (MakeDirs path).
Proof. apply MakeDirs_loop_issues. Qed.

End OsIssues.

Section CopyFacts.

Import Os.

Local Open Scope os_scope.

Context {W : Type}.

Variable h : handler W.

Lemma Copy_issues from to overwrite exist_ok :
  issues_only (fun c => is_mkdir c || copies from to overwrite exist_ok c)
    (Copy from to overwrite exist_ok).
Proof.
  unfold Copy. apply os_issues_only_bind.
  { eapply os_issues_only_impl; [|apply MakeDirs_issues].
    intros c ->. reflexivity. }
  intros _.
  eapply os_issues_only_impl with (P := copies from to overwrite exist_ok).
  { intros c ->. apply orb_true_r. }
  unfold OsIsLink, OsAtomicCopy, OsRemove, HardCopy_call, sys, errno.
  destruct overwrite, exist_ok; cbn;
    repeat first
      [ exact I | progress (rewrite ?String.eqb_refl; cbn) | reflexivity
      | split | progress intros
      | match goal with
        | |- context [match ?x with _ => _ end] => destruct x; cbn
        end ].
Qed.

End CopyFacts.

Section CopyTheorem.

Import Os.

Local Open Scope os_scope.

Context {W : Type}.

Variable h : handler W.

Lemma mkdir_not ev (tr : list event) c :
  Forall (fun ev => is_mkdir (ev_cmd ev) = true) tr -> In ev tr ->
  ev_cmd ev = c -> is_mkdir c = false -> False.
Proof.
  intros Hk Hin <- Hc. rewrite Forall_forall in Hk.
  apply list_elem_of_In, Hk in Hin. congruence.
Qed.

(** X16. [File::Copy] spares the destination: beyond making the
    directories of the destination, it looks at the source, links it to
    the destination, and removes nothing but the destination, and that
    only with [overwrite] set, [exist_ok] not set, and right after the
    link failed with [EEXIST]; [HardCopy] gets the same flags and makes no
    directories; and with [exist_ok], a destination that exists ends the
    copy at once and successfully, also when [overwrite] is set. *)
Theorem Copy_spares_the_destination
    (from to : string) (overwrite exist_ok : bool) (w : W) (e : Z) :
  let r := run h (Copy from to overwrite exist_ok) w e in
  Forall (fun ev => is_mkdir (ev_cmd ev)
                    || copies from to overwrite exist_ok (ev_cmd ev) = true)
    (trace_of r)
  /\ (forall ev, In ev (trace_of r) -> ev_cmd ev = remove to ->
        exists ev' pre post,
          trace_of r = pre ++ [ev'; ev] ++ post
          /\ ev_cmd ev' = link from to /\ failure ev' = Some EEXIST)
  /\ (exist_ok = true ->
      forall ev, In ev (trace_of r) -> ev_cmd ev = link from to ->
                 failure ev = Some EEXIST ->
        result_of r = inr tt
        /\ last (trace_of r) = Some ev
        /\ Forall (fun ev => is_HardCopy (ev_cmd ev) = false) (trace_of r)).
Proof.
  cbv zeta. split.
  { apply (os_issues_only_run h
             (fun c => is_mkdir c || copies from to overwrite exist_ok c)).
    apply Copy_issues. }
  unfold Copy. rewrite os_run_bind.
  pose proof (os_issues_only_run h is_mkdir _ w e
                (MakeDirs_issues (FilePath.BaseDir to))) as Hd.
  destruct (run h (MakeDirs (FilePath.BaseDir to)) w e)
    as [[tr_d [w1 e1]] [x|[]]].
  { cbn [trace_of result_of fst snd] in *. split.
    - intros ev Hin Hc. exfalso. now apply (mkdir_not _ _ _ Hd Hin Hc).
    - intros _ ev Hin Hc. exfalso. now apply (mkdir_not _ _ _ Hd Hin Hc). }
  cbn [trace_of fst snd] in Hd. cbn [fst snd].
  assert (Hnh : Forall (fun ev => is_HardCopy (ev_cmd ev) = false) tr_d).
  { eapply Forall_impl; [exact Hd|]. cbn beta. intros ev Hev.
    destruct (ev_cmd ev); cbn in *; congruence. }
  unfold OsIsLink, OsAtomicCopy, OsRemove, HardCopy_call, sys, errno.
  cbn [bind run].
  destruct (h (lstat from) w1) as [w2 [e2|[]]]; cbn [bind run errno_after].
  (* [from] is a symbolic link *)
  2:{ destruct (h (HardCopy from to overwrite exist_ok false) w2)
        as [w3 [x|[]]]; cbn [trace_of result_of fst snd app].
      all: split;
        [intros ev Hin Hc; apply in_app_or in Hin as [Hin|[<-|[<-|[]]]];
         [exfalso; now apply (mkdir_not _ _ _ Hd Hin Hc)
         |discriminate Hc|discriminate Hc]
        |intros _ ev Hin Hc; apply in_app_or in Hin as [Hin|[<-|[<-|[]]]];
         [exfalso; now apply (mkdir_not _ _ _ Hd Hin Hc)
         |discriminate Hc|discriminate Hc]]. }
  all: destruct (h (link from to) _) as [w3 [e3|[]]] eqn:El;
    cbn [bind run errno_after failed negb].
  all: try (destruct (Z.eqb_spec e3 EEXIST) as [->|Hne]; cbn [negb bind run]).
  all: try (destruct exist_ok; cbn [negb bind run]).
  all: try (destruct overwrite; cbn [negb bind run]).
  all: repeat
         match goal with
         | |- context [h ?c ?w] =>
             destruct (h c w) as [? [?|[]]]; cbn [bind run errno_after failed negb]
         end.
  all: rewrite ?Z.eqb_refl; cbn [trace_of result_of fst snd app negb].
  all: repeat match goal with
         | |- context [Z.eqb ?a 0] => destruct (Z.eqb a 0)
         end; cbn [negb run trace_of result_of fst snd app bind].
  all: repeat
         match goal with
         | |- context [h ?c ?w] =>
             destruct (h c w) as [? [?|[]]];
             cbn [bind run errno_after failed negb trace_of result_of fst snd app]
         end.
  all: split;
    [ intros ev Hin Hc; apply in_app_or in Hin as [Hin|Hin];
      [exfalso; now apply (mkdir_not _ _ _ Hd Hin Hc)|];
      cbn [In] in Hin;
      repeat (destruct Hin as [<-|Hin]; [try discriminate Hc|]);
      try (destruct Hin);
      try (eexists _, (tr_d ++ [_]), _;
           split; [rewrite <- app_assoc; reflexivity|now split])
    | intros Hok ev Hin Hc Hf;
      first
        [ discriminate Hok
        | apply in_app_or in Hin as [Hin|Hin];
          [exfalso; now apply (mkdir_not _ _ _ Hd Hin Hc)|];
          cbn [In] in Hin;
          repeat (destruct Hin as [<-|Hin];
                  [try discriminate Hc; try discriminate Hf;
                   try (cbn in Hf; congruence)|]);
          try (destruct Hin);
          try (split; [reflexivity|]; split;
               [now rewrite last_app|];
               apply Forall_app; split; [exact Hnh|];
               repeat first [apply List.Forall_nil
                            |apply List.Forall_cons; [reflexivity|]]) ] ].
Qed.

End CopyTheorem.

Section MoveTheorem.

Import Os.

Local Open Scope os_scope.

Context {W : Type}.

Variable h : handler W.

Lemma MakeDirs_first (path : string) (w : W) (e : Z) :
  exists d o tr,
    trace_of (run h (MakeDirs path) w e) = Ev (mkdir d) o :: tr.
Proof.
  unfold MakeDirs. cbn [MakeDirs_loop]. rewrite os_run_bind, run_MkDir.
  destruct (h (mkdir _) w) as [w1 r].
  match goal with
  | |- context [if ?b then _ else _] => destruct b
  end; cbn [fst snd].
  - destruct (run h _ w1 _) as [[tr s] res]. cbn. eauto.
  - destruct (run h _ w1 _) as [[tr s] res]. cbn. eauto.
Qed.

(** What follows in [File::Move] when the condition holds. *)
Lemma Copy_Remove_run (from to : string) (overwrite exist_ok : bool)
    (w : W) (e : Z) :
  let r := run h (Copy from to overwrite exist_ok ;; Remove from) w e in
  Forall (fun ev => is_rename (ev_cmd ev) = false) (trace_of r)
  /\ (exists d o tr, trace_of r = Ev (mkdir d) o :: tr)
  /\ (result_of r = inr tt ->
      exists tr0, trace_of r = tr0 ++ [Ev (remove from) (inr tt)]).
Proof.
  cbv zeta. rewrite os_run_bind.
  pose proof (os_issues_only_run h _ _ w e
                (Copy_issues from to overwrite exist_ok)) as Hc.
  assert (Hfirst : exists d o tr,
             trace_of (run h (Copy from to overwrite exist_ok) w e)
             = Ev (mkdir d) o :: tr).
  { unfold Copy. rewrite os_run_bind.
    destruct (MakeDirs_first (FilePath.BaseDir to) w e) as (d & o & tr & Hm).
    destruct (run h (MakeDirs (FilePath.BaseDir to)) w e)
      as [[tr_d s_d] [x|[]]]; cbn in Hm; subst tr_d; [cbn; eauto|].
    destruct (run h _ (fst s_d) (snd s_d)) as [[tr2 s2] r2]. cbn. eauto. }
  destruct (run h (Copy from to overwrite exist_ok) w e)
    as [[tr_c [w1 e1]] [x|[]]]; cbn [trace_of result_of fst snd] in *.
  - split; [|split; [exact Hfirst|discriminate]].
    eapply Forall_impl; [exact Hc|]. cbn beta. intros ev Hev.
    destruct (ev_cmd ev); cbn in *; congruence.
  - unfold Remove, OsRemove, sys, errno. cbn [bind run].
    destruct (h (remove from) w1) as [w2 [e2|[]]];
      cbn [bind run failed negb errno_after trace_of result_of fst snd].
    + split; [|split; [|discriminate]].
      * apply Forall_app. split; [|now repeat constructor].
        eapply Forall_impl; [exact Hc|]. cbn beta. intros ev Hev.
        destruct (ev_cmd ev); cbn in *; congruence.
      * destruct Hfirst as (d & o & tr & ->). cbn. eauto.
    + split; [|split; [|intros _; now exists tr_c]].
      * apply Forall_app. split; [|now repeat constructor].
        eapply Forall_impl; [exact Hc|]. cbn beta. intros ev Hev.
        destruct (ev_cmd ev); cbn in *; congruence.
      * destruct Hfirst as (d & o & tr & ->). cbn. eauto.
Qed.


Lemma not_rename_in (tr : list event) ev :
  Forall (fun ev => is_rename (ev_cmd ev) = false) tr -> In ev tr ->
  is_rename (ev_cmd ev) = true -> False.
Proof.
  intros Hk Hin Hev. rewrite Forall_forall in Hk.
  apply list_elem_of_In, Hk in Hin. congruence.
Qed.

(** X17. [File::Move] takes a failed atomic move for success and a
    successful one for a reason to copy: when the [rename], or the [link]
    that takes its place without [overwrite], fails with an [errno] other
    than 0 (and than [EEXIST] under [exist_ok]), [Move] does nothing more
    and returns normally; and when the [rename] succeeds, [Move] goes on to
    [Copy] and [Remove] the source, so that it returns normally only if a
    later [remove] of the source succeeds. *)
Theorem Move_takes_failure_for_success
    (from to : string) (overwrite exist_ok : bool) (w : W) (e : Z) :
  let r := run h (Move from to overwrite exist_ok) w e in
  (forall ev e1,
     In ev (trace_of r) -> ev_cmd ev = rename from to ->
     failure ev = Some e1 -> e1 <> 0 ->
     result_of r = inr tt /\ last (trace_of r) = Some ev)
  /\ (forall ev0 ev post e1,
        trace_of r = ev0 :: ev :: post -> ev_cmd ev = link from to ->
        failure ev = Some e1 -> e1 <> 0 ->
        exist_ok = false \/ e1 <> EEXIST ->
        result_of r = inr tt /\ post = [])
  /\ (forall ev,
        In ev (trace_of r) -> ev_cmd ev = rename from to ->
        failure ev = None -> result_of r = inr tt ->
        exists tr0,
          trace_of r = tr0 ++ [Ev (remove from) (inr tt)] /\ In ev tr0).
Proof.
  cbv zeta. unfold Move, OsIsLink, OsAtomicMove, sys, errno.
  cbn [bind run].
  destruct (h (lstat from) w) as [w1 [e1|is_link]];
    cbn [bind run errno_after].
  all: try destruct is_link; cbn [bind run].
  (* a symbolic link: [Copy] and [Remove] at once *)
  2:{ pose proof (Copy_Remove_run from to overwrite exist_ok w1 e)
        as (Hnr & (d & o & tr' & Hfirst) & Hlast).
      destruct (run h (Copy from to overwrite exist_ok;; Remove from) w1 e)
        as [[tr s] res]. cbn [trace_of result_of fst snd] in *. subst tr.
      split; [|split].
      - intros ev e2 [<-|Hin] Hc; [discriminate Hc|]. exfalso.
        apply (not_rename_in _ _ Hnr Hin). now rewrite Hc.
      - intros ev0 ev post e2 Heq Hc. injection Heq as _ <- _.
        discriminate Hc.
      - intros ev [<-|Hin] Hc; [discriminate Hc|]. exfalso.
        apply (not_rename_in _ _ Hnr Hin). now rewrite Hc. }
  all: destruct overwrite; cbn [bind run].
  all: match goal with
       | |- context [h ?c ?w] =>
           destruct (h c w) as [w2 [e2|[]]];
           cbn [bind run errno_after failed negb]
       end.
  all: try (destruct exist_ok; cbn [bind run negb]).
  all: repeat match goal with
       | |- context [Z.eqb ?a EEXIST] =>
           destruct (Z.eqb_spec a EEXIST); cbn [bind run negb]
       end.
  all: try match goal with
       | |- context [h (remove ?f) ?w] =>
           destruct (h (remove f) w) as [w3 [e3|[]]];
           cbn [bind run errno_after failed negb]
       end.
  all: repeat match goal with
       | |- context [Z.eqb ?a ENOENT] =>
           destruct (Z.eqb_spec a ENOENT); cbn [bind run negb]
       end.
  all: repeat match goal with
       | |- context [Z.eqb ?a 0] =>
           destruct (Z.eqb_spec a 0); cbn [bind run]
       end.
  all: try match goal with
       | |- context [run h (Copy ?f ?t ?o ?x;; Remove ?f) ?w' ?e'] =>
           pose proof (Copy_Remove_run f t o x w' e')
             as (Hnr & Hfirst & Hlast);
           destruct (run h (Copy f t o x;; Remove f) w' e')
             as [[tr s] res]
       end.
  all: cbn [trace_of result_of fst snd] in *; subst.
  all: try (exfalso; congruence).
  all: split;
    [ intros ev e9 Hin Hc Hf Hz;
      repeat (destruct Hin as [<-|Hin];
              [first [discriminate Hc
                     |cbn in Hf; first [discriminate Hf|congruence|idtac]]|]);
      first [ destruct Hin
            | exfalso; apply (not_rename_in _ _ Hnr Hin); now rewrite Hc
            | now split ]
    | split;
      [ intros ev0 ev post e9 Heq Hc Hf Hz Hor;
        try (destruct Hfirst as (d & o' & tr' & ->));
        injection Heq as <- <- <-;
        first [ discriminate Hc
              | cbn in Hf;
                first [ discriminate Hf
                      | injection Hf as <-;
                        first [now split|destruct Hor; congruence] ] ]
      | intros ev Hin Hc Hf Hres;
        first
          [ discriminate Hres
          | solve [repeat (destruct Hin as [<-|Hin];
                           [first [discriminate Hc
                                  |cbn in Hf; discriminate Hf]|]);
                   destruct Hin]
          | destruct (Hlast Hres) as [tr0 ->];
            repeat (destruct Hin as [<-|Hin];
                    [first [discriminate Hc
                           |cbn in Hf; first [discriminate Hf|idtac]]|]);
            first
              [ exfalso; apply (not_rename_in _ _ Hnr Hin); now rewrite Hc
              | eexists (_ :: _ :: tr0); split; [reflexivity|];
                right; now left ] ] ] ].
Qed.

End MoveTheorem.

Section ProducerFacts.

Import Os.

Local Open Scope os_scope.

Context {W : Type}.

Variable h : handler W.

(** The reads of the loop: interrupted ones, and the one that ends it. *)
Lemma read_loop_run (fuel : nat) (fd : Z) (w : W) (e : Z) :
  exists pre tail,
    trace_of (run h (read_loop fuel fd) w e) = pre ++ tail
    /\ Forall (fun ev => interrupted ev = true) pre
    /\ Forall (fun ev => ev_cmd ev = read fd) pre
    /\ ((result_of (run h (read_loop fuel fd) w e)
         = inl (logic_error "read_loop: fuel")
         /\ tail = [] /\ length pre = fuel)
        \/ (exists data,
              result_of (run h (read_loop fuel fd) w e) = inr (Some data)
              /\ tail = [Ev (read fd) (inr data)])
        \/ (exists x,
              result_of (run h (read_loop fuel fd) w e) = inr None
              /\ tail = [Ev (read fd) (inl x)] /\ x <> EINTR
              /\ snd (snd (fst (run h (read_loop fuel fd) w e))) = x)).
Proof.
  revert w e. induction fuel as [|fuel IH]; intros w e.
  - exists [], []. cbn.
    split; [reflexivity|]. split; [constructor|]. split; [constructor|].
    now left.
  - cbn [read_loop]. unfold sys, errno. cbn [bind run].
    destruct (h (read fd) w) as [w1 [x|data]]; cbn [bind run errno_after].
    + destruct (Z.eqb_spec x EINTR) as [->|Hne].
      * destruct (IH w1 EINTR) as (pre & tail & Htr & Hi & Hc & Hres).
        destruct (run h (read_loop fuel fd) w1 EINTR) as [[tr s] res].
        cbn [trace_of result_of fst snd] in *. subst tr.
        exists (Ev (read fd) (inl EINTR) :: pre), tail.
        split; [reflexivity|]. split; [now constructor|].
        split; [now constructor|].
        destruct Hres as [(-> & -> & <-)|[(data & -> & ->)|(y & -> & -> & Hy)]].
        -- now left.
        -- right. left. now exists data.
        -- right. right. now exists y.
      * exists [], [Ev (read fd) (inl x)]. cbn.
        split; [reflexivity|]. split; [constructor|]. split; [constructor|].
        right. right. now exists x.
    + exists [], [Ev (read fd) (inr data)]. cbn.
      split; [reflexivity|]. split; [constructor|]. split; [constructor|].
      right. left. now exists data.
Qed.


Lemma interrupted_read ev :
  interrupted ev = true ->
  closes ev = None /\ failure ev = Some EINTR.
Proof.
  unfold interrupted, closes. destruct ev as [c r]. cbn [ev_cmd].
  destruct c; try discriminate. destruct (failure _) as [x|] eqn:E;
    [|discriminate].
  intros Hx. apply Z.eqb_eq in Hx. now subst x.
Qed.

(** X18. The producer of [OsRead] closes the file only at its end: the
    descriptor is closed only right after a [read] returned no bytes, and
    then the producer is done; when [read] fails otherwise than by
    [EINTR], the system error carries its [errno] and the descriptor is
    never closed (the call is [close(-1)]); a chunk of data leaves the
    descriptor open for the next call; and a [read] that is interrupted is
    repeated, for as long as it is interrupted. *)
Theorem producer_closes_only_at_the_end
    (fuel : nat) (path : string) (fd : Z) (w : W) (e : Z) :
  fd <> -1 ->
  let r := run h (producer fuel path fd) w e in
  (forall ev, In ev (trace_of r) -> closes ev = Some fd ->
     exists pre x,
       trace_of r = pre ++ [Ev (read fd) (inr ""); ev]
       /\ result_of r = inr (-1, x))
  /\ (forall ev x,
        In ev (trace_of r) -> ev_cmd ev = read fd -> failure ev = Some x ->
        x <> EINTR ->
        result_of r = inr (-1, inl (system_error x ("Read " +:+ path)))
        /\ Forall (fun ev => closes ev <> Some fd) (trace_of r))
  /\ (forall fd' data,
        result_of r = inr (fd', inr data) -> data <> "" ->
        fd' = fd /\ Forall (fun ev => closes ev = None) (trace_of r))
  /\ (forall x,
        result_of r = inl x ->
        x = logic_error "read_loop: fuel" /\ length (trace_of r) = fuel
        /\ Forall (fun ev => interrupted ev = true) (trace_of r)).
Proof.
  intros Hfd. cbv zeta. unfold producer.
  destruct (Z.eqb_spec fd (-1)) as [|_]; [contradiction|].
  rewrite os_run_bind.
  destruct (read_loop_run fuel fd w e) as (pre & tail & Htr & Hi & Hc & Hres).
  destruct (run h (read_loop fuel fd) w e) as [[tr [w1 e1]] res].
  cbn [trace_of result_of fst snd] in *. subst tr.
  assert (Hpre : forall ev, In ev pre ->
             closes ev = None /\ failure ev = Some EINTR).
  { intros ev Hin. apply interrupted_read.
    rewrite Forall_forall in Hi. now apply Hi, list_elem_of_In. }
  assert (Hnc : Forall (fun ev => closes ev = None) pre).
  { rewrite Forall_forall. intros ev Hin. apply list_elem_of_In in Hin.
    now apply Hpre. }
  assert (Hnf : Forall (fun ev => closes ev <> Some fd) pre).
  { eapply Forall_impl; [exact Hnc|]. intros ev ->. discriminate. }
  destruct Hres as [(-> & -> & <-)|[(data & -> & ->)|(x & -> & -> & Hx & He1)]].
  - (* out of fuel *)
    rewrite app_nil_r. split; [|split; [|split]].
    + intros ev Hin Hcl. apply Hpre in Hin as [Hn _]. congruence.
    + intros ev x Hin _ Hf Hx. apply Hpre in Hin as [_ Hn]. congruence.
    + discriminate.
    + intros x Hx. injection Hx as <-. now repeat split.
  - destruct data as [|c data]; unfold sys, errno; cbn [bind run fst snd].
    + (* the end of the file *)
      destruct (h (close fd) w1) as [w2 [e2|[]]];
        cbn [bind run errno_after failed trace_of result_of fst snd app].
      all: rewrite <- ?app_assoc; cbn [app].
      all: split;
        [ intros ev Hin Hcl; apply in_app_or in Hin as [Hin|Hin];
          [apply Hpre in Hin as [Hn _]; congruence|];
          destruct Hin as [<-|[<-|[]]]; [discriminate Hcl|];
          eexists pre, _; split; reflexivity
        | split;
          [ intros ev x Hin Hcmd Hf Hx;
            apply in_app_or in Hin as [Hin|Hin];
            [apply Hpre in Hin as [_ Hn]; congruence|];
            destruct Hin as [<-|[<-|[]]];
            [discriminate Hf|discriminate Hcmd]
          | split;
            [ intros fd' data Hr Hd;
              first [discriminate Hr
                    |injection Hr as <- <-; now contradict Hd]
            | discriminate ] ] ].
    + (* a chunk of data *)
      cbn [trace_of result_of fst snd app]. rewrite app_nil_r.
      split; [|split; [|split]].
      * intros ev Hin Hcl. apply in_app_or in Hin as [Hin|[<-|[]]];
          [apply Hpre in Hin as [Hn _]; congruence|discriminate Hcl].
      * intros ev x Hin _ Hf Hx. apply in_app_or in Hin as [Hin|[<-|[]]];
          [apply Hpre in Hin as [_ Hn]; congruence|discriminate Hf].
      * intros fd' d Hr _. injection Hr as <- _. split; [reflexivity|].
        apply Forall_app. split; [exact Hnc|now repeat constructor].
      * discriminate.
  - (* [read] failed *)
    unfold sys, errno. cbn [bind run fst snd]. cbn [snd] in He1. subst e1.
    destruct (h (close (-1)) w1) as [w2 r2].
    cbn [bind run errno_after trace_of result_of fst snd app].
    rewrite <- ?app_assoc; cbn [app].
    split; [|split; [|split]].
    + intros ev Hin Hcl. apply in_app_or in Hin as [Hin|Hin];
        [apply Hpre in Hin as [Hn _]; congruence|].
      destruct Hin as [<-|[<-|[]]]; [discriminate Hcl|].
      cbn in Hcl. congruence.
    + intros ev y Hin Hcmd Hf Hy.
      apply in_app_or in Hin as [Hin|Hin];
        [apply Hpre in Hin as [_ Hn]; congruence|].
      destruct Hin as [<-|[<-|[]]]; [|discriminate Hcmd].
      cbn in Hf. injection Hf as <-. split; [reflexivity|].
      apply Forall_app. split; [exact Hnf|].
      constructor; [discriminate|]. constructor; [|constructor].
      cbn. congruence.
    + discriminate.
    + discriminate.
Qed.

End ProducerFacts.

(* ===================================================================== *)
(** ** Runs of the scenarios *)
(* ===================================================================== *)

(** The release of the token throws: the process is terminated and the
    temporary directory is not removed. *)
Lemma temp_directory_removed_on_every_exit_witness :
  let r := run Scenario.stuck_release
             (LocalExecutor.Execute Example.executor Example.output_request)
             tt in
  (exists tr0,
      trace_of r
      = tr0 ++ [Ev (ThreadGuardRelease false)
                  (inl (system_error 22 "mutex lock failed"))])
  /\ view [KFileRemoveTree] (trace_of r) = []
  /\ result_of r = inl std_terminate.
Proof.
  intros r.
  apply (proj1 (proj2 (proj2
           (temp_directory_removed_on_every_exit Example.executor
              Scenario.stuck_release Example.output_request tt)))
           (system_error 22 "mutex lock failed")).
  vm_compute. repeat (first [left; reflexivity|right]).
Defined.


(** The run of the fourth scenario: the sandbox is the eleventh command;
    the ten commands in front of it succeeded, and the release of the token
    follows it. *)
Lemma sandbox_runs_between_staging_and_extraction_witness :
  let tr := trace_of
              (run (Example.env Example.echo)
                 (LocalExecutor.Execute Example.executor Example.output_request)
                 Example.empty_world) in
  map (fun e => kind_of (ev_cmd e)) (firstn 11 tr)
  = [KFileSize; KFileWriteContents; KFileMakeDirs; KOsTempDir; KFileMakeDirs;
     KFileCopy; KFileMakeExecutable; KSandboxCreate;
     KSandboxPrepareForExecution; KThreadGuardAcquire; KSandboxExecute]
  /\ Forall (fun e => threw e = false) (firstn 10 tr)
  /\ exists tmp rr post',
       skipn 11 tr = Ev (ThreadGuardRelease false) rr :: post'
       /\ extraction_only Example.executor tmp
            (LocalExecutor.FileInfo_of_type STDOUT
             :: LocalExecutor.FileInfo_of_type STDERR
             :: LocalExecutor.output Example.output_request) post'.
Proof.
  intros tr. split; [vm_compute; reflexivity|].
  destruct (sandbox_runs_between_staging_and_extraction Example.executor
              (Example.env Example.echo) Example.output_request
              Example.empty_world (firstn 10 tr) (skipn 11 tr)
              (nth 10 tr (Ev Errno (inr 0))))
    as [_ (chunks & tmp & staged & prep & rr & post' & _ & _ & _ & _ & _
           & Hclean & Hpost & _ & Hx)].
  - vm_compute. reflexivity.
  - vm_compute. reflexivity.
  - split; [exact Hclean|]. now exists tmp, rr, post'.
Defined.

(** The program writes [result.txt]: the response describes the two
    streams and the declared output, each with the digest of its file. *)
Lemma response_describes_ingested_outputs_witness :
  let r0 := run (Example.env Scenario.producing)
              (LocalExecutor.Execute Example.executor Example.output_request)
              Example.empty_world in
  exists r,
    result_of r0 = inr r
    /\ map hash (LocalExecutor.rsp_output r) = ["hhello"; "h"; "h42"]
    /\ exists tmp a b declared found,
         retrieved Example.executor tmp
           (LocalExecutor.output Example.output_request) declared found
         /\ LocalExecutor.rsp_output r
            = LocalExecutor.SetSHA a (LocalExecutor.FileInfo_of_type STDOUT)
              :: LocalExecutor.SetSHA b (LocalExecutor.FileInfo_of_type STDERR)
              :: found.
Proof.
  intros r0.
  assert (Hr : exists r,
             result_of r0 = inr r
             /\ map hash (LocalExecutor.rsp_output r) = ["hhello"; "h"; "h42"]).
  { eexists. split; [vm_compute; reflexivity|]. vm_compute. reflexivity. }
  destruct Hr as (r & Hr & Hh). exists r.
  split; [exact Hr|]. split; [exact Hh|].
  destruct (response_describes_ingested_outputs Example.executor
              (Example.env Scenario.producing) Example.output_request
              Example.empty_world r Hr)
    as (chunks & tmp & staged & prep & options & info & msg & a & b
        & declared & found & _ & Hret & Ho & _).
  now exists tmp, a, b, declared, found.
Defined.

(** The store is empty: the size query for the executable answers -1 and
    its inline contents are written. *)
Lemma store_written_only_for_absent_inputs_witness :
  let tr := trace_of
              (run (Example.env Example.echo)
                 (LocalExecutor.Execute Example.executor Example.output_request)
                 Example.empty_world) in
  exists pre' size file,
    firstn 1 tr
    = pre' ++ [Ev (FileSize
                     (LocalExecutor.ProtoSHAToPath Example.executor
                        (LocalExecutor.store_directory_ Example.executor)
                        (hash file))) (inr size)]
    /\ size < 0 /\ In file (LocalExecutor.input Example.output_request)
    /\ ev_cmd (nth 1 tr (Ev Errno (inr 0)))
       = fetch_of (num := Example.exact_numerics) Example.executor file.
Proof.
  intros tr.
  destruct (store_written_only_for_absent_inputs Example.executor
              (Example.env Example.echo) Example.output_request
              Example.empty_world (firstn 1 tr) (skipn 2 tr)
              (nth 1 tr (Ev Errno (inr 0))))
    as (pre' & size & file & H1 & H2 & H3 & H4 & _);
    [vm_compute; reflexivity|vm_compute; reflexivity|].
  exists pre', size, file. now repeat split.
Defined.

(** The sandbox of the fourth scenario. *)
Lemma sandbox_works_in_the_temporary_directory_witness :
  let tr := trace_of
              (run (Example.env Example.echo)
                 (LocalExecutor.Execute Example.executor Example.output_request)
                 Example.empty_world) in
  exists tmp,
    In (Ev (OsTempDir "tmp") (inr tmp)) tr
    /\ root Scenario.echo_options = File.JoinPath tmp LocalExecutor.kBoxDir
    /\ stdin_file Scenario.echo_options = "".
Proof.
  intros tr.
  assert (Hin : In (Ev (SandboxExecute Scenario.echo_options)
                      (inr (true, mkExecutionInfo 10 5 20 1000 0 0 "", "")))
                  tr).
  { vm_compute. do 10 right. left. reflexivity. }
  destruct (sandbox_works_in_the_temporary_directory Example.executor
              (Example.env Example.echo) Example.output_request
              Example.empty_world Scenario.echo_options _ Hin)
    as (tmp & Htmp & Hroot & _ & _ & _ & _ & Hstdin & _).
  exists tmp. split; [exact Htmp|]. split; [exact Hroot|exact Hstdin].
Defined.

(** The declared output [out/result.txt]: the program runs, its streams
    are stored, and only then the name is rejected. *)
Lemma illegal_output_name_fails_after_the_run_witness :
  let r := run (Example.env Example.echo)
             (LocalExecutor.Execute Example.executor
                Scenario.illegal_output_request)
             Example.empty_world in
  result_of r = inl (runtime_error "Invalid file name")
  /\ map (fun ev => kind_of (ev_cmd ev)) (skipn 9 (trace_of r))
     = [KThreadGuardAcquire; KSandboxExecute; KThreadGuardRelease;
        KFileHash; KFileCopy; KFileHash; KFileCopy; KFileRemoveTree].
Proof.
  intros r. split; [|vm_compute; reflexivity].
  assert (Hbad : illegal_output
                   (mkFileInfo "out/result.txt" USER "" false None)).
  { split; [discriminate|]. split; [discriminate|reflexivity]. }
  exact (eq_trans
           (proj2 (illegal_output_name_fails_after_the_run Example.executor
                     (Example.env Example.echo)
                     Scenario.illegal_output_request [] []
                     (mkFileInfo "out/result.txt" USER "" false None)
                     Example.empty_world eq_refl Hbad))
           eq_refl).
Defined.

(** A read error on descriptor 3: the error is raised and descriptor 3 is
    still open. *)
Lemma producer_closes_only_at_the_end_witness :
  let r := Os.run Scenario.broken_disk (Os.producer 8 "f" 3) tt 0 in
  Os.result_of r = inr (-1, inl (system_error 5 "Read f"))
  /\ map Os.ev_cmd (Os.trace_of r) = [Os.read 3; Os.close (-1)]
  /\ Forall (fun ev => Os.closes ev <> Some 3) (Os.trace_of r).
Proof.
  intros r. split; [reflexivity|]. split; [reflexivity|].
  assert (Hfd : 3 <> -1) by lia.
  apply (proj1 (proj2 (producer_closes_only_at_the_end Scenario.broken_disk
                         8 "f" 3 tt 0 Hfd))
           (Os.Ev (Os.read 3) (inl 5)) 5);
    [vm_compute; left; reflexivity|reflexivity|reflexivity|discriminate].
Defined.
